(** * camhub-agent: the device / publisher reconciliation core of [main.go]

    A shallow embedding of the Go agent: identity and naming ([slugify],
    the per-device part of [refreshCameras]), the state store ([loadState],
    [saveState]), the publisher supervisor ([ensurePublisherLocked],
    [stopPublisherLocked] and the exit-watching goroutine), the
    reconciliation cycle ([refreshCameras]) and the toggle handler
    ([handleToggle]).

    Everything the agent mutates under [a.mu] is one [World] value; every
    function below is one critical section of the Go code (a region between
    [a.mu.Lock()] and [a.mu.Unlock()]), so interleavings of goroutines are
    interleavings of these functions.  What the operating system and
    [encoding/json] decide (whether a subprocess starts, whether a file can
    be written, how a mapping is encoded) is a parameter, [Env].

    Not embedded: device discovery ([discoverDevices] and the parser of the
    v4l2-ctl listing; a scan is given by the list it returns), the
    registration heartbeat, the list handler, the static files, the
    configuration loader, and the copying of a subprocess's stderr to the
    log. *)

From Stdlib Require Import Ascii String.
From stdpp Require Import base gmap strings list fin_maps sorting pretty.

Open Scope string_scope.

(* ===================================================================== *)
(** ** Strings: [strings.ToLower], the regexp of [slugify], [strings.Trim] *)
(* ===================================================================== *)

Module Str.

Definition code (c : ascii) : nat := nat_of_ascii c.

Definition isUpper (c : ascii) : bool := (65 <=? code c)%nat && (code c <=? 90)%nat.
Definition isLower (c : ascii) : bool := (97 <=? code c)%nat && (code c <=? 122)%nat.
Definition isDigit (c : ascii) : bool := (48 <=? code c)%nat && (code c <=? 57)%nat.

(** The character class [a-z0-9] of the regexp in [slugify]. *)
Definition isSlugChar (c : ascii) : bool := isLower c || isDigit c.

Definition lowerAscii (c : ascii) : ascii :=
  if isUpper c then ascii_of_nat (code c + 32) else c.

(** [strings.ToLower] on the UTF-8 bytes of a Go string.  ASCII letters are
    mapped bytewise.  Two code points outside ASCII have an ASCII lower
    case: U+0130 (bytes C4 B0) gives [i] and U+212A (bytes E2 84 AA) gives
    [k].  Every other rune outside ASCII is mapped to a rune outside ASCII
    again; its bytes stay >= 0x80 (and are kept as they are here, which
    [slugify] cannot tell apart: its regexp replaces all of them). *)
Fixpoint ToLower (s : string) : string :=
  match s with
  | EmptyString => EmptyString
  | String c r =>
      match r with
      | String c1 r1 =>
          if (code c =? 196)%nat && (code c1 =? 176)%nat then String "i" (ToLower r1)
          else
            match r1 with
            | String c2 r2 =>
                if (code c =? 226)%nat && (code c1 =? 132)%nat && (code c2 =? 170)%nat
                then String "k" (ToLower r2)
                else String (lowerAscii c) (ToLower r)
            | EmptyString => String (lowerAscii c) (ToLower r)
            end
      | EmptyString => String (lowerAscii c) EmptyString
      end
  end.

(** [regexp.MustCompile(`[^a-z0-9]+`).ReplaceAllString(value, "-")]: each
    maximal run of characters outside the class becomes one ["-"].
    [inRun] says that the previous character was outside the class. *)
Fixpoint replaceRuns (inRun : bool) (s : string) : string :=
  match s with
  | EmptyString => EmptyString
  | String c r =>
      if isSlugChar c then String c (replaceRuns false r)
      else if inRun then replaceRuns true r
      else String "-" (replaceRuns true r)
  end.

Definition isDash (c : ascii) : bool := (code c =? 45)%nat.

Fixpoint trimLeftDash (s : string) : string :=
  match s with
  | String c r => if isDash c then trimLeftDash r else s
  | EmptyString => EmptyString
  end.

Fixpoint trimRightDash (s : string) : string :=
  match s with
  | String c r =>
      match trimRightDash r with
      | EmptyString => if isDash c then EmptyString else String c EmptyString
      | r' => String c r'
      end
  | EmptyString => EmptyString
  end.

(** [strings.Trim(value, "-")] *)
Definition TrimDash (s : string) : string := trimRightDash (trimLeftDash s).

(** [strings.TrimRight(value, "/")] *)
Fixpoint TrimRightSlash (s : string) : string :=
  match s with
  | String c r =>
      match TrimRightSlash r with
      | EmptyString => if (code c =? 47)%nat then EmptyString else String c EmptyString
      | r' => String c r'
      end
  | EmptyString => EmptyString
  end.

(** The words of a string: its maximal runs of class characters, in
    order.  [cur] is the word being read. *)
Fixpoint fieldsGo (cur : string) (s : string) : list string :=
  match s with
  | EmptyString => if decide (cur = "") then [] else [cur]
  | String c r =>
      if isSlugChar c then fieldsGo (cur +:+ String c EmptyString) r
      else if decide (cur = "") then fieldsGo "" r
      else cur :: fieldsGo "" r
  end.

Definition fields (s : string) : list string := fieldsGo "" s.

Fixpoint allSlug (s : string) : bool :=
  match s with
  | EmptyString => true
  | String c r => isSlugChar c && allSlug r
  end.

(** [strings.Join(ws, "-")] *)
Fixpoint joinDash (ws : list string) : string :=
  match ws with
  | [] => ""
  | [w] => w
  | w :: ws' => w +:+ "-" +:+ joinDash ws'
  end.

End Str.

(** [slugify] of main.go. *)
Definition slugify (value : string) : string :=
  let value := Str.ToLower value in
  let value := Str.replaceRuns false value in
  Str.TrimDash value.

(** The slug as the specification words it: the lower-cased string is cut
    at every run of characters outside [a-z0-9], and the pieces that are
    left are joined by single dashes, so that no dash leads or trails. *)
Definition slug_spec (value : string) : string :=
  Str.joinDash (Str.fields (Str.ToLower value)).

(* ===================================================================== *)
(** ** Data model *)
(* ===================================================================== *)

(** The fields of [Config] that the core reads. *)
Record Config := mkConfig {
  MediaMtxRtspBase : string;
  FfmpegPath : string;
  StateFile : string;
}.

Record DeviceInfo := mkDevice {
  devName : string;   (* DeviceInfo.Name *)
  devNode : string;   (* DeviceInfo.Node *)
}.

Record Camera := mkCamera {
  DeviceUID : string;
  Name : string;
  Node : string;
  StreamPath : string;
  RtspURL : string;
  Enabled : bool;
  Publishing : bool;
}.

Definition setEnabled (b : bool) (c : Camera) : Camera :=
  mkCamera (DeviceUID c) (Name c) (Node c) (StreamPath c) (RtspURL c) b (Publishing c).

Definition setPublishing (b : bool) (c : Camera) : Camera :=
  mkCamera (DeviceUID c) (Name c) (Node c) (StreamPath c) (RtspURL c) (Enabled c) b.

(** A [*exec.Cmd]: one handle per call of [exec.CommandContext], numbered in
    the order of creation. *)
Abbreviation Cmd := nat.

(** Where the goroutine that watches a subprocess stands: blocked in
    [cmd.Wait()], asleep for [RestartDelay] (it read [enabled = true] at the
    exit), or returned. *)
Inductive Watcher := Waiting | Sleeping | Finished.

(** A started subprocess and its watcher. *)
Record Proc := mkProc {
  procUID : string;          (* the uid the goroutine was started with *)
  procArgs : list string;    (* the ffmpeg argument vector *)
  alive : bool;              (* the OS process has not terminated *)
  exitErr : bool;            (* cmd.Wait() returns a non-nil error *)
  signalled : bool;          (* Process.Signal(os.Interrupt) was sent *)
  watcher : Watcher;
}.

(** A Go [map[string]bool]: [None] is the nil map, which reads as empty and
    panics on assignment. *)
Abbreviation GoMap := (option (gmap string bool)).

(** What happens, in order: the calls of the supervisor's two operations,
    the effects on the outside, and the lines that the functions embedded
    here give to [logInfo], by the place of the call. *)
Inductive LogKind := LogPipeError | LogStartFailed | LogExited.

Inductive Obs :=
| CallEnsure (uid : string)
| CallStop (uid : string)
| Spawned (uid : string) (c : Cmd)
| Signalled (c : Cmd)
| Saved (path : string) (mapping : GoMap) (ok : bool)
| Logged (k : LogKind) (uid : string).

(** The [Agent] struct together with what is outside of it: the
    subprocesses, the files, and the record of what happened. *)
Record World := mkWorld {
  hostname : string;
  cfg : Config;
  cameras : gmap string Camera;
  publishers : gmap string Cmd;
  state : GoMap;
  procs : gmap nat Proc;
  nextCmd : Cmd;               (* number of Cmd handles created so far *)
  disk : gmap string string;   (* path to file contents; absent = unreadable *)
  nsaves : nat;                (* number of calls of saveState so far *)
  trace : list Obs;            (* oldest first *)
}.

Definition withCameras (f : gmap string Camera → gmap string Camera) (w : World) : World :=
  mkWorld (hostname w) (cfg w) (f (cameras w)) (publishers w) (state w)
          (procs w) (nextCmd w) (disk w) (nsaves w) (trace w).

Definition withPublishers (f : gmap string Cmd → gmap string Cmd) (w : World) : World :=
  mkWorld (hostname w) (cfg w) (cameras w) (f (publishers w)) (state w)
          (procs w) (nextCmd w) (disk w) (nsaves w) (trace w).

Definition withState (s : GoMap) (w : World) : World :=
  mkWorld (hostname w) (cfg w) (cameras w) (publishers w) s
          (procs w) (nextCmd w) (disk w) (nsaves w) (trace w).

Definition withProcs (f : gmap nat Proc → gmap nat Proc) (w : World) : World :=
  mkWorld (hostname w) (cfg w) (cameras w) (publishers w) (state w)
          (f (procs w)) (nextCmd w) (disk w) (nsaves w) (trace w).

Definition withNextCmd (n : Cmd) (w : World) : World :=
  mkWorld (hostname w) (cfg w) (cameras w) (publishers w) (state w)
          (procs w) n (disk w) (nsaves w) (trace w).

Definition withDisk (f : gmap string string → gmap string string) (w : World) : World :=
  mkWorld (hostname w) (cfg w) (cameras w) (publishers w) (state w)
          (procs w) (nextCmd w) (f (disk w)) (nsaves w) (trace w).

Definition withNsaves (n : nat) (w : World) : World :=
  mkWorld (hostname w) (cfg w) (cameras w) (publishers w) (state w)
          (procs w) (nextCmd w) (disk w) n (trace w).

Definition emit (o : Obs) (w : World) : World :=
  mkWorld (hostname w) (cfg w) (cameras w) (publishers w) (state w)
          (procs w) (nextCmd w) (disk w) (nsaves w) (trace w ++ [o]).

(** *** Results of code that can panic *)

Inductive Outcome (A : Type) :=
| Done (a : A)
| Panic (msg : string).
Arguments Done {A} a.
Arguments Panic {A} msg.

Definition bindO {A B} (m : Outcome A) (k : A → Outcome B) : Outcome B :=
  match m with
  | Done a => k a
  | Panic msg => Panic msg
  end.

Notation "x ←! m ; k" := (bindO m (λ x, k))
  (at level 20, m at level 100, k at level 200, only parsing, right associativity).

(** [v, ok := m[k]] *)
Definition mapIndex (m : GoMap) (k : string) : option bool :=
  match m with
  | Some g => g !! k
  | None => None
  end.

(** [m[k] = v] *)
Definition mapAssign (m : GoMap) (k : string) (v : bool) : Outcome GoMap :=
  match m with
  | Some g => Done (Some (<[k:=v]> g))
  | None => Panic "assignment to entry in nil map"
  end.

(** The keys of a Go map; the nil map has none. *)
Definition mapKeys (m : GoMap) : gset string :=
  match m with
  | Some g => dom g
  | None => ∅
  end.

(** *** What the outside decides *)

(** [cmd.StderrPipe()] and [cmd.Start()] of one [Cmd]. *)
Inductive StartResult := PipeError | StartError | Started.

(** [os.MkdirAll] and [os.WriteFile] of one [saveState].  A failed write
    leaves the file as it was ([None]) or with other contents. *)
Inductive WriteResult :=
| MkdirError
| WriteError (residue : option string)
| WriteOk.

(** The collaborators of the core: the operating system, and
    [encoding/json] at the type [map[string]bool].  [jsonUnmarshal] gives
    [None] for an error, [Some None] when it leaves the map nil. *)
Record Env := mkEnv {
  startResult : Cmd → StartResult;
  writeResult : nat → WriteResult;
  jsonMarshalIndent : GoMap → option string;
  jsonUnmarshal : string → option GoMap;
}.

(* ===================================================================== *)
(** ** The operations of main.go *)
(* ===================================================================== *)

Definition setSignalled (p : Proc) : Proc :=
  mkProc (procUID p) (procArgs p) (alive p) (exitErr p) true (watcher p).

Definition setExited (err : bool) (p : Proc) : Proc :=
  mkProc (procUID p) (procArgs p) false err (signalled p) (watcher p).

Definition setWatcher (s : Watcher) (p : Proc) : Proc :=
  mkProc (procUID p) (procArgs p) (alive p) (exitErr p) (signalled p) s.

(** [cam != nil && cam.Enabled] for [cam := a.cameras[uid]] *)
Definition cameraEnabled (uid : string) (w : World) : bool :=
  match cameras w !! uid with
  | Some cam => Enabled cam
  | None => false
  end.

(** HTTP requests to [/api/cameras/toggle], after [json.Decode] of the
    body: [None] is a body that does not decode. *)
Record Request := mkRequest {
  reqMethod : string;
  reqPayload : option (string * bool);   (* payload.DeviceUID, payload.Enabled *)
}.

Inductive Response :=
| RespMethodNotAllowed     (* 405 *)
| RespBadRequest           (* 400, {"error": "invalid payload"} *)
| RespNotFound             (* 404, {"error": "camera not found"} *)
| RespOk.                  (* 200, {"ok": true} *)

(** [sort.Slice(devices, func(i, j) { devices[i].Node < devices[j].Node })].
    Go compares strings bytewise, as [String.leb] does.  [sort.Slice] leaves
    the order of devices with equal nodes open; the merge sort keeps them in
    the order of discovery. *)
Definition nodeLe (d1 d2 : DeviceInfo) : Prop :=
  String.leb (devNode d1) (devNode d2) = true.

Global Instance nodeLe_dec d1 d2 : Decision (nodeLe d1 d2).
Proof. unfold nodeLe. apply _. Defined.

Definition sortDevices (devices : list DeviceInfo) : list DeviceInfo :=
  merge_sort nodeLe devices.

(** [fmt.Sprintf("%s:%s", a.hostname, device.Node)] *)
Definition deviceUIDOf (host : string) (device : DeviceInfo) : string :=
  host +:+ ":" +:+ devNode device.

(** The name of the device at index [idx] of the sorted scan. *)
Definition cameraName (idx : nat) (device : DeviceInfo) : string :=
  if decide (devName device = "") then "Camera " +:+ pretty (idx + 1)%nat
  else devName device.

(** [fmt.Sprintf("%s-%s-%d", hostSlug, slugify(name), idx)] *)
Definition streamPathOf (hostSlug name : string) (idx : nat) : string :=
  hostSlug +:+ "-" +:+ slugify name +:+ "-" +:+ pretty idx.

(** The [&Camera{...}] literal of [refreshCameras] for the device at index
    [idx] of the sorted scan, with [enabled] as resolved from the state. *)
Definition newCamera (hostSlug : string) (idx : nat) (device : DeviceInfo)
    (enabled : bool) (w : World) : Camera :=
  let name := cameraName idx device in
  let streamPath := streamPathOf hostSlug name idx in
  let deviceUID := deviceUIDOf (hostname w) device in
  mkCamera deviceUID name (devNode device) streamPath
    (Str.TrimRightSlash (MediaMtxRtspBase (cfg w)) +:+ "/" +:+ streamPath)
    enabled (bool_decide (is_Some (publishers w !! deviceUID))).

Definition ffmpegArgs (camera : Camera) : list string :=
  [ "-f"; "v4l2"; "-i"; Node camera; "-vf"; "format=yuv420p"; "-c:v"; "libx264";
    "-preset"; "veryfast"; "-tune"; "zerolatency"; "-profile:v"; "baseline";
    "-level:v"; "3.1"; "-pix_fmt"; "yuv420p"; "-f"; "rtsp";
    "-rtsp_transport"; "tcp"; RtspURL camera ].

(** [loadState]: the file system is read through [disk]. *)
Definition loadState (E : Env) (path : string) (d : gmap string string) : GoMap :=
  match d !! path with
  | None => Some ∅                       (* os.ReadFile fails *)
  | Some data =>
      match jsonUnmarshal E data with
      | None => Some ∅                   (* json.Unmarshal fails *)
      | Some st => st                    (* return state *)
      end
  end.

Section Core.

Context (E : Env).

(** [saveState]; the boolean is [err == nil]. *)
Definition saveState (path : string) (st : GoMap) (w : World) : bool * World :=
  let n := nsaves w in
  let w := withNsaves (S n) w in
  match writeResult E n with
  | MkdirError => (false, emit (Saved path st false) w)
  | r =>
      match jsonMarshalIndent E st with
      | None => (false, emit (Saved path st false) w)
      | Some data =>
          match r with
          | WriteOk => (true, emit (Saved path st true) (withDisk (<[path:=data]>) w))
          | WriteError (Some junk) =>
              (false, emit (Saved path st false) (withDisk (<[path:=junk]>) w))
          | _ => (false, emit (Saved path st false) w)
          end
      end
  end.

(** [ensurePublisherLocked].  The camera is passed by pointer in Go and
    its [Publishing] field is set through it; here the camera as it is
    after the call is returned, and the caller puts it where the pointer
    came from. *)
Definition ensurePublisherLocked (camera : Camera) (w : World) : Camera * World :=
  let uid := DeviceUID camera in
  let w := emit (CallEnsure uid) w in
  match publishers w !! uid with
  | Some _ => (camera, w)
  | None =>
      let c := nextCmd w in
      let w := withNextCmd (S c) w in
      match startResult E c with
      | PipeError => (camera, emit (Logged LogPipeError uid) w)
      | StartError => (camera, emit (Logged LogStartFailed uid) w)
      | Started =>
          let p := mkProc uid (ffmpegArgs camera) true false false Waiting in
          let w := emit (Spawned uid c) (withProcs (<[c:=p]>) w) in
          let w := withPublishers (<[uid:=c]>) w in
          (setPublishing true camera, w)
      end
  end.

(** [stopPublisherLocked] *)
Definition stopPublisherLocked (uid : string) (w : World) : World :=
  let w := emit (CallStop uid) w in
  match publishers w !! uid with
  | None => w
  | Some c =>
      let w := emit (Signalled c) (withProcs (alter setSignalled c) w) in
      let w := withPublishers (delete uid) w in
      withCameras (alter (setPublishing false) uid) w
  end.

(** [ensurePublisherLocked(cam)] for [cam := a.cameras[uid]]: the pointer
    is the table's, so the field it sets is the table entry's. *)
Definition ensureInTable (uid : string) (cam : Camera) (w : World) : World :=
  let '(cam', w') := ensurePublisherLocked cam w in
  withCameras (<[uid:=cam']>) w'.

(** The subprocess of [c] terminates; [err] says whether [cmd.Wait()]
    will report an error. *)
Definition procExit (c : Cmd) (err : bool) (w : World) : World :=
  match procs w !! c with
  | Some p => if alive p then withProcs (<[c:=setExited err p]>) w else w
  | None => w
  end.

(** The watching goroutine of [c], from the return of [cmd.Wait()] to the
    first [a.mu.Unlock()], and the log line that follows. *)
Definition watcherExit (c : Cmd) (w : World) : World :=
  match procs w !! c with
  | Some p =>
      match alive p, watcher p with
      | false, Waiting =>
          let uid := procUID p in
          let w := withPublishers (delete uid) w in
          let enabled := cameraEnabled uid w in
          let w := if exitErr p then emit (Logged LogExited uid) w else w in
          withProcs (<[c:=setWatcher (if enabled then Sleeping else Finished) p]>) w
      | _, _ => w
      end
  | None => w
  end.

(** The watching goroutine of [c] after [time.Sleep(a.cfg.RestartDelay)]:
    its second critical section. *)
Definition watcherRestart (c : Cmd) (w : World) : World :=
  match procs w !! c with
  | Some p =>
      match watcher p with
      | Sleeping =>
          let uid := procUID p in
          let w := withProcs (<[c:=setWatcher Finished p]>) w in
          match cameras w !! uid with
          | Some cam => if Enabled cam then ensureInTable uid cam w else w
          | None => w
          end
      | _ => w
      end
  | None => w
  end.

(** [handleToggle] *)
Definition handleToggle (r : Request) (w : World) : Outcome (Response * World) :=
  if negb (String.eqb (reqMethod r) "POST") then Done (RespMethodNotAllowed, w)
  else
    match reqPayload r with
    | None => Done (RespBadRequest, w)
    | Some (uid, enabled) =>
        match cameras w !! uid with
        | None => Done (RespNotFound, w)
        | Some cam =>
            let cam := setEnabled enabled cam in
            let w := withCameras (<[uid:=cam]>) w in
            st ←! mapAssign (state w) uid enabled;
            let w := withState st w in
            let w := if enabled then ensureInTable uid cam w
                     else stopPublisherLocked uid w in
            let w := (saveState (StateFile (cfg w)) (state w) w).2 in
            Done (RespOk, w)
        end
    end.

(** The body of the first loop of [refreshCameras] for the device at index
    [idx] of the sorted scan; [next] is the table being built.  The new
    camera is put into [next] before the supervisor is called, and
    [ensurePublisherLocked] sets [Publishing] through the same pointer. *)
Definition refreshDevice (hostSlug : string) (idx : nat) (device : DeviceInfo)
    (next : gmap string Camera) (w : World) : Outcome (gmap string Camera * World) :=
  let deviceUID := deviceUIDOf (hostname w) device in
  ew ←! match mapIndex (state w) deviceUID with
        | Some enabled => Done (enabled, w)
        | None =>
            st ←! mapAssign (state w) deviceUID true;
            Done (true, withState st w)
        end;
  let enabled := ew.1 in
  let w := ew.2 in
  let camera := newCamera hostSlug idx device enabled w in
  if enabled then
    let '(camera', w') := ensurePublisherLocked camera w in
    Done (<[deviceUID:=camera']> next, w')
  else
    Done (<[deviceUID:=camera]> next, stopPublisherLocked deviceUID w).

(** The first loop of [refreshCameras], from index [idx] on. *)
Fixpoint refreshLoop (hostSlug : string) (idx : nat) (devices : list DeviceInfo)
    (next : gmap string Camera) (w : World) : Outcome (gmap string Camera * World) :=
  match devices with
  | [] => Done (next, w)
  | device :: rest =>
      nw ←! refreshDevice hostSlug idx device next w;
      refreshLoop hostSlug (S idx) rest nw.1 nw.2
  end.

(** The second loop of [refreshCameras] over the keys [uids] of the old
    table.  Go leaves the order of [range a.cameras] open. *)
Definition stopVanished (next : gmap string Camera) (uids : list string) (w : World) : World :=
  foldl (λ w uid, match next !! uid with
                  | None => stopPublisherLocked uid w
                  | Some _ => w
                  end) w uids.

(** [refreshCameras], given what [discoverDevices()] returned. *)
Definition refreshCameras (devices : list DeviceInfo) (w : World) : Outcome World :=
  let devices := sortDevices devices in
  let hostSlug := slugify (hostname w) in
  nw ←! refreshLoop hostSlug 0 devices ∅ w;
  let next := nw.1 in
  let w := stopVanished next (map_to_list (cameras w)).*1 nw.2 in
  let w := withCameras (λ _, next) w in
  Done (saveState (StateFile (cfg w)) (state w) w).2.

(** The agent as [main] builds it, before its first [refreshCameras]. *)
Definition initWorld (host : string) (c : Config) (d : gmap string string) : World :=
  mkWorld host c ∅ ∅ (loadState E (StateFile c) d) ∅ 0 d 0 [].

(** [main] up to the start of the two loops. *)
Definition startAgent (host : string) (c : Config) (d : gmap string string)
    (devices : list DeviceInfo) : Outcome World :=
  refreshCameras devices (initWorld host c d).

(** *** The agent as a transition system *)

Inductive Event :=
| Refresh (devices : list DeviceInfo)   (* a tick of discoveryLoop *)
| Toggle (r : Request)                  (* a request to /api/cameras/toggle *)
| ProcExit (c : Cmd) (err : bool)       (* a subprocess terminates *)
| WatcherExit (c : Cmd)                 (* its goroutine does the bookkeeping *)
| WatcherRestart (c : Cmd).             (* its goroutine wakes up *)

Definition step (e : Event) (w : World) : Outcome World :=
  match e with
  | Refresh devices => refreshCameras devices w
  | Toggle r => rw ←! handleToggle r w; Done rw.2
  | ProcExit c err => Done (procExit c err w)
  | WatcherExit c => Done (watcherExit c w)
  | WatcherRestart c => Done (watcherRestart c w)
  end.

Fixpoint run (es : list Event) (w : World) : Outcome World :=
  match es with
  | [] => Done w
  | e :: es' => w' ←! step e w; run es' w'
  end.

End Core.

(* ===================================================================== *)
(** ** Notions the statements use *)
(* ===================================================================== *)

(** The subprocesses of [uid] that are running. *)
Definition runningFor (uid : string) (w : World) : gmap nat Proc :=
  filter (λ cp, procUID cp.2 = uid ∧ alive cp.2 = true) (procs w).

(** What was added to the trace between [w] and a later [w']. *)
Definition since (w w' : World) : list Obs :=
  drop (length (trace w)) (trace w').

(** The part of the world that is the agent's memory and its subprocesses:
    everything but the files and the trace. *)
Definition memory (w : World) :=
  (hostname w, cfg w, cameras w, publishers w, state w, procs w, nextCmd w, nsaves w).

(** The same collaborators, but with other outcomes of the writes. *)
Definition withWrites (wr : nat → WriteResult) (E : Env) : Env :=
  mkEnv (startResult E) wr (jsonMarshalIndent E) (jsonUnmarshal E).

(** The events of everybody but the goroutine watching [c]. *)
Definition notWatcherOf (c : Cmd) (e : Event) : Prop :=
  match e with
  | WatcherExit c' | WatcherRestart c' => c' ≠ c
  | _ => True
  end.

(** The events that are not an accepted toggle of [uid]. *)
Definition notToggleOf (uid : string) (e : Event) : Prop :=
  match e with
  | Toggle r =>
      match reqPayload r with
      | Some (uid', _) => uid' ≠ uid
      | None => True
      end
  | _ => True
  end.

(** The uids that a scan on [host] gives to the devices [ds]. *)
Definition uidsOf (host : string) (ds : list DeviceInfo) : list string :=
  deviceUIDOf host <$> ds.

(** The state mapping after the first loop of [refreshCameras] over [ds]:
    every uid seen for the first time is entered as [true]. *)
Definition seedAll (host : string) (ds : list DeviceInfo) (m : gmap string bool)
    : gmap string bool :=
  foldl (λ m d, let uid := deviceUIDOf host d in <[uid:=default true (m !! uid)]> m) m ds.

(** Handles are given out in increasing order. *)
Definition procsBelow (w : World) : Prop :=
  ∀ c, is_Some (procs w !! c) → (c < nextCmd w)%nat.

(** A table in which every camera sits under its own [DeviceUID]. *)
Definition keyed (t : gmap string Camera) : Prop :=
  ∀ uid cam, t !! uid = Some cam → DeviceUID cam = uid.

(** What holds of the agent between any two critical sections. *)
Definition Inv (w : World) : Prop :=
  procsBelow w ∧ keyed (cameras w) ∧ dom (cameras w) ⊆ mapKeys (state w).

(** Between [w] and [w'] the subprocess of handle [c] is still the one of
    the same uid, and its watching goroutine stands where it stood. *)
Definition keepsWatcher (c : Cmd) (w w' : World) : Prop :=
  (c < nextCmd w)%nat →
  (c < nextCmd w')%nat ∧
  ∀ p, procs w !! c = Some p →
       ∃ p', procs w' !! c = Some p' ∧ procUID p' = procUID p ∧ watcher p' = watcher p.

(** The lines given to [logInfo] by the embedded functions, in order. *)
Definition logLines (t : list Obs) : list (LogKind * string) :=
  omap (λ o, match o with
             | Logged k uid => Some (k, uid)
             | _ => None
             end) t.

Definition mapO {A B} (f : A → B) (o : Outcome A) : Outcome B :=
  match o with
  | Done a => Done (f a)
  | Panic msg => Panic msg
  end.

(** The requests [handleToggle] accepts in the world [w]. *)
Definition accepted (r : Request) (w : World) : Prop :=
  reqMethod r = "POST" ∧
  ∃ uid b, reqPayload r = Some (uid, b) ∧ is_Some (cameras w !! uid).

(** The events on whose path [saveState] lies. *)
Definition saves (e : Event) (w : World) : Prop :=
  match e with
  | Refresh _ => True
  | Toggle r => accepted r w
  | _ => False
  end.

(** The worlds the agent can be in: [main] builds the first one, and the
    goroutines and the requests move it on. *)
Inductive Reachable (E : Env) : World → Prop :=
| reach_init host c d : Reachable E (initWorld E host c d)
| reach_step e w w' : Reachable E w → step E e w = Done w' → Reachable E w'.

(* ===================================================================== *)
(** ** [encoding/json] at the type [map[string]bool] *)
(* ===================================================================== *)

(** The two [encoding/json] functions of [Env] as the library has them
    for [var state map[string]bool]: [json.MarshalIndent(state, "", "  ")]
    and [json.Unmarshal(data, &state)].

    The encoder writes the members sorted by name.  In a name it escapes
    the quote and the backslash with a backslash, writes backspace, form
    feed, line feed, carriage return and tab as [\b], [\f], [\n], [\r]
    and [\t] (releases before Go 1.22 wrote [\u0008] and [\u000c] for
    the first two, which the decoder reads the same), the other control
    characters and [<], [>], [&] as [\u00XX], the code points U+2028 and
    U+2029 as [\u2028] and [\u2029], every byte that does not start a
    well-formed UTF-8 sequence as [\ufffd], and everything else as it
    is.

    The decoder reads an object whose member values are [true], [false]
    or [null], with every escape of JSON in the names; a byte of a name
    that does not start a well-formed UTF-8 sequence becomes U+FFFD, and
    so does a [\u] escape of a surrogate without its partner.  As in
    Go, [null] at the top leaves the map nil, a [null] member value
    leaves the zero value [false], and a later member overwrites an
    earlier one with the same name.  A document that is not of this form
    is an error. *)
Module Json.

Definition quote : ascii := ascii_of_nat 34.
Definition backslash : ascii := ascii_of_nat 92.
Definition newline : ascii := ascii_of_nat 10.

Definition str (c : ascii) : string := String c EmptyString.

(** *** UTF-8, as [utf8.DecodeRuneInString] reads it *)

Definition cont (c : ascii) : bool :=
  (128 <=? Str.code c)%nat && (Str.code c <=? 191)%nat.

(** The bytes are a well-formed sequence of two, three or four bytes. *)
Definition valid2 (a b : ascii) : bool :=
  (194 <=? Str.code a)%nat && (Str.code a <=? 223)%nat && cont b.

Definition valid3 (a b c : ascii) : bool :=
  ((Str.code a =? 224)%nat && (160 <=? Str.code b)%nat && (Str.code b <=? 191)%nat
   || (225 <=? Str.code a)%nat && (Str.code a <=? 236)%nat && cont b
   || (Str.code a =? 237)%nat && (128 <=? Str.code b)%nat && (Str.code b <=? 159)%nat
   || (238 <=? Str.code a)%nat && (Str.code a <=? 239)%nat && cont b)
  && cont c.

Definition valid4 (a b c d : ascii) : bool :=
  ((Str.code a =? 240)%nat && (144 <=? Str.code b)%nat && (Str.code b <=? 191)%nat
   || (241 <=? Str.code a)%nat && (Str.code a <=? 243)%nat && cont b
   || (Str.code a =? 244)%nat && (128 <=? Str.code b)%nat && (Str.code b <=? 143)%nat)
  && cont c && cont d.


(** U+FFFD, the replacement character, in UTF-8. *)
Definition replacement : string :=
  String (ascii_of_nat 239) (String (ascii_of_nat 191) (String (ascii_of_nat 189) "")).

(** [utf8.EncodeRune] *)
Definition encodeRune (r : N) : string :=
  if (r <? 128)%N then str (ascii_of_N r)
  else if (r <? 2048)%N then
    String (ascii_of_N (192 + r / 64)) (str (ascii_of_N (128 + r mod 64)))
  else if (55296 <=? r)%N && (r <? 57344)%N then replacement
  else if (r <? 65536)%N then
    String (ascii_of_N (224 + r / 4096))
      (String (ascii_of_N (128 + (r / 64) mod 64)) (str (ascii_of_N (128 + r mod 64))))
  else
    String (ascii_of_N (240 + r / 262144))
      (String (ascii_of_N (128 + (r / 4096) mod 64))
         (String (ascii_of_N (128 + (r / 64) mod 64)) (str (ascii_of_N (128 + r mod 64))))).

(** *** The encoder of strings *)

Definition hexDigit (n : nat) : ascii :=
  if (n <? 10)%nat then ascii_of_nat (48 + n) else ascii_of_nat (87 + n).

(** The characters of ASCII that are written as they are. *)
Definition htmlSafe (c : ascii) : bool :=
  (32 <=? Str.code c)%nat && (Str.code c <? 128)%nat
  && negb ((Str.code c =? 34)%nat || (Str.code c =? 92)%nat || (Str.code c =? 60)%nat
           || (Str.code c =? 62)%nat || (Str.code c =? 38)%nat).

Definition escapeAscii (c : ascii) : string :=
  if htmlSafe c then str c
  else if (Str.code c =? 34)%nat || (Str.code c =? 92)%nat then String backslash (str c)
  else if (Str.code c =? 8)%nat then String backslash "b"
  else if (Str.code c =? 12)%nat then String backslash "f"
  else if (Str.code c =? 10)%nat then String backslash "n"
  else if (Str.code c =? 13)%nat then String backslash "r"
  else if (Str.code c =? 9)%nat then String backslash "t"
  else String backslash
         (String "u" (String "0" (String "0"
            (String (hexDigit (Str.code c / 16)) (str (hexDigit (Str.code c mod 16))))))).

(** The bytes are U+2028 or U+2029. *)
Definition isLineSep (a b c : ascii) : bool :=
  (Str.code a =? 226)%nat && (Str.code b =? 128)%nat
  && ((Str.code c =? 168)%nat || (Str.code c =? 169)%nat).

Definition escapeLineSep (c : ascii) : string :=
  String backslash (String "u" (String "2" (String "0" (String "2"
    (str (hexDigit (Str.code c mod 16))))))).

Definition escapeInvalid : string := String backslash "ufffd".

Fixpoint escape (s : string) : string :=
  match s with
  | EmptyString => EmptyString
  | String a r =>
      if (Str.code a <? 128)%nat then escapeAscii a +:+ escape r
      else
        match r with
        | String b r1 =>
            if valid2 a b then String a (String b (escape r1))
            else
              match r1 with
              | String c r2 =>
                  if valid3 a b c then
                    if isLineSep a b c then escapeLineSep c +:+ escape r2
                    else String a (String b (String c (escape r2)))
                  else
                    match r2 with
                    | String d r3 =>
                        if valid4 a b c d
                        then String a (String b (String c (String d (escape r3))))
                        else escapeInvalid +:+ escape r
                    | EmptyString => escapeInvalid +:+ escape r
                    end
              | EmptyString => escapeInvalid +:+ escape r
              end
        | EmptyString => escapeInvalid +:+ escape r
        end
  end.

Definition member (m : gmap string bool) (k : string) : string :=
  "  " +:+ str quote +:+ escape k +:+ str quote +:+ ": "
  +:+ (if default false (m !! k) then "true" else "false").

Fixpoint joinLines (ls : list string) : string :=
  match ls with
  | [] => ""
  | [l] => l
  | l :: ls' => l +:+ "," +:+ str newline +:+ joinLines ls'
  end.

Definition keyLe (a b : string) : Prop := String.leb a b = true.

Global Instance keyLe_dec a b : Decision (keyLe a b).
Proof. unfold keyLe. apply _. Defined.

(** [json.MarshalIndent(state, "", "  ")]: members sorted by name. *)
Definition marshalIndent (st : GoMap) : option string :=
  match st with
  | None => Some "null"
  | Some m =>
      match merge_sort keyLe (map_to_list m).*1 with
      | [] => Some "{}"
      | ks => Some ("{" +:+ str newline +:+ joinLines (member m <$> ks)
                    +:+ str newline +:+ "}")
      end
  end.

Definition isSpace (c : ascii) : bool :=
  let n := nat_of_ascii c in
  (n =? 32)%nat || (n =? 9)%nat || (n =? 10)%nat || (n =? 13)%nat.

Fixpoint skipSpace (s : string) : string :=
  match s with
  | String c r => if isSpace c then skipSpace r else s
  | EmptyString => EmptyString
  end.

(** The rest of [s] after the literal [lit], if [s] starts with it. *)
Fixpoint after (lit s : string) : option string :=
  match lit, s with
  | EmptyString, _ => Some s
  | String a lit', String b s' => if decide (a = b) then after lit' s' else None
  | _, EmptyString => None
  end.

(** *** The decoder of strings *)

Definition hexVal (c : ascii) : option N :=
  let n := N_of_ascii c in
  if (48 <=? n)%N && (n <=? 57)%N then Some (n - 48)%N
  else if (97 <=? n)%N && (n <=? 102)%N then Some (n - 87)%N
  else if (65 <=? n)%N && (n <=? 70)%N then Some (n - 55)%N
  else None.

(** [getu4] behind the [\u]: the number that four hexadecimal digits
    write. *)
Definition hex4 (h1 h2 h3 h4 : ascii) : option N :=
  match hexVal h1, hexVal h2, hexVal h3, hexVal h4 with
  | Some a, Some b, Some c, Some d => Some (a * 4096 + b * 256 + c * 16 + d)%N
  | _, _, _, _ => None
  end.

(** [utf16.IsSurrogate] *)
Definition isSurrogate (r : N) : bool := (55296 <=? r)%N && (r <? 57344)%N.

(** [utf16.DecodeRune]: the code point of a high and a low surrogate. *)
Definition decodePair (r1 r2 : N) : option N :=
  if (55296 <=? r1)%N && (r1 <? 56320)%N && (56320 <=? r2)%N && (r2 <? 57344)%N
  then Some ((r1 - 55296) * 1024 + (r2 - 56320) + 65536)%N
  else None.

(** The character that a backslash and [e] stand for, [\u] apart. *)
Definition simpleEscape (e : ascii) : option ascii :=
  if (Str.code e =? 34)%nat || (Str.code e =? 92)%nat || (Str.code e =? 47)%nat
  then Some e
  else if (Str.code e =? 98)%nat then Some (ascii_of_nat 8)
  else if (Str.code e =? 102)%nat then Some (ascii_of_nat 12)
  else if (Str.code e =? 110)%nat then Some (ascii_of_nat 10)
  else if (Str.code e =? 114)%nat then Some (ascii_of_nat 13)
  else if (Str.code e =? 116)%nat then Some (ascii_of_nat 9)
  else None.

(** The low surrogate that an escape at the start of [s] writes, when [r1]
    is a high surrogate and there is one: the code point of the pair. *)
Definition pairAt (r1 : N) (s : string) : option N :=
  match s with
  | String b (String u (String g1 (String g2 (String g3 (String g4 _))))) =>
      if (Str.code b =? 92)%nat && (Str.code u =? 117)%nat then
        match hex4 g1 g2 g3 g4 with
        | Some r2 => decodePair r1 r2
        | None => None
        end
      else None
  | _ => None
  end.

(** A string literal, read from behind its opening quote: the string it
    stands for, and what follows its closing quote. *)
Fixpoint stringBody (s : string) : option (string * string) :=
  match s with
  | EmptyString => None
  | String a r =>
      if (Str.code a =? 34)%nat then Some (EmptyString, r)
      else if (Str.code a =? 92)%nat then
        match r with
        | String e r' =>
            match simpleEscape e with
            | Some x => '(k, rest) ← stringBody r'; Some (String x k, rest)
            | None =>
                if (Str.code e =? 117)%nat then
                  match r' with
                  | String h1 (String h2 (String h3 (String h4 r4))) =>
                      match hex4 h1 h2 h3 h4 with
                      | Some rr =>
                          if isSurrogate rr then
                            match pairAt rr r4, r4 with
                            | Some dec,
                              String _ (String _ (String _ (String _ (String _ (String _ r10))))) =>
                                '(k, rest) ← stringBody r10;
                                Some (encodeRune dec +:+ k, rest)
                            | _, _ =>
                                '(k, rest) ← stringBody r4;
                                Some (replacement +:+ k, rest)
                            end
                          else
                            '(k, rest) ← stringBody r4;
                            Some (encodeRune rr +:+ k, rest)
                      | None => None
                      end
                  | _ => None
                  end
                else None
            end
        | EmptyString => None
        end
      else if (Str.code a <? 32)%nat then None
      else if (Str.code a <? 128)%nat then
        '(k, rest) ← stringBody r; Some (String a k, rest)
      else
        match r with
        | String b r1 =>
            if valid2 a b then
              '(k, rest) ← stringBody r1; Some (String a (String b k), rest)
            else
              match r1 with
              | String c r2 =>
                  if valid3 a b c then
                    '(k, rest) ← stringBody r2;
                    Some (String a (String b (String c k)), rest)
                  else
                    match r2 with
                    | String d r3 =>
                        if valid4 a b c d then
                          '(k, rest) ← stringBody r3;
                          Some (String a (String b (String c (String d k))), rest)
                        else '(k, rest) ← stringBody r; Some (replacement +:+ k, rest)
                    | EmptyString =>
                        '(k, rest) ← stringBody r; Some (replacement +:+ k, rest)
                    end
              | EmptyString =>
                  '(k, rest) ← stringBody r; Some (replacement +:+ k, rest)
              end
        | EmptyString => None
        end
  end.

(** A member value at the type [bool]. *)
Definition boolValue (s : string) : option (bool * string) :=
  match after "true" s with
  | Some r => Some (true, r)
  | None =>
      match after "false" s with
      | Some r => Some (false, r)
      | None => r ← after "null" s; Some (false, r)
      end
  end.

(** The members of an object, read from the first name on. *)
Fixpoint members (fuel : nat) (acc : gmap string bool) (s : string)
    : option (gmap string bool * string) :=
  match fuel with
  | O => None
  | S fuel' =>
      s1 ← after (str quote) (skipSpace s);
      '(k, s2) ← stringBody s1;
      s3 ← after ":" (skipSpace s2);
      '(v, s4) ← boolValue (skipSpace s3);
      let acc := <[k:=v]> acc in
      match skipSpace s4 with
      | String c r =>
          if decide (c = ","%char) then members fuel' acc r
          else if decide (c = "}"%char) then Some (acc, r)
          else None
      | EmptyString => None
      end
  end.

(** [json.Unmarshal(data, &state)] for [var state map[string]bool]. *)
Definition unmarshal (data : string) : option GoMap :=
  let s := skipSpace data in
  match after "null" s with
  | Some r => if decide (skipSpace r = "") then Some None else None
  | None =>
      s1 ← after "{" s;
      match after "}" (skipSpace s1) with
      | Some r => if decide (skipSpace r = "") then Some (Some ∅) else None
      | None =>
          '(m, r) ← members (String.length s1) ∅ s1;
          if decide (skipSpace r = "") then Some (Some m) else None
      end
  end.

End Json.



(* ===================================================================== *)
(** ** Concrete collaborators and inputs for the examples *)
(* ===================================================================== *)

Module Ex.

(** Every start and every write succeeds. *)
Definition okEnv : Env :=
  mkEnv (λ _, Started) (λ _, WriteOk) Json.marshalIndent Json.unmarshal.

(** No subprocess can be started (say, no ffmpeg on the path). *)
Definition noStartEnv : Env :=
  mkEnv (λ _, StartError) (λ _, WriteOk) Json.marshalIndent Json.unmarshal.

(** The state file cannot be written. *)
Definition noWriteEnv : Env :=
  mkEnv (λ _, Started) (λ _, MkdirError) Json.marshalIndent Json.unmarshal.

Definition config : Config :=
  mkConfig "rtsp://localhost:8554" "ffmpeg" "data/agent_state.json".

Definition video0 : DeviceInfo := mkDevice "" "/dev/video0".
Definition uid0 : string := "cam-1:/dev/video0".

Definition post (uid : string) (enabled : bool) : Request :=
  mkRequest "POST" (Some (uid, enabled)).

(** The camera the first scan builds for [video0], and its subprocess
    once it has terminated with an error. *)
Definition camera0 : Camera :=
  mkCamera uid0 "Camera 1" "/dev/video0" "cam-1-camera-1-0"
    "rtsp://localhost:8554/cam-1-camera-1-0" true false.

Definition proc0 : Proc :=
  mkProc uid0 (ffmpegArgs camera0) false true false Waiting.

(** The agent on host [cam-1] as [main] builds it when there is no state
    file. *)
Definition fresh (E : Env) : World := initWorld E "cam-1" config ∅.

(** The world after [main] has started on host [cam-1] with one camera
    and no state file, or [initWorld] if that start panics. *)
Definition started (E : Env) : World :=
  match startAgent E "cam-1" config ∅ [video0] with
  | Done w => w
  | Panic _ => initWorld E "cam-1" config ∅
  end.

(** The world [n] events later, or the world before them on a panic. *)
Definition after (E : Env) (es : list Event) (w : World) : World :=
  match run E es w with
  | Done w' => w'
  | Panic _ => w
  end.

(** The started agent after its subprocess has terminated with an error,
    and then after a disable that arrives while the goroutine of that
    subprocess sleeps. *)
Definition exited : World := after okEnv [ProcExit 0 true] (started okEnv).

Definition disabledInDelay : World :=
  after okEnv [Toggle (post uid0 false)] (watcherExit 0 exited).

(** The started agent after the camera was disabled, and then after two
    scans that did not find the device. *)
Definition disabled : World := after okEnv [Toggle (post uid0 false)] (started okEnv).

Definition vanished : World := after okEnv [Refresh []; Refresh []] disabled.

(** The fresh agent after one call of ensure for the camera. *)
Definition ensured (E : Env) : Camera * World :=
  ensurePublisherLocked E camera0 (fresh E).

(** Two devices, discovered out of order; the second has no name. *)
Definition usbCam : DeviceInfo := mkDevice "USB Cam" "/dev/video0".
Definition video2 : DeviceInfo := mkDevice "" "/dev/video2".




(** The contents of the state file of [disabled]. *)
Definition disabledFile : string :=
  default "" (Json.marshalIndent (Some {[uid0 := false]})).

End Ex.


(* ===================================================================== *)
(** ** Further notions: slugs, and what the three maps agree on *)
(* ===================================================================== *)

(** The strings of the shape [[a-z0-9]+(-[a-z0-9]+)*], and the empty string:
    what can stand as one part of a stream path. *)
Module Slug.

(** [prevDash]: the character before was a dash, or the string starts. *)
Fixpoint from (prevDash : bool) (s : string) : bool :=
  match s with
  | EmptyString => negb prevDash
  | String c r =>
      if Str.isSlugChar c then from false r
      else Str.isDash c && negb prevDash && from true r
  end.

Definition wellFormed (s : string) : bool :=
  match s with
  | EmptyString => true
  | _ => from true s
  end.

End Slug.

(** Every start of a subprocess succeeds. *)
Definition allStart (E : Env) : Prop := ∀ c, startResult E c = Started.

(** The entry [uid ↦ c] of the live set is backed: [c] is a subprocess that
    was started for [uid], and the table has [uid] as an enabled camera
    that is marked as publishing. *)
Definition backed (w : World) (uid : string) (c : Cmd) : Prop :=
  ∃ p cam, procs w !! c = Some p ∧ procUID p = uid ∧
           cameras w !! uid = Some cam ∧ Enabled cam = true ∧ Publishing cam = true.

(** The enabled flag of every camera of the table is the entry of the state
    mapping. *)
Definition flagsAgree (t : gmap string Camera) (st : GoMap) : Prop :=
  ∀ uid cam, t !! uid = Some cam → mapIndex st uid = Some (Enabled cam).

(** The table, the live set and the state mapping agree. *)
Definition Agree (w : World) : Prop :=
  flagsAgree (cameras w) (state w) ∧
  ∀ uid c, publishers w !! uid = Some c → backed w uid c.

(** The same, but with nothing said of the entry of [uid] in the live set. *)
Definition AgreeExcept (uid : string) (w : World) : Prop :=
  flagsAgree (cameras w) (state w) ∧
  ∀ uid' c, uid' ≠ uid → publishers w !! uid' = Some c → backed w uid' c.

(** What the first loop keeps about the flag: a registered deviceUID is
    enabled in the state mapping, and a camera of the table being built
    that is marked as publishing has an entry in the live set. *)
Definition flagSound (next : gmap string Camera) (w : World) : Prop :=
  (∀ uid c, publishers w !! uid = Some c → mapIndex (state w) uid = Some true) ∧
  (∀ uid cam, next !! uid = Some cam → Publishing cam = true →
              is_Some (publishers w !! uid)).


(** The camera that the first loop of a cycle builds for the device at
    index [idx] when every start succeeds: it is marked as publishing
    exactly when it is enabled.  [m] is the state mapping. *)
Definition settledCamera (hostSlug : string) (idx : nat) (device : DeviceInfo)
    (m : gmap string bool) (w : World) : Camera :=
  let enabled := default true (m !! deviceUIDOf (hostname w) device) in
  setPublishing enabled (newCamera hostSlug idx device enabled w).

(** The table that the loop builds from [next] then. *)
Fixpoint settledTable (hostSlug : string) (idx : nat) (devices : list DeviceInfo)
    (m : gmap string bool) (w : World) (next : gmap string Camera) : gmap string Camera :=
  match devices with
  | [] => next
  | device :: rest =>
      settledTable hostSlug (S idx) rest m w
        (<[deviceUIDOf (hostname w) device := settledCamera hostSlug idx device m w]> next)
  end.

(** The live set has an entry for exactly the devices of [ds] that the
    state mapping [m] has as enabled, and [m] knows them all. *)
Definition settled (ds : list DeviceInfo) (m : gmap string bool) (w : World) : Prop :=
  ∀ d, d ∈ ds →
    ∃ b, m !! deviceUIDOf (hostname w) d = Some b ∧
         (b = true ↔ is_Some (publishers w !! deviceUIDOf (hostname w) d)).

(** Every entry of the live set is a subprocess that was started for that
    deviceUID, was never sent the interrupt, and whose goroutine still
    waits for its exit. *)
Definition supervised (w : World) : Prop :=
  ∀ uid c, publishers w !! uid = Some c →
    ∃ p, procs w !! c = Some p ∧ procUID p = uid ∧
         signalled p = false ∧ watcher p = Waiting.

(** The live set has [uid ↦ c], and the subprocess of [c] stands as [p]. *)
Definition runs (uid : string) (c : Cmd) (p : Proc) (w : World) : Prop :=
  publishers w !! uid = Some c ∧ procs w !! c = Some p.

(* ===================================================================== *)
(** ** Reading text: more of package [strings], and [bufio.Scanner] *)
(* ===================================================================== *)

Module Strings.

(** [unicode.IsSpace] on the UTF-8 bytes of a Go string.  The white space
    of ASCII is tab, line feed, vertical tab, form feed, carriage return
    and space.  Outside ASCII it is U+0085 and U+00A0 (bytes C2 85 and
    C2 A0), U+1680 (E1 9A 80), U+2000 to U+200A (E2 80 80 to E2 80 8A),
    U+2028, U+2029 and U+202F (E2 80 A8, E2 80 A9, E2 80 AF), U+205F
    (E2 81 9F) and U+3000 (E3 80 80). *)
Definition isAsciiSpace (c : ascii) : bool :=
  (9 <=? Str.code c)%nat && (Str.code c <=? 13)%nat || (Str.code c =? 32)%nat.

Definition isSpace2 (a b : nat) : bool :=
  (a =? 194)%nat && ((b =? 133)%nat || (b =? 160)%nat).

Definition isSpace3 (a b c : nat) : bool :=
  (a =? 225)%nat && (b =? 154)%nat && (c =? 128)%nat
  || (a =? 226)%nat && (b =? 128)%nat &&
     ((128 <=? c)%nat && (c <=? 138)%nat
      || (c =? 168)%nat || (c =? 169)%nat || (c =? 175)%nat)
  || (a =? 226)%nat && (b =? 129)%nat && (c =? 159)%nat
  || (a =? 227)%nat && (b =? 128)%nat && (c =? 128)%nat.

(** The string without the white-space runes it starts with.  With [back]
    the string is read as the reversal of a Go string: the bytes of a rune
    come last byte first, as [utf8.DecodeLastRuneInString] meets them. *)
Fixpoint dropSpaces (back : bool) (s : string) : string :=
  match s with
  | String a r =>
      if isAsciiSpace a then dropSpaces back r
      else
        match r with
        | String b r1 =>
            if (if back then isSpace2 (Str.code b) (Str.code a)
                else isSpace2 (Str.code a) (Str.code b))
            then dropSpaces back r1
            else
              match r1 with
              | String c r2 =>
                  if (if back then isSpace3 (Str.code c) (Str.code b) (Str.code a)
                      else isSpace3 (Str.code a) (Str.code b) (Str.code c))
                  then dropSpaces back r2
                  else s
              | EmptyString => s
              end
        | EmptyString => s
        end
  | EmptyString => EmptyString
  end.

(** [strings.TrimSpace]: leading white space goes first, then trailing
    white space. *)
Definition TrimSpace (s : string) : string :=
  String.rev (dropSpaces true (String.rev (dropSpaces false s))).

(** [strings.HasPrefix(s, prefix)] *)
Definition HasPrefix (s prefix : string) : bool := String.prefix prefix s.

(** [strings.TrimSuffix(s, suffix)] *)
Fixpoint TrimSuffix (s suffix : string) : string :=
  match s with
  | String c r => if String.eqb s suffix then "" else String c (TrimSuffix r suffix)
  | EmptyString => ""
  end.

(** [strings.Split(s, sep)] for a separator of one byte. *)
Fixpoint Split (s : string) (sep : ascii) : list string :=
  match s with
  | String c r =>
      if Ascii.eqb c sep then "" :: Split r sep
      else match Split r sep with
           | x :: xs => String c x :: xs
           | [] => [String c ""]
           end
  | EmptyString => [""]
  end.

(** [strings.SplitN(s, sep, 2)] for a separator of one byte: the string
    itself when it has no separator, and else what is before and what is
    after the first one. *)
Fixpoint SplitN2 (s : string) (sep : ascii) : list string :=
  match s with
  | String c r =>
      if Ascii.eqb c sep then [""; r]
      else match SplitN2 r sep with
           | x :: xs => String c x :: xs
           | [] => [String c ""]
           end
  | EmptyString => [""]
  end.

(** [strings.Join(elems, sep)] *)
Fixpoint Join (elems : list string) (sep : string) : string :=
  match elems with
  | [] => ""
  | [e] => e
  | e :: rest => e +:+ sep +:+ Join rest sep
  end.

Fixpoint TrimLeft (s : string) (cutset : list ascii) : string :=
  match s with
  | String c r => if bool_decide (c ∈ cutset) then TrimLeft r cutset else s
  | EmptyString => ""
  end.

Fixpoint TrimRight (s : string) (cutset : list ascii) : string :=
  match s with
  | String c r =>
      match TrimRight r cutset with
      | EmptyString => if bool_decide (c ∈ cutset) then "" else String c ""
      | r' => String c r'
      end
  | EmptyString => ""
  end.

(** [strings.Trim(s, cutset)] for a cutset of ASCII characters. *)
Definition Trim (s : string) (cutset : list ascii) : string :=
  TrimRight (TrimLeft s cutset) cutset.

Fixpoint contains (s : string) (c : ascii) : bool :=
  match s with
  | String c' r => Ascii.eqb c' c || contains r c
  | EmptyString => false
  end.

End Strings.

Module Bufio.

Definition LF : ascii := ascii_of_nat 10.
Definition CR : ascii := ascii_of_nat 13.

(** [bufio.MaxScanTokenSize], the size the buffer of a Scanner grows to. *)
Definition MaxScanTokenSize : N := 65536.

(** [dropCR]: a line without its trailing carriage return. *)
Fixpoint dropCR (data : string) : string :=
  match data with
  | String c r =>
      match r with
      | EmptyString => if Ascii.eqb c CR then "" else data
      | _ => String c (dropCR r)
      end
  | EmptyString => ""
  end.

(** The lines [bufio.ScanLines] cuts the input into: every line feed ends
    a line, and what follows the last one is a line if it is not empty. *)
Fixpoint rawLines (s : string) : list string :=
  match s with
  | String c r =>
      if Ascii.eqb c LF then "" :: rawLines r
      else match rawLines r with
           | x :: xs => String c x :: xs
           | [] => [String c ""]
           end
  | EmptyString => []
  end.

(** A line and its line feed have to fit into the buffer: the Scanner
    stops with [ErrTooLong] at the first line of [MaxScanTokenSize] bytes
    or more, and gives no line from there on. *)
Fixpoint untilTooLong (ls : list string) : list string * bool :=
  match ls with
  | [] => ([], false)
  | l :: rest =>
      if (MaxScanTokenSize <=? N.of_nat (String.length l))%N then ([], true)
      else let '(ls', e) := untilTooLong rest in (l :: ls', e)
  end.

(** What a loop [for scanner.Scan() { ... scanner.Text() ... }] over the
    input sees, and whether [scanner.Err()] is [ErrTooLong] after it. *)
Definition scan (input : string) : list string * bool :=
  let '(ls, e) := untilTooLong (rawLines input) in (dropCR <$> ls, e).

End Bufio.

(** The string has no line feed. *)
Abbreviation noLF s := (Strings.contains s Bufio.LF = false).

(* ===================================================================== *)
(** ** Discovery: [splitBlocks], [parseV4L2Output], [discoverDevices] *)
(* ===================================================================== *)

(** The loop of [splitBlocks] over the lines that are left; [current] are
    the lines of the block being read. *)
Fixpoint splitBlocksLoop (lines : list string) (current : list string) : list string :=
  match lines with
  | [] =>
      match current with
      | [] => []
      | _ => [Strings.Join current (String Bufio.LF "")]
      end
  | line :: rest =>
      if String.eqb (Strings.TrimSpace line) "" then
        match current with
        | [] => splitBlocksLoop rest []
        | _ => Strings.Join current (String Bufio.LF "") :: splitBlocksLoop rest []
        end
      else splitBlocksLoop rest (current ++ [line])
  end.

(** [splitBlocks]; [scanner.Err()] is not looked at. *)
Definition splitBlocks (input : string) : list string :=
  splitBlocksLoop (Bufio.scan input).1 [].

(** The inner loop of [parseV4L2Output] over the lines that are left of a
    block: the name and the node when the loop is left. *)
Fixpoint scanBlock (lines : list string) (name : string) : string * string :=
  match lines with
  | [] => (name, "")
  | line :: rest =>
      let line := Strings.TrimSpace line in
      if String.eqb line "" then scanBlock rest name
      else if String.eqb name "" then scanBlock rest (Strings.TrimSuffix line ":")
      else if Strings.HasPrefix line "/dev/video" then (name, line)
      else scanBlock rest name
  end.

Definition parseBlock (block : string) : list DeviceInfo :=
  let '(name, node) := scanBlock (Strings.Split block Bufio.LF) "" in
  if String.eqb node "" then [] else [mkDevice name node].

(** [parseV4L2Output] *)
Definition parseV4L2Output (output : string) : list DeviceInfo :=
  mbind parseBlock (splitBlocks output).

(** [sort.Strings]: ascending in the bytewise order of Go strings. *)
Definition sortStrings (l : list string) : list string := merge_sort String.le l.

(** [discoverDevices].  The platform [goos], the standard output of
    [v4l2-ctl --list-devices] ([None] when the command fails) and the
    matches of the glob [/dev/video*] are what the machine gives. *)
Definition discoverDevices (goos : string) (v4l2 : option string) (matches : list string)
    : list DeviceInfo :=
  if negb (String.eqb goos "linux") then []
  else
    let fallback :=
      imap (λ idx node, mkDevice ("Camera " +:+ pretty (idx + 1)%nat) node)
           (sortStrings matches) in
    match v4l2 with
    | Some out =>
        match parseV4L2Output out with
        | [] => fallback
        | devices => devices
        end
    | None => fallback
    end.

(* ===================================================================== *)
(** ** Configuration: [parseInt], [getEnv], [getEnvDuration], [loadDotEnv] *)
(* ===================================================================== *)

(** A value of Go's [int64]: the integer modulo 2^64, from -2^63. *)
Definition wrap64 (z : Z) : Z := ((z + 2 ^ 63) `mod` 2 ^ 64 - 2 ^ 63)%Z.

(** The loop of [parseInt] with [n] read so far.  The loop goes through
    the runes of the string; a digit is one byte, and a byte that is not a
    digit starts a rune that is not a digit, so it stops at the first such
    byte. *)
Fixpoint parseIntLoop (n : Z) (value : string) : option Z :=
  match value with
  | String r rest =>
      if Str.isDigit r
      then parseIntLoop (wrap64 (wrap64 (n * 10) + (Z.of_nat (Str.code r) - 48))) rest
      else None
  | EmptyString => Some n
  end.

(** [parseInt]; [None] is the error. *)
Definition parseInt (value : string) : option Z := parseIntLoop 0 value.

(** The environment of the process. *)
Abbreviation Environ := (gmap string string).

(** [os.LookupEnv]: the empty name is never found. *)
Definition LookupEnv (env : Environ) (key : string) : option string :=
  if decide (key = "") then None else env !! key.

(** [os.Setenv]: refused for an empty name, a name with [=] or a NUL byte,
    and a value with a NUL byte. *)
Definition Setenv (env : Environ) (key value : string) : option Environ :=
  if decide (key = "") then None
  else if Strings.contains key "=" || Strings.contains key (ascii_of_nat 0)
          || Strings.contains value (ascii_of_nat 0) then None
  else Some (<[key:=value]> env).

(** [getEnv] *)
Definition getEnv (env : Environ) (key fallback : string) : string :=
  match LookupEnv env key with
  | Some value => if decide (value = "") then fallback else value
  | None => fallback
  end.

(** [getEnvDuration]; a [time.Duration] is an [int64] of nanoseconds, and
    [parseDuration] stands for [time.ParseDuration]. *)
Definition getEnvDuration (parseDuration : string → option Z) (env : Environ)
    (key : string) (fallback : Z) : Z :=
  match LookupEnv env key with
  | Some value =>
      if decide (value = "") then fallback
      else match parseDuration value with
           | Some ms => ms
           | None =>
               match parseInt value with
               | Some n => wrap64 (n * 1000000)
               | None => fallback
               end
           end
  | None => fallback
  end.

(** The body of the loop of [loadDotEnv] for one line of the file. *)
Definition dotEnvLine (env : Environ) (text : string) : Environ :=
  let line := Strings.TrimSpace text in
  if String.eqb line "" || Strings.HasPrefix line "#" then env
  else
    match Strings.SplitN2 line "=" with
    | [k; v] =>
        let key := Strings.TrimSpace k in
        let value := Strings.TrimSpace v in
        let value := Strings.Trim value [ascii_of_nat 34; ascii_of_nat 39] in
        if decide (key = "") then env
        else match LookupEnv env key with
             | Some _ => env
             | None => default env (Setenv env key value)
             end
    | _ => env
    end.

(** [loadDotEnv]: the environment after it, and whether it returns an
    error.  [file] is what [os.ReadFile] gives, [None] when it fails. *)
Definition loadDotEnv (file : option string) (env : Environ) : Environ * bool :=
  match file with
  | None => (env, true)
  | Some data =>
      let '(lines, tooLong) := Bufio.scan data in
      (foldl dotEnvLine env lines, tooLong)
  end.

(* ===================================================================== *)
(** ** Shapes of text that the theorems speak of *)
(* ===================================================================== *)

Module Shape.

(** A printable character of ASCII that is not the space. *)
Definition isGraphic (c : ascii) : bool :=
  (33 <=? Str.code c)%nat && (Str.code c <=? 126)%nat.

Fixpoint lastByte (s : string) : option ascii :=
  match s with
  | String c r => match r with EmptyString => Some c | _ => lastByte r end
  | EmptyString => None
  end.

(** The string is not empty, and starts and ends with a graphic character. *)
Definition graphicEnds (s : string) : bool :=
  match s, lastByte s with
  | String a _, Some z => isGraphic a && isGraphic z
  | _, _ => false
  end.

(** The string has no line feed and no NUL byte. *)
Definition oneLine (s : string) : bool :=
  negb (Strings.contains s Bufio.LF) && negb (Strings.contains s (ascii_of_nat 0)).

(** The line is short enough for a [bufio.Scanner]. *)
Definition scannable (s : string) : bool :=
  (N.of_nat (String.length s) <? Bufio.MaxScanTokenSize)%N.

(** A name of letters, digits and underscores, as a variable of the
    environment has it. *)
Definition isNameChar (c : ascii) : bool :=
  Str.isUpper c || Str.isLower c || Str.isDigit c || (Str.code c =? 95)%nat.

Fixpoint allName (s : string) : bool :=
  match s with
  | String c r => isNameChar c && allName r
  | EmptyString => true
  end.

Definition isName (s : string) : bool := negb (String.eqb s "") && allName s.

Definition TAB : string := String (ascii_of_nat 9) "".
Definition NL : string := String Bufio.LF "".

(** What [v4l2-ctl --list-devices] prints for a device: a line with the
    name and a colon, a line with a tab and the node for every node of
    the device, and an empty line. *)
Definition listedDevice (d : string * list string) : string :=
  d.1 +:+ ":" +:+ NL +:+ foldr (λ node rest, TAB +:+ node +:+ NL +:+ rest) NL d.2.

Definition listing (ds : list (string * list string)) : string :=
  foldr (λ d rest, listedDevice d +:+ rest) "" ds.

(** The lines of a listed device. *)
Definition deviceLines (d : string * list string) : list string :=
  (d.1 +:+ ":") :: ((λ node, TAB +:+ node) <$> d.2).

Definition nodeOk (node : string) : bool :=
  graphicEnds node && oneLine node && scannable (TAB +:+ node).

(** A device that a listing can show and a Scanner can read: the name
    and the nodes are on one line each, start and end with a graphic
    character and fit into the buffer, and the first node is a video
    node. *)
Definition listable (d : string * list string) : bool :=
  graphicEnds d.1 && oneLine d.1 && scannable (d.1 +:+ ":")
  && forallb nodeOk d.2
  && match d.2 with
     | node :: _ => Strings.HasPrefix node "/dev/video"
     | [] => false
     end.

End Shape.

(* ===================================================================== *)
(** ** What each operation leaves alone *)
(* ===================================================================== *)

Open Scope list_scope.

Ltac world_cases :=
  repeat match goal with
         | |- context [match ?x with _ => _ end] => destruct x eqn:?
         end; simpl in *; try done.

Lemma withState_id w m : state w = Some m → withState (Some m) w = w.
Proof. destruct w; simpl; intros ->; done. Qed.

Lemma since_app w w' t : trace w' = trace w ++ t → since w w' = t.
Proof. unfold since. intros ->. by rewrite drop_app_length. Qed.

Section Frames.

Context (E : Env).

Lemma saveState_memory path st w :
  memory (saveState E path st w).2 =
  (hostname w, cfg w, cameras w, publishers w, state w, procs w, nextCmd w, S (nsaves w)).
Proof. unfold saveState, memory. world_cases. Qed.

Lemma saveState_frame path st w :
  let w' := (saveState E path st w).2 in
  hostname w' = hostname w ∧ cfg w' = cfg w ∧ cameras w' = cameras w ∧
  publishers w' = publishers w ∧ state w' = state w ∧ procs w' = procs w ∧
  nextCmd w' = nextCmd w ∧ nsaves w' = S (nsaves w).
Proof. unfold saveState. world_cases. Qed.

Lemma saveState_trace path st w :
  trace (saveState E path st w).2 = trace w ++ [Saved path st (saveState E path st w).1].
Proof. unfold saveState. world_cases. Qed.

Lemma saveState_disk_ok path st w :
  (saveState E path st w).1 = true →
  ∃ data, jsonMarshalIndent E st = Some data ∧
          disk (saveState E path st w).2 = <[path:=data]> (disk w).
Proof. unfold saveState. world_cases. intros _. eauto. Qed.

Lemma saveState_writes wr path st w :
  memory (saveState (withWrites wr E) path st w).2 = memory (saveState E path st w).2.
Proof. unfold saveState, memory. simpl. world_cases. Qed.

Lemma ensure_frame camera w :
  let w' := (ensurePublisherLocked E camera w).2 in
  hostname w' = hostname w ∧ cfg w' = cfg w ∧ cameras w' = cameras w ∧
  state w' = state w ∧ disk w' = disk w ∧ nsaves w' = nsaves w.
Proof. unfold ensurePublisherLocked. simpl. world_cases. Qed.

Lemma ensure_camera camera w :
  let cam' := (ensurePublisherLocked E camera w).1 in
  DeviceUID cam' = DeviceUID camera ∧ Name cam' = Name camera ∧
  Node cam' = Node camera ∧ StreamPath cam' = StreamPath camera ∧
  RtspURL cam' = RtspURL camera ∧ Enabled cam' = Enabled camera.
Proof. unfold ensurePublisherLocked. simpl. world_cases. Qed.

Lemma ensure_registered camera w c :
  publishers w !! DeviceUID camera = Some c →
  ensurePublisherLocked E camera w = (camera, emit (CallEnsure (DeviceUID camera)) w).
Proof. intros H. unfold ensurePublisherLocked. simpl. by rewrite H. Qed.

Lemma ensure_publishers_other camera w uid :
  uid ≠ DeviceUID camera →
  publishers (ensurePublisherLocked E camera w).2 !! uid = publishers w !! uid.
Proof.
  intros Hne. unfold ensurePublisherLocked. simpl. world_cases.
  by rewrite lookup_insert_ne.
Qed.

Lemma ensure_trace camera w :
  ∃ t, trace (ensurePublisherLocked E camera w).2
       = trace w ++ CallEnsure (DeviceUID camera) :: t.
Proof.
  unfold ensurePublisherLocked. simpl. world_cases; rewrite <- ?app_assoc; simpl; eauto.
Qed.

Lemma ensure_nextCmd camera w :
  (nextCmd w ≤ nextCmd (ensurePublisherLocked E camera w).2)%nat.
Proof. unfold ensurePublisherLocked. simpl. world_cases; lia. Qed.

(** A subprocess that exists is not touched by [ensure]: the new one gets
    a fresh handle. *)
Lemma ensure_procs camera w c :
  (c < nextCmd w)%nat →
  procs (ensurePublisherLocked E camera w).2 !! c = procs w !! c.
Proof.
  intros Hc. unfold ensurePublisherLocked. simpl. world_cases.
  rewrite lookup_insert_ne; [done|lia].
Qed.

Lemma ensure_procsBelow camera w :
  procsBelow w → procsBelow (ensurePublisherLocked E camera w).2.
Proof.
  intros Hb c. unfold ensurePublisherLocked. simpl. world_cases; intros Hc.
  1-3: apply Hb in Hc; lia.
  destruct (decide (c = nextCmd w)) as [->|]; [lia|].
  rewrite lookup_insert_ne in Hc by done. apply Hb in Hc. lia.
Qed.

Lemma ensureInTable_frame uid cam w :
  let w' := ensureInTable E uid cam w in
  hostname w' = hostname w ∧ cfg w' = cfg w ∧ state w' = state w ∧
  disk w' = disk w ∧ nsaves w' = nsaves w ∧
  cameras w' = <[uid:=(ensurePublisherLocked E cam w).1]> (cameras w) ∧
  publishers w' = publishers (ensurePublisherLocked E cam w).2 ∧
  procs w' = procs (ensurePublisherLocked E cam w).2 ∧
  nextCmd w' = nextCmd (ensurePublisherLocked E cam w).2 ∧
  trace w' = trace (ensurePublisherLocked E cam w).2.
Proof.
  unfold ensureInTable. pose proof (ensure_frame cam w) as H.
  destruct (ensurePublisherLocked E cam w) as [cam' w']. simpl in *.
  destruct H as (?&?&?&?&?&?). repeat split; simpl; congruence.
Qed.

End Frames.

Lemma stop_frame uid w :
  let w' := stopPublisherLocked uid w in
  hostname w' = hostname w ∧ cfg w' = cfg w ∧ state w' = state w ∧
  disk w' = disk w ∧ nsaves w' = nsaves w ∧ nextCmd w' = nextCmd w ∧
  publishers w' = delete uid (publishers w).
Proof.
  unfold stopPublisherLocked. simpl. world_cases.
  repeat split; try done. symmetry. by apply delete_id.
Qed.

Lemma stop_absent uid w :
  publishers w !! uid = None → stopPublisherLocked uid w = emit (CallStop uid) w.
Proof. intros H. unfold stopPublisherLocked. simpl. by rewrite H. Qed.

Lemma stop_trace uid w :
  trace (stopPublisherLocked uid w)
  = trace w ++ CallStop uid :: match publishers w !! uid with
                               | Some c => [Signalled c]
                               | None => []
                               end.
Proof.
  unfold stopPublisherLocked. simpl. destruct (publishers w !! uid); simpl; [|done].
  by rewrite <- app_assoc.
Qed.

(** [stop] changes nothing of a subprocess but the mark that it was sent the
    interrupt. *)
Lemma stop_procs uid w c :
  procs (stopPublisherLocked uid w) !! c =
  if decide (publishers w !! uid = Some c) then setSignalled <$> procs w !! c
  else procs w !! c.
Proof.
  unfold stopPublisherLocked. simpl. destruct (publishers w !! uid) as [c'|] eqn:H; simpl.
  - rewrite lookup_alter. repeat case_decide; simplify_eq; done.
  - try case_decide; done.
Qed.

Lemma stop_cameras uid w uid' :
  cameras (stopPublisherLocked uid w) !! uid' =
  if decide (uid' = uid ∧ is_Some (publishers w !! uid))
  then setPublishing false <$> cameras w !! uid'
  else cameras w !! uid'.
Proof.
  unfold stopPublisherLocked. simpl. destruct (publishers w !! uid) as [c'|] eqn:H; simpl.
  - rewrite lookup_alter.
    destruct (decide (uid = uid')) as [->|]; case_decide as Hd; try done.
    + destruct Hd. split; eauto.
    + by destruct Hd as [-> _].
  - case_decide as Hd; [|done]. destruct Hd as [_ []]. done.
Qed.

(* ===================================================================== *)
(** ** The reconciliation cycle *)
(* ===================================================================== *)

Lemma seedAll_kept host ds m u b :
  m !! u = Some b → seedAll host ds m !! u = Some b.
Proof.
  revert m. induction ds as [|d ds IH]; intros m Hm; simpl; [done|].
  apply IH. destruct (decide (deviceUIDOf host d = u)) as [->|Hne].
  - by rewrite lookup_insert_eq, Hm.
  - by rewrite lookup_insert_ne.
Qed.

Lemma seedAll_seen host ds m d :
  d ∈ ds →
  seedAll host ds m !! deviceUIDOf host d = Some (default true (m !! deviceUIDOf host d)).
Proof.
  revert m. induction ds as [|d' ds IH]; intros m Hin; simpl.
  - by apply elem_of_nil in Hin.
  - apply elem_of_cons in Hin as [->|Hin].
    + apply seedAll_kept. by rewrite lookup_insert_eq.
    + rewrite IH by done. f_equal.
      destruct (decide (deviceUIDOf host d' = deviceUIDOf host d)) as [->|Hne].
      * rewrite lookup_insert_eq. simpl. done.
      * by rewrite lookup_insert_ne.
Qed.

Lemma seedAll_unseen host ds m u :
  u ∉ uidsOf host ds → seedAll host ds m !! u = m !! u.
Proof.
  revert m. induction ds as [|d ds IH]; intros m Hnin; simpl; [done|].
  unfold uidsOf in *. rewrite fmap_cons in Hnin.
  apply not_elem_of_cons in Hnin as [Hne Hnin].
  rewrite IH by done. by rewrite lookup_insert_ne.
Qed.

Lemma seedAll_dom host ds m : dom m ⊆ dom (seedAll host ds m).
Proof.
  intros u [b Hb]%elem_of_dom. apply elem_of_dom. exists b. by apply seedAll_kept.
Qed.

Section Refresh.

Context (E : Env).

(** One turn of the first loop, when the state is a map. *)
Lemma refreshDevice_spec hs idx d next w m :
  state w = Some m →
  let uid := deviceUIDOf (hostname w) d in
  let en := default true (m !! uid) in
  let ws := withState (Some (<[uid:=en]> m)) w in
  let cam0 := newCamera hs idx d en w in
  refreshDevice E hs idx d next w =
    if en then Done (<[uid:=(ensurePublisherLocked E cam0 ws).1]> next,
                     (ensurePublisherLocked E cam0 ws).2)
    else Done (<[uid:=cam0]> next, stopPublisherLocked uid ws).
Proof.
  intros Hst. simpl. unfold refreshDevice. rewrite Hst. simpl.
  destruct (m !! deviceUIDOf (hostname w) d) as [b|] eqn:Hm; simpl.
  - rewrite (insert_id m) by done. rewrite withState_id by done.
    destruct b; [|done].
    by destruct (ensurePublisherLocked E _ w).
  - unfold newCamera. simpl. by destruct (ensurePublisherLocked E _ _).
Qed.

(** The same turn, told by what comes out of it. *)
Lemma refreshDevice_result hs idx d next w m :
  state w = Some m →
  let uid := deviceUIDOf (hostname w) d in
  let en := default true (m !! uid) in
  ∃ cam w',
    refreshDevice E hs idx d next w = Done (<[uid:=cam]> next, w') ∧
    DeviceUID cam = uid ∧ Name cam = cameraName idx d ∧ Node cam = devNode d ∧
    StreamPath cam = streamPathOf hs (cameraName idx d) idx ∧ Enabled cam = en ∧
    state w' = Some (<[uid:=en]> m) ∧
    hostname w' = hostname w ∧ cfg w' = cfg w ∧ disk w' = disk w ∧
    nsaves w' = nsaves w ∧
    (nextCmd w ≤ nextCmd w')%nat ∧
    (∀ u, u ≠ uid → publishers w' !! u = publishers w !! u) ∧
    (∃ t, trace w' = trace w ++ t) ∧
    (procsBelow w → procsBelow w').
Proof.
  intros Hst uid en. rewrite (refreshDevice_spec _ _ _ _ _ _ Hst). fold uid en.
  set (ws := withState (Some (<[uid:=en]> m)) w).
  set (cam0 := newCamera hs idx d en w).
  destruct en eqn:Hen.
  - pose proof (ensure_frame E cam0 ws) as (?&?&?&?&?&?).
    pose proof (ensure_camera E cam0 ws) as (?&?&?&?&?&?).
    destruct (ensure_trace E cam0 ws) as [t Ht].
    eexists _, _. split; [done|]. repeat split; try done.
    + exact (ensure_nextCmd E cam0 ws).
    + intros u Hu. by rewrite ensure_publishers_other.
    + eauto.
    + intros Hb. by apply ensure_procsBelow.
  - pose proof (stop_frame uid ws) as (?&?&?&?&?&?&Hp).
    eexists _, _. split; [done|]. repeat split; try done.
    + simpl in *. lia.
    + intros u Hu. rewrite Hp. by rewrite lookup_delete_ne.
    + rewrite stop_trace. eauto.
    + intros Hb c Hc. rewrite stop_procs in Hc.
      replace (nextCmd (stopPublisherLocked uid ws)) with (nextCmd w) by done.
      apply Hb. case_decide; [|done]. by apply fmap_is_Some in Hc.
Qed.

Lemma deviceUIDOf_inj host d1 d2 :
  deviceUIDOf host d1 = deviceUIDOf host d2 → devNode d1 = devNode d2.
Proof.
  unfold deviceUIDOf. intros H.
  apply (inj (String.app host)) in H. by apply (inj (String.app ":")) in H.
Qed.

(** The first loop as a whole, when the state is a map. *)
Lemma refreshLoop_result hs ds idx next w m :
  state w = Some m →
  ∃ next' w',
    refreshLoop E hs idx ds next w = Done (next', w') ∧
    state w' = Some (seedAll (hostname w) ds m) ∧
    hostname w' = hostname w ∧ cfg w' = cfg w ∧ disk w' = disk w ∧
    nsaves w' = nsaves w ∧
    (nextCmd w ≤ nextCmd w')%nat ∧
    (∀ u, u ∉ uidsOf (hostname w) ds →
       next' !! u = next !! u ∧ publishers w' !! u = publishers w !! u) ∧
    (∃ t, trace w' = trace w ++ t) ∧
    (procsBelow w → procsBelow w') ∧
    (keyed next → keyed next') ∧
    dom next' = dom next ∪ list_to_set (uidsOf (hostname w) ds) ∧
    (∀ d, d ∈ ds →
       ∃ cam, next' !! deviceUIDOf (hostname w) d = Some cam ∧
              Enabled cam = default true (m !! deviceUIDOf (hostname w) d)) ∧
    (∀ i d, ds !! i = Some d →
       (∀ j d', (i < j)%nat → ds !! j = Some d' → devNode d' ≠ devNode d) →
       ∃ cam, next' !! deviceUIDOf (hostname w) d = Some cam ∧
              DeviceUID cam = deviceUIDOf (hostname w) d ∧
              Node cam = devNode d ∧
              Name cam = cameraName (idx + i) d ∧
              StreamPath cam = streamPathOf hs (cameraName (idx + i) d) (idx + i)).
Proof.
  revert idx next w m. induction ds as [|d ds IH]; intros idx next w m Hst.
  - exists next, w. simpl.
    split; [done|]. do 7 (split; [done|]).
    split; [by exists []; rewrite app_nil_r|]. do 2 (split; [done|]).
    split; [set_solver|]. split.
    + intros d Hd. by apply elem_of_nil in Hd.
    + intros i d Hi. done.
  - destruct (refreshDevice_result hs idx d next w m Hst)
      as (cam & w1 & Hdev & Huid & Hname & Hnode & Hsp & Hen & Hst1 & Hh1 & Hc1
          & Hd1 & Hn1 & Hle1 & Hp1 & [t1 Ht1] & Hb1).
    set (uid := deviceUIDOf (hostname w) d) in *.
    set (en := default true (m !! uid)) in *.
    destruct (IH (S idx) (<[uid:=cam]> next) w1 _ Hst1)
      as (next' & w' & Hloop & Hst' & Hh' & Hc' & Hd' & Hn' & Hle' & Hout & [t' Ht']
          & Hb' & Hk' & Hdom & Hen' & Hnm').
    rewrite Hh1 in *.
    exists next', w'. split.
    { simpl. rewrite Hdev. simpl. exact Hloop. }
    split; [done|]. split; [congruence|]. split; [congruence|].
    split; [congruence|]. split; [congruence|]. split; [lia|].
    split.
    { intros u Hu. unfold uidsOf in Hu. rewrite fmap_cons in Hu.
      apply not_elem_of_cons in Hu as [Hne Hu].
      destruct (Hout u Hu) as [-> ->]. split.
      - by rewrite lookup_insert_ne.
      - by apply Hp1. }
    split.
    { exists (t1 ++ t'). by rewrite Ht', Ht1, app_assoc. }
    split; [by auto|].
    split.
    { intros Hk. apply Hk'. intros u c Hu.
      destruct (decide (uid = u)) as [<-|Hne].
      - rewrite lookup_insert_eq in Hu. by injection Hu as <-.
      - rewrite lookup_insert_ne in Hu by done. by apply Hk. }
    split.
    { rewrite Hdom, dom_insert_L. unfold uidsOf. rewrite fmap_cons. simpl.
      fold uid. set_solver. }
    split.
    { intros d0 Hd0. apply elem_of_cons in Hd0 as [->|Hd0].
      - fold uid. destruct (decide (uid ∈ uidsOf (hostname w) ds)) as [Hin|Hnin].
        + unfold uidsOf in Hin. apply list_elem_of_fmap in Hin as (d2 & Heq & Hd2).
          destruct (Hen' d2 Hd2) as (cam2 & Hl2 & He2).
          rewrite <- Heq in Hl2, He2. exists cam2. split; [done|].
          rewrite He2. by rewrite lookup_insert_eq.
        + destruct (Hout uid Hnin) as [Hl _]. rewrite lookup_insert_eq in Hl.
          exists cam. by split.
      - destruct (Hen' d0 Hd0) as (cam0 & Hl0 & He0). exists cam0. split; [done|].
        rewrite He0. destruct (decide (uid = deviceUIDOf (hostname w) d0)) as [Heq|Hne].
        + rewrite <- Heq. rewrite lookup_insert_eq. simpl. done.
        + by rewrite lookup_insert_ne. }
    intros i d0 Hi Hlast. destruct i as [|i]; simpl in Hi.
    + injection Hi as <-. fold uid.
      assert (uid ∉ uidsOf (hostname w) ds) as Hnin.
      { unfold uidsOf. intros (d2 & Heq & Hd2)%list_elem_of_fmap.
        apply list_elem_of_lookup in Hd2 as [j Hj].
        apply (Hlast (S j) d2); [lia|done|].
        symmetry. by eapply deviceUIDOf_inj. }
      destruct (Hout uid Hnin) as [Hl _]. rewrite lookup_insert_eq in Hl.
      exists cam. rewrite Nat.add_0_r. by repeat split.
    + destruct (Hnm' i d0 Hi) as (cam0 & ?&?&?&?&?).
      { intros j d2 Hj Hd2. apply (Hlast (S j) d2); [lia|done]. }
      exists cam0. replace (idx + S i)%nat with (S idx + i)%nat by lia.
      by repeat split.
Qed.

End Refresh.

Lemma stopVanished_cons next u us w :
  stopVanished next (u :: us) w =
  stopVanished next us (match next !! u with
                        | None => stopPublisherLocked u w
                        | Some _ => w
                        end).
Proof. done. Qed.

Lemma stopVanished_frame next us w :
  let w' := stopVanished next us w in
  hostname w' = hostname w ∧ cfg w' = cfg w ∧ state w' = state w ∧
  disk w' = disk w ∧ nsaves w' = nsaves w ∧ nextCmd w' = nextCmd w ∧
  (∃ t, trace w' = trace w ++ t) ∧
  (procsBelow w → procsBelow w') ∧
  (∀ u, publishers w' !! u =
        if decide (u ∈ us ∧ next !! u = None) then None else publishers w !! u).
Proof.
  revert w. induction us as [|u0 us IH]; intros w.
  - change (stopVanished next [] w) with w. cbv zeta.
    do 6 (split; [done|]). split; [by exists []; rewrite app_nil_r|].
    split; [done|]. intros u. case_decide as H; [|done].
    destruct H as [H _]. by apply elem_of_nil in H.
  - rewrite stopVanished_cons. cbv zeta.
    set (w1 := match next !! u0 with None => stopPublisherLocked u0 w | Some _ => w end).
    destruct (IH w1) as (Hh & Hc & Hs & Hd & Hn & Hx & [t Ht] & Hb & Hp).
    assert (hostname w1 = hostname w ∧ cfg w1 = cfg w ∧ state w1 = state w ∧
            disk w1 = disk w ∧ nsaves w1 = nsaves w ∧ nextCmd w1 = nextCmd w ∧
            (∃ t, trace w1 = trace w ++ t) ∧ (procsBelow w → procsBelow w1) ∧
            (∀ u, publishers w1 !! u =
                  if decide (u = u0 ∧ next !! u = None) then None else publishers w !! u))
      as (Hh1 & Hc1 & Hs1 & Hd1 & Hn1 & Hx1 & [t1 Ht1] & Hb1 & Hp1).
    { subst w1. destruct (next !! u0) eqn:Hnx.
      - do 6 (split; [done|]). split; [by exists []; rewrite app_nil_r|].
        split; [done|]. intros u. case_decide as H; [|done].
        destruct H as [-> H]. congruence.
      - destruct (stop_frame u0 w) as (?&?&?&?&?&Hx0&Hp0).
        do 6 (split; [done|]). split; [rewrite stop_trace; eauto|].
        split.
        + intros Hb0 c Hc0. rewrite stop_procs in Hc0. rewrite Hx0. apply Hb0.
          case_decide; [|done]. by apply fmap_is_Some in Hc0.
        + intros u. rewrite Hp0. case_decide as Hcd.
          * destruct Hcd as [-> _]. apply lookup_delete_eq.
          * rewrite lookup_delete_ne; [done|]. intros <-. by apply Hcd. }
    split; [congruence|]. split; [congruence|]. split; [congruence|].
    split; [congruence|]. split; [congruence|]. split; [congruence|].
    split; [exists (t1 ++ t); by rewrite Ht, Ht1, app_assoc|].
    split; [by auto|].
    intros u. rewrite Hp, Hp1.
    repeat case_decide; try done.
    + exfalso. match goal with H : ¬ (u ∈ u0 :: us ∧ _) |- _ => apply H end.
      match goal with H : u ∈ us ∧ _ |- _ => destruct H end.
      split; [by apply elem_of_cons; right|done].
    + exfalso. match goal with H : ¬ (u ∈ u0 :: us ∧ _) |- _ => apply H end.
      match goal with H : u = u0 ∧ _ |- _ => destruct H as [-> ?] end.
      split; [by apply elem_of_cons; left|done].
    + exfalso. match goal with H : u ∈ u0 :: us ∧ _ |- _ => destruct H as [Hin Hn0] end.
      apply elem_of_cons in Hin as [->|Hin]; tauto.
Qed.

Lemma stopVanished_frame_state next us w :
  state (stopVanished next us w) = state w.
Proof. by destruct (stopVanished_frame next us w) as (_&_&->&_). Qed.

(** The second loop calls [stop] for every listed uid that is not in the
    new table, and the signal goes to the publisher the uid had. *)
Lemma stopVanished_calls next us w u :
  u ∈ us → next !! u = None →
  ∃ t1 t2, trace (stopVanished next us w) =
           trace w ++ t1 ++ CallStop u :: match publishers w !! u with
                                          | Some c => [Signalled c]
                                          | None => []
                                          end ++ t2.
Proof.
  revert w. induction us as [|u0 us IH]; intros w Hin Hnx.
  - by apply elem_of_nil in Hin.
  - rewrite stopVanished_cons. destruct (decide (u0 = u)) as [->|Hne].
    + rewrite Hnx.
      destruct (stopVanished_frame next us (stopPublisherLocked u w))
        as (_&_&_&_&_&_&[t Ht]&_).
      exists [], t. rewrite Ht, stop_trace. simpl.
      rewrite <- app_assoc. simpl. by destruct (publishers w !! u).
    + apply elem_of_cons in Hin as [->|Hin]; [done|].
      destruct (next !! u0) eqn:Hn0.
      * by apply IH.
      * destruct (IH (stopPublisherLocked u0 w) Hin Hnx) as (t1 & t2 & Ht).
        destruct (stop_frame u0 w) as (_&_&_&_&_&_&Hp).
        rewrite Hp, lookup_delete_ne in Ht by done.
        rewrite stop_trace in Ht.
        exists ((CallStop u0 :: match publishers w !! u0 with
                               | Some c => [Signalled c]
                               | None => []
                               end) ++ t1), t2.
        rewrite Ht. by rewrite <- !app_assoc.
Qed.

Global Instance nodeLe_total : Total nodeLe.
Proof. intros d1 d2. unfold nodeLe. apply String.leb_total. Qed.

Lemma sortDevices_perm devices : sortDevices devices ≡ₚ devices.
Proof. apply merge_sort_Permutation. Qed.

Lemma sortDevices_sorted devices : Sorted nodeLe (sortDevices devices).
Proof. apply Sorted_merge_sort, _. Qed.

Lemma sortDevices_elem devices d : d ∈ sortDevices devices ↔ d ∈ devices.
Proof. by rewrite sortDevices_perm. Qed.

Lemma sortDevices_uids host devices u :
  u ∈ uidsOf host (sortDevices devices) ↔ u ∈ uidsOf host devices.
Proof. unfold uidsOf. by rewrite sortDevices_perm. Qed.

Section Cycle.

Context (E : Env).

(** A whole cycle, when the state is a map: it returns, and the world it
    returns is told by the two loops. *)
Lemma refreshCameras_result devices w m :
  state w = Some m →
  let ds := sortDevices devices in
  let m' := seedAll (hostname w) ds m in
  ∃ next w1 w2 w',
    refreshLoop E (slugify (hostname w)) 0 ds ∅ w = Done (next, w1) ∧
    w2 = stopVanished next (map_to_list (cameras w)).*1 w1 ∧
    refreshCameras E devices w = Done w' ∧
    cameras w' = next ∧ state w' = Some m' ∧
    hostname w' = hostname w ∧ cfg w' = cfg w ∧
    publishers w' = publishers w2 ∧ procs w' = procs w2 ∧
    nextCmd w' = nextCmd w2 ∧ nsaves w' = S (nsaves w) ∧
    (∃ ok, trace w' = trace w2 ++ [Saved (StateFile (cfg w)) (Some m') ok] ∧
           (ok = true → ∃ data, jsonMarshalIndent E (Some m') = Some data ∧
                                disk w' = <[StateFile (cfg w):=data]> (disk w))) ∧
    (∃ t, trace w1 = trace w ++ t) ∧
    (∀ u, u ∉ uidsOf (hostname w) devices →
       next !! u = None ∧ publishers w1 !! u = publishers w !! u) ∧
    (∀ d, d ∈ devices →
       ∃ cam, next !! deviceUIDOf (hostname w) d = Some cam ∧
              Enabled cam = default true (m !! deviceUIDOf (hostname w) d)) ∧
    (∀ i d, ds !! i = Some d →
       (∀ j d', (i < j)%nat → ds !! j = Some d' → devNode d' ≠ devNode d) →
       ∃ cam, next !! deviceUIDOf (hostname w) d = Some cam ∧
              DeviceUID cam = deviceUIDOf (hostname w) d ∧
              Node cam = devNode d ∧
              Name cam = cameraName i d ∧
              StreamPath cam = streamPathOf (slugify (hostname w)) (cameraName i d) i).
Proof.
  intros Hst ds m'.
  destruct (refreshLoop_result E (slugify (hostname w)) ds 0 ∅ w m Hst)
    as (next & w1 & Hloop & Hst1 & Hh1 & Hc1 & Hd1 & Hn1 & _ & Hout & Htr & _ & _ & _
        & Hen & Hnm).
  set (w2 := stopVanished next (map_to_list (cameras w)).*1 w1).
  destruct (stopVanished_frame next (map_to_list (cameras w)).*1 w1)
    as (Hh2 & Hc2 & Hs2 & Hd2 & Hn2 & _).
  fold w2 in Hh2, Hc2, Hs2, Hd2, Hn2.
  set (w3 := withCameras (λ _, next) w2).
  exists next, w1, w2, (saveState E (StateFile (cfg w3)) (state w3) w3).2.
  split; [done|]. split; [done|].
  split. { unfold refreshCameras. fold ds. rewrite Hloop. done. }
  destruct (saveState_frame E (StateFile (cfg w3)) (state w3) w3)
    as (Hh3 & Hc3 & Hcam3 & Hp3 & Hs3 & Hpr3 & Hn3 & Hns3).
  assert (cfg w3 = cfg w) as Hcw by (simpl; by rewrite Hc2, Hc1).
  assert (state w3 = Some m') as Hsw by (simpl; by rewrite Hs2, Hst1).
  rewrite Hcw, Hsw in *.
  split; [by rewrite Hcam3|]. split; [done|].
  split; [rewrite Hh3; simpl; by rewrite Hh2, Hh1|]. split; [done|].
  split; [by rewrite Hp3|]. split; [by rewrite Hpr3|].
  split; [by rewrite Hn3|]. split; [rewrite Hns3; simpl; by rewrite Hn2, Hn1|].
  split.
  { eexists. split; [exact (saveState_trace E _ _ w3)|].
    intros Hok. apply saveState_disk_ok in Hok as (data & Hm & Hdisk).
    exists data. split; [done|]. rewrite Hdisk. simpl. by rewrite Hd2, Hd1. }
  split; [done|]. split.
  { intros u Hu. rewrite <- sortDevices_uids in Hu. by destruct (Hout u Hu) as [-> ->]. }
  split.
  { intros d Hd. apply Hen. by apply sortDevices_elem. }
  intros i d Hi Hlast. by apply (Hnm i d).
Qed.

End Cycle.

(* ===================================================================== *)
(** ** Invariants of the reachable worlds *)
(* ===================================================================== *)

Lemma Inv_same w w' :
  procs w' = procs w → nextCmd w' = nextCmd w → cameras w' = cameras w →
  state w' = state w → Inv w → Inv w'.
Proof.
  intros Hp Hn Hc Hs (Hb & Hk & Hd). unfold Inv, procsBelow.
  rewrite Hp, Hn, Hc, Hs. done.
Qed.

Lemma keyed_insert t uid cam : keyed t → DeviceUID cam = uid → keyed (<[uid:=cam]> t).
Proof.
  intros Hk Hu u c Hl. destruct (decide (uid = u)) as [<-|Hne].
  - rewrite lookup_insert_eq in Hl. by injection Hl as <-.
  - rewrite lookup_insert_ne in Hl by done. by apply Hk.
Qed.

Lemma Inv_stop uid w : Inv w → Inv (stopPublisherLocked uid w).
Proof.
  intros (Hb & Hk & Hd). destruct (stop_frame uid w) as (_&_&Hs&_&_&Hn&_).
  split; [|split].
  - intros c Hc. rewrite stop_procs in Hc. rewrite Hn. apply Hb.
    case_decide; [|done]. by apply fmap_is_Some in Hc.
  - intros u c Hl. rewrite stop_cameras in Hl. case_decide; [|by apply Hk].
    destruct (cameras w !! u) as [c0|] eqn:Hc0; [|done].
    injection Hl as <-. simpl. by apply Hk.
  - rewrite Hs. intros u [c Hl]%elem_of_dom. apply Hd, elem_of_dom.
    rewrite stop_cameras in Hl. case_decide; [|by eauto].
    destruct (cameras w !! u); [by eauto|done].
Qed.

Lemma Inv_procExit c err w : Inv w → Inv (procExit c err w).
Proof.
  intros (Hb & Hk & Hd). unfold procExit.
  destruct (procs w !! c) as [p|] eqn:Hp; [|done].
  destruct (alive p); [|done].
  split; [|done]. intros c' Hc'. simpl in *. apply Hb.
  destruct (decide (c = c')) as [<-|Hne]; [by eauto|].
  by rewrite lookup_insert_ne in Hc'.
Qed.

Lemma Inv_watcherExit c w : Inv w → Inv (watcherExit c w).
Proof.
  intros (Hb & Hk & Hd). unfold watcherExit.
  destruct (procs w !! c) as [p|] eqn:Hp; [|done].
  destruct (alive p); [done|]. destruct (watcher p); try done.
  split; [|by destruct (exitErr p)].
  intros c' Hc'. 
  assert (is_Some (procs w !! c')) as Hs.
  { destruct (decide (c = c')) as [<-|Hne]; [by eauto|].
    destruct (exitErr p); simpl in Hc'; by rewrite lookup_insert_ne in Hc'. }
  apply Hb in Hs. by destruct (exitErr p).
Qed.

Section Invariants.

Context (E : Env).

Lemma Inv_save path st w : Inv w → Inv (saveState E path st w).2.
Proof.
  destruct (saveState_frame E path st w) as (_&_&Hc&_&Hs&Hp&Hn&_).
  by apply Inv_same.
Qed.

Lemma Inv_ensureInTable uid cam w :
  Inv w → is_Some (cameras w !! uid) → DeviceUID cam = uid →
  Inv (ensureInTable E uid cam w).
Proof.
  intros (Hb & Hk & Hd) Hin Hu.
  destruct (ensureInTable_frame E uid cam w) as (_&_&Hs&_&_&Hc&_&Hp&Hn&_).
  split; [|split].
  - unfold procsBelow. rewrite Hp, Hn. by apply ensure_procsBelow.
  - rewrite Hc. apply keyed_insert; [done|].
    by destruct (ensure_camera E cam w) as [-> _].
  - rewrite Hc, Hs, dom_insert_L. apply elem_of_dom in Hin. set_solver.
Qed.

Lemma Inv_watcherRestart c w : Inv w → Inv (watcherRestart E c w).
Proof.
  intros HI. unfold watcherRestart.
  destruct (procs w !! c) as [p|] eqn:Hp; [|done].
  destruct (watcher p); try done.
  assert (Inv (withProcs <[c:=setWatcher Finished p]> w)) as HI'.
  { destruct HI as (Hb & Hk & Hd). split; [|done].
    intros c' Hc'. simpl in *. apply Hb.
    destruct (decide (c = c')) as [<-|Hne]; [by eauto|].
    by rewrite lookup_insert_ne in Hc'. }
  simpl. destruct (cameras w !! procUID p) as [cam|] eqn:Hc; [|done].
  destruct (Enabled cam); [|done].
  apply Inv_ensureInTable; [done|by simpl; eauto|].
  destruct HI as (_ & Hk & _). by apply Hk.
Qed.

Lemma Inv_handleToggle r w resp w' :
  Inv w → handleToggle E r w = Done (resp, w') → Inv w'.
Proof.
  intros HI. unfold handleToggle.
  destruct (negb _); [by intros [= _ <-]|].
  destruct (reqPayload r) as [[uid b]|]; [|by intros [= _ <-]].
  destruct (cameras w !! uid) as [cam|] eqn:Hc; [|by intros [= _ <-]].
  simpl. destruct (state w) as [m|] eqn:Hm; simpl; [|done].
  intros [= _ <-]. apply Inv_save.
  assert (Inv (withState (Some (<[uid:=b]> m))
                 (withCameras <[uid:=setEnabled b cam]> w))) as HI'.
  { destruct HI as (Hb & Hk & Hd). split; [done|]. split; simpl.
    - apply keyed_insert; [done|]. simpl. by apply Hk.
    - rewrite Hm in Hd. simpl in Hd. rewrite !dom_insert_L. set_solver. }
  destruct b.
  - apply Inv_ensureInTable; [done| |].
    + simpl. rewrite lookup_insert_eq. eauto.
    + simpl. destruct HI as (_ & Hk & _). by apply Hk.
  - by apply Inv_stop.
Qed.

Lemma Inv_stopVanished next us w : Inv w → Inv (stopVanished next us w).
Proof.
  revert w. induction us as [|u us IH]; intros w HI; [done|].
  rewrite stopVanished_cons. apply IH. destruct (next !! u); [done|].
  by apply Inv_stop.
Qed.

(** A cycle on the nil map returns only when nothing was discovered. *)
Lemma refreshCameras_nil devices w w' :
  state w = None → refreshCameras E devices w = Done w' →
  sortDevices devices = [] ∧
  let w3 := withCameras (λ _, ∅) (stopVanished ∅ (map_to_list (cameras w)).*1 w) in
  w' = (saveState E (StateFile (cfg w3)) (state w3) w3).2.
Proof.
  intros Hst. unfold refreshCameras. destruct (sortDevices devices) as [|d ds].
  - simpl. by intros [= <-].
  - simpl. unfold refreshDevice. rewrite Hst. simpl. done.
Qed.

Lemma Inv_refreshCameras devices w w' :
  Inv w → refreshCameras E devices w = Done w' → Inv w'.
Proof.
  intros HI Hr. destruct (state w) as [m|] eqn:Hst.
  - destruct (refreshCameras_result E devices w m Hst)
      as (next & w1 & w2 & w0 & Hloop & Hw2 & Hr' & Hcam & Hst' & _ & _ & _ & Hpr & Hn & _).
    rewrite Hr in Hr'. injection Hr' as <-.
    destruct (refreshLoop_result E (slugify (hostname w)) (sortDevices devices) 0 ∅ w m Hst)
      as (next0 & w10 & Hloop0 & _ & _ & _ & _ & _ & _ & _ & _ & Hb & Hk & Hdom & Hen & _).
    rewrite Hloop in Hloop0. injection Hloop0 as <- <-.
    destruct (stopVanished_frame next (map_to_list (cameras w)).*1 w1)
      as (_&_&_&_&_&_&_&Hb2&_).
    rewrite <- Hw2 in Hb2.
    split; [|split].
    + unfold procsBelow. rewrite Hpr, Hn. apply Hb2, Hb, HI.
    + rewrite Hcam. by apply Hk.
    + rewrite Hcam, Hst', Hdom. simpl. intros u Hu.
      apply elem_of_union in Hu as [Hu|Hu]; [by apply elem_of_empty in Hu|].
      apply elem_of_list_to_set in Hu. unfold uidsOf in Hu.
      apply list_elem_of_fmap in Hu as (d & -> & Hd).
      apply elem_of_dom. rewrite seedAll_seen by done. eauto.
  - destruct (refreshCameras_nil devices w w' Hst Hr) as [_ ->].
    apply Inv_save. destruct (Inv_stopVanished ∅ (map_to_list (cameras w)).*1 w HI)
      as (Hb & _ & _).
    split; [done|]. split; simpl; [done|]. rewrite dom_empty_L. set_solver.
Qed.

Lemma Inv_init host c d : Inv (initWorld E host c d).
Proof.
  split; [|split]; simpl.
  - intros c0 Hc0. simpl in Hc0. rewrite lookup_empty in Hc0. by destruct Hc0.
  - done.
  - rewrite dom_empty_L. set_solver.
Qed.

Lemma Inv_step e w w' : Inv w → step E e w = Done w' → Inv w'.
Proof.
  intros HI. destruct e as [devices|r|c err|c|c]; simpl.
  - by apply Inv_refreshCameras.
  - destruct (handleToggle E r w) as [[resp w0]|] eqn:Ht; simpl; [|done].
    intros [= <-]. by eapply Inv_handleToggle.
  - intros [= <-]. by apply Inv_procExit.
  - intros [= <-]. by apply Inv_watcherExit.
  - intros [= <-]. by apply Inv_watcherRestart.
Qed.

Lemma Reachable_Inv w : Reachable E w → Inv w.
Proof.
  induction 1 as [host c d|e w w' _ IH Hs]; [apply Inv_init|by eapply Inv_step].
Qed.

End Invariants.

(* ===================================================================== *)
(** ** What the other goroutines leave of a watcher *)
(* ===================================================================== *)

Lemma keepsWatcher_refl c w : keepsWatcher c w w.
Proof. intros Hc. split; [done|]. intros p Hp. eauto. Qed.

Lemma keepsWatcher_trans c w1 w2 w3 :
  keepsWatcher c w1 w2 → keepsWatcher c w2 w3 → keepsWatcher c w1 w3.
Proof.
  intros H12 H23 Hc. destruct (H12 Hc) as [Hc2 Hp2]. destruct (H23 Hc2) as [Hc3 Hp3].
  split; [done|]. intros p Hp. destruct (Hp2 p Hp) as (p2 & Hl2 & <- & <-).
  by apply Hp3.
Qed.

Lemma keepsWatcher_same c w w' :
  procs w' = procs w → nextCmd w' = nextCmd w → keepsWatcher c w w'.
Proof. intros Hp Hn Hc. rewrite Hp, Hn. split; [done|]. eauto. Qed.

Lemma keepsWatcher_stop c uid w : keepsWatcher c w (stopPublisherLocked uid w).
Proof.
  intros Hc. destruct (stop_frame uid w) as (_&_&_&_&_&Hn&_). rewrite Hn.
  split; [done|]. intros p Hp. rewrite stop_procs, Hp. case_decide; simpl; eauto.
Qed.

Lemma keepsWatcher_stopVanished c next us w : keepsWatcher c w (stopVanished next us w).
Proof.
  revert w. induction us as [|u us IH]; intros w; [apply keepsWatcher_refl|].
  rewrite stopVanished_cons. eapply keepsWatcher_trans; [|apply IH].
  destruct (next !! u); [apply keepsWatcher_refl|apply keepsWatcher_stop].
Qed.

Lemma keepsWatcher_procExit c c' err w : keepsWatcher c w (procExit c' err w).
Proof.
  unfold procExit. destruct (procs w !! c') as [p'|] eqn:Hp'; [|apply keepsWatcher_refl].
  destruct (alive p'); [|apply keepsWatcher_refl].
  intros Hc. split; [done|]. intros p Hp. simpl.
  destruct (decide (c' = c)) as [->|Hne].
  - rewrite lookup_insert_eq. rewrite Hp in Hp'. injection Hp' as <-. eauto.
  - rewrite lookup_insert_ne by done. eauto.
Qed.

Lemma keepsWatcher_watcherExit c c' w : c' ≠ c → keepsWatcher c w (watcherExit c' w).
Proof.
  intros Hne. unfold watcherExit.
  destruct (procs w !! c') as [p'|] eqn:Hp'; [|apply keepsWatcher_refl].
  destruct (alive p'); [apply keepsWatcher_refl|].
  destruct (watcher p'); try apply keepsWatcher_refl.
  intros Hc. split; [by destruct (exitErr p')|]. intros p Hp.
  exists p. split; [|done]. destruct (exitErr p'); simpl; by rewrite lookup_insert_ne.
Qed.

Section Watchers.

Context (E : Env).

Lemma keepsWatcher_ensure c camera w :
  keepsWatcher c w (ensurePublisherLocked E camera w).2.
Proof.
  intros Hc. pose proof (ensure_nextCmd E camera w). split; [lia|].
  intros p Hp. rewrite ensure_procs by done. eauto.
Qed.

Lemma keepsWatcher_ensureInTable c uid cam w :
  keepsWatcher c w (ensureInTable E uid cam w).
Proof.
  destruct (ensureInTable_frame E uid cam w) as (_&_&_&_&_&_&_&Hp&Hn&_).
  eapply keepsWatcher_trans; [apply (keepsWatcher_ensure c cam w)|].
  by apply keepsWatcher_same.
Qed.

Lemma keepsWatcher_save c path st w : keepsWatcher c w (saveState E path st w).2.
Proof.
  destruct (saveState_frame E path st w) as (_&_&_&_&_&Hp&Hn&_).
  by apply keepsWatcher_same.
Qed.

Lemma keepsWatcher_watcherRestart c c' w :
  c' ≠ c → keepsWatcher c w (watcherRestart E c' w).
Proof.
  intros Hne. unfold watcherRestart.
  destruct (procs w !! c') as [p'|] eqn:Hp'; [|apply keepsWatcher_refl].
  destruct (watcher p'); try apply keepsWatcher_refl.
  set (w1 := withProcs <[c':=setWatcher Finished p']> w).
  assert (keepsWatcher c w w1) as H1.
  { intros Hc. split; [done|]. intros p Hp. exists p. split; [|done].
    simpl. by rewrite lookup_insert_ne. }
  simpl. destruct (cameras w !! procUID p') as [cam|]; [|done].
  destruct (Enabled cam); [|done].
  eapply keepsWatcher_trans; [exact H1|apply keepsWatcher_ensureInTable].
Qed.

Lemma keepsWatcher_handleToggle c r w resp w' :
  handleToggle E r w = Done (resp, w') → keepsWatcher c w w'.
Proof.
  unfold handleToggle.
  destruct (negb _); [intros [= _ <-]; apply keepsWatcher_refl|].
  destruct (reqPayload r) as [[uid b]|]; [|intros [= _ <-]; apply keepsWatcher_refl].
  destruct (cameras w !! uid) as [cam|]; [|intros [= _ <-]; apply keepsWatcher_refl].
  simpl. destruct (state w) as [m|]; simpl; [|done].
  intros [= _ <-].
  set (w1 := withState _ _).
  eapply keepsWatcher_trans; [|apply keepsWatcher_save].
  eapply keepsWatcher_trans; [apply (keepsWatcher_same c w w1); done|].
  destruct b; [apply keepsWatcher_ensureInTable|apply keepsWatcher_stop].
Qed.

Lemma keepsWatcher_refreshDevice c hs idx d next w next' w' :
  refreshDevice E hs idx d next w = Done (next', w') → keepsWatcher c w w'.
Proof.
  destruct (state w) as [m|] eqn:Hst.
  - rewrite (refreshDevice_spec E hs idx d next w m Hst).
    set (ws := withState _ w).
    assert (keepsWatcher c w ws) as H1 by (by apply keepsWatcher_same).
    destruct (default true _); intros [= _ <-].
    + eapply keepsWatcher_trans; [exact H1|apply keepsWatcher_ensure].
    + eapply keepsWatcher_trans; [exact H1|apply keepsWatcher_stop].
  - unfold refreshDevice. rewrite Hst. done.
Qed.

Lemma keepsWatcher_refreshLoop c hs ds idx next w next' w' :
  refreshLoop E hs idx ds next w = Done (next', w') → keepsWatcher c w w'.
Proof.
  revert idx next w. induction ds as [|d ds IH]; intros idx next w; simpl.
  - intros [= _ <-]. apply keepsWatcher_refl.
  - destruct (refreshDevice E hs idx d next w) as [[n1 w1]|] eqn:Hd; simpl; [|done].
    intros Hl. eapply keepsWatcher_trans; [by eapply keepsWatcher_refreshDevice|].
    by eapply IH.
Qed.

Lemma keepsWatcher_refreshCameras c devices w w' :
  refreshCameras E devices w = Done w' → keepsWatcher c w w'.
Proof.
  unfold refreshCameras.
  destruct (refreshLoop E _ 0 _ ∅ w) as [[next w1]|] eqn:Hl; simpl; [|done].
  intros [= <-].
  eapply keepsWatcher_trans; [by eapply keepsWatcher_refreshLoop|].
  eapply keepsWatcher_trans; [apply keepsWatcher_stopVanished|].
  set (w3 := withCameras _ _).
  eapply keepsWatcher_trans; [|apply keepsWatcher_save].
  by apply keepsWatcher_same.
Qed.

Lemma keepsWatcher_step c e w w' :
  notWatcherOf c e → step E e w = Done w' → keepsWatcher c w w'.
Proof.
  destruct e as [devices|r|c' err|c'|c']; simpl; intros Hn.
  - apply keepsWatcher_refreshCameras.
  - destruct (handleToggle E r w) as [[resp w0]|] eqn:Ht; simpl; [|done].
    intros [= <-]. by eapply keepsWatcher_handleToggle.
  - intros [= <-]. apply keepsWatcher_procExit.
  - intros [= <-]. by apply keepsWatcher_watcherExit.
  - intros [= <-]. by apply keepsWatcher_watcherRestart.
Qed.

Lemma keepsWatcher_run c es w w' :
  Forall (notWatcherOf c) es → run E es w = Done w' → keepsWatcher c w w'.
Proof.
  intros Hes. revert w. induction Hes as [|e es He _ IH]; intros w; simpl.
  - intros [= <-]. apply keepsWatcher_refl.
  - destruct (step E e w) as [w1|] eqn:Hs; simpl; [|done].
    intros Hr. eapply keepsWatcher_trans; [by eapply keepsWatcher_step|by apply IH].
Qed.

Lemma Reachable_run es w w' : Reachable E w → run E es w = Done w' → Reachable E w'.
Proof.
  revert w. induction es as [|e es IH]; intros w Hw; simpl.
  - by intros [= <-].
  - destruct (step E e w) as [w1|] eqn:Hs; simpl; [|done].
    apply IH. by eapply reach_step.
Qed.

End Watchers.

(* ===================================================================== *)
(** ** What the operations do to the state mapping *)
(* ===================================================================== *)

Lemma procExit_frame c err w :
  hostname (procExit c err w) = hostname w ∧ cfg (procExit c err w) = cfg w ∧
  state (procExit c err w) = state w ∧ cameras (procExit c err w) = cameras w ∧
  publishers (procExit c err w) = publishers w ∧ trace (procExit c err w) = trace w.
Proof. unfold procExit. world_cases. Qed.

Lemma watcherExit_frame c w :
  hostname (watcherExit c w) = hostname w ∧ cfg (watcherExit c w) = cfg w ∧
  state (watcherExit c w) = state w ∧ cameras (watcherExit c w) = cameras w.
Proof. unfold watcherExit. world_cases. Qed.

Section StateMapping.

Context (E : Env).

Lemma watcherRestart_frame c w :
  hostname (watcherRestart E c w) = hostname w ∧ cfg (watcherRestart E c w) = cfg w ∧
  state (watcherRestart E c w) = state w.
Proof.
  unfold watcherRestart.
  destruct (procs w !! c) as [p|]; [|done]. destruct (watcher p); try done.
  simpl. destruct (cameras w !! procUID p) as [cam|]; [|done].
  destruct (Enabled cam); [|done].
  by destruct (ensureInTable_frame E (procUID p) cam
                 (withProcs <[c:=setWatcher Finished p]> w)) as (->&->&->&_).
Qed.

(** [handleToggle], case by case. *)
Lemma handleToggle_cases r w :
  (reqMethod r ≠ "POST" ∧ handleToggle E r w = Done (RespMethodNotAllowed, w)) ∨
  (reqMethod r = "POST" ∧ reqPayload r = None ∧
   handleToggle E r w = Done (RespBadRequest, w)) ∨
  (∃ uid b, reqMethod r = "POST" ∧ reqPayload r = Some (uid, b) ∧
     ((cameras w !! uid = None ∧ handleToggle E r w = Done (RespNotFound, w)) ∨
      (∃ cam, cameras w !! uid = Some cam ∧
         ((state w = None ∧
           handleToggle E r w = Panic "assignment to entry in nil map") ∨
          (∃ m, state w = Some m ∧
             let w1 := withState (Some (<[uid:=b]> m))
                         (withCameras <[uid:=setEnabled b cam]> w) in
             let w2 := if b then ensureInTable E uid (setEnabled b cam) w1
                       else stopPublisherLocked uid w1 in
             handleToggle E r w =
               Done (RespOk, (saveState E (StateFile (cfg w)) (Some (<[uid:=b]> m)) w2).2)))))).
Proof.
  unfold handleToggle. destruct (String.eqb (reqMethod r) "POST") eqn:Hm; simpl.
  - apply String.eqb_eq in Hm. right.
    destruct (reqPayload r) as [[uid b]|]; [|by left].
    right. exists uid, b. split; [done|]. split; [done|].
    destruct (cameras w !! uid) as [cam|]; [|by left].
    right. exists cam. split; [done|].
    destruct (state w) as [m|]; [|by left].
    right. exists m. split; [done|]. simpl.
    destruct b.
    + destruct (ensureInTable_frame E uid (setEnabled true cam)
                  (withState (Some (<[uid:=true]> m))
                     (withCameras <[uid:=setEnabled true cam]> w)))
        as (_ & -> & -> & _). done.
    + destruct (stop_frame uid (withState (Some (<[uid:=false]> m))
                                  (withCameras <[uid:=setEnabled false cam]> w)))
        as (_ & -> & -> & _). done.
  - apply String.eqb_neq in Hm. by left.
Qed.

Lemma step_frame e w w' :
  step E e w = Done w' → hostname w' = hostname w ∧ cfg w' = cfg w.
Proof.
  destruct e as [devices|r|c err|c|c]; simpl.
  - intros Hr. destruct (state w) as [m|] eqn:Hst.
    + destruct (refreshCameras_result E devices w m Hst)
        as (?&?&?&w0&_&_&Hr'&_&_&Hh&Hc&_).
      rewrite Hr in Hr'. by injection Hr' as <-.
    + destruct (refreshCameras_nil E devices w w' Hst Hr) as [_ ->].
      cbv zeta.
      match goal with |- context [saveState E ?p ?s ?x] =>
        destruct (saveState_frame E p s x) as (-> & -> & _) end.
      simpl. by destruct (stopVanished_frame ∅ (map_to_list (cameras w)).*1 w)
        as (-> & -> & _).
  - destruct (handleToggle_cases r w)
      as [[_ ->]|[(_&_&->)|(uid&b&_&_&[[_ ->]|(cam&_&[[_ ->]|(m&_&->)])])]];
      simpl; try done; try by intros [= <-].
    intros [= <-].
    match goal with |- context [saveState E ?p ?s ?x] =>
      destruct (saveState_frame E p s x) as (-> & -> & _) end.
    destruct b.
    + by destruct (ensureInTable_frame E uid (setEnabled true cam)
                     (withState (Some (<[uid:=true]> m))
                        (withCameras <[uid:=setEnabled true cam]> w)))
        as (-> & -> & _).
    + by destruct (stop_frame uid (withState (Some (<[uid:=false]> m))
                                     (withCameras <[uid:=setEnabled false cam]> w)))
        as (-> & -> & _).
  - intros [= <-]. by destruct (procExit_frame c err w) as (->&->&_).
  - intros [= <-]. by destruct (watcherExit_frame c w) as (->&->&_).
  - intros [= <-]. by destruct (watcherRestart_frame c w) as (->&->&_).
Qed.

(** No step takes a key out of the state mapping, and only an accepted
    toggle of a uid changes the value under it. *)
Lemma step_state e w w' uid b :
  step E e w = Done w' → mapIndex (state w) uid = Some b →
  is_Some (mapIndex (state w') uid) ∧
  (notToggleOf uid e → mapIndex (state w') uid = Some b).
Proof.
  destruct e as [devices|r|c err|c|c]; simpl.
  - intros Hr Hb. destruct (state w) as [m|] eqn:Hst; [|done]. simpl in Hb.
    destruct (refreshCameras_result E devices w m Hst)
      as (?&?&?&w0&_&_&Hr'&_&Hs&_).
    rewrite Hr in Hr'. injection Hr' as <-. rewrite Hs. simpl.
    rewrite (seedAll_kept _ _ _ _ _ Hb). eauto.
  - destruct (handleToggle_cases r w)
      as [[_ ->]|[(_&_&->)|(uid'&b'&_&Hpl&[[_ ->]|(cam&_&[[_ ->]|(m&Hm&->)])])]];
      simpl; try done; try (intros [= <-] ->; by eauto).
    intros [= <-] Hb. rewrite Hm in Hb. simpl in Hb.
    match goal with |- context [saveState E ?p ?s ?x] =>
      destruct (saveState_frame E p s x) as (_&_&_&_& -> &_) end.
    assert (state (if b' then ensureInTable E uid' (setEnabled b' cam)
                                (withState (Some (<[uid':=b']> m))
                                   (withCameras <[uid':=setEnabled b' cam]> w))
                   else stopPublisherLocked uid'
                          (withState (Some (<[uid':=b']> m))
                             (withCameras <[uid':=setEnabled b' cam]> w)))
            = Some (<[uid':=b']> m)) as ->.
    { destruct b'.
      - by destruct (ensureInTable_frame E uid' (setEnabled true cam)
                       (withState (Some (<[uid':=true]> m))
                          (withCameras <[uid':=setEnabled true cam]> w)))
          as (_ & _ & -> & _).
      - by destruct (stop_frame uid' (withState (Some (<[uid':=false]> m))
                                        (withCameras <[uid':=setEnabled false cam]> w)))
          as (_ & _ & -> & _). }
    simpl. rewrite Hpl. destruct (decide (uid' = uid)) as [->|Hne].
    + rewrite lookup_insert_eq. split; [eauto|done].
    + rewrite lookup_insert_ne by done. eauto.
  - intros [= <-] Hb. destruct (procExit_frame c err w) as (_&_&->&_). eauto.
  - intros [= <-] Hb. destruct (watcherExit_frame c w) as (_&_&->&_). eauto.
  - intros [= <-] Hb. destruct (watcherRestart_frame c w) as (_&_&->). eauto.
Qed.

Lemma step_state_keys e w w' :
  step E e w = Done w' → mapKeys (state w) ⊆ mapKeys (state w').
Proof.
  intros Hs uid Hu.
  assert (∃ b, mapIndex (state w) uid = Some b) as [b Hb].
  { destruct (state w) as [m|]; simpl in *; [|by apply elem_of_empty in Hu].
    by apply elem_of_dom in Hu. }
  destruct (step_state e w w' uid b Hs Hb) as [[b' Hb'] _].
  destruct (state w') as [m'|]; simpl in *; [|done].
  apply elem_of_dom. eauto.
Qed.

Lemma run_state es w w' uid b :
  Forall (notToggleOf uid) es → run E es w = Done w' →
  mapIndex (state w) uid = Some b →
  mapIndex (state w') uid = Some b ∧ hostname w' = hostname w ∧ cfg w' = cfg w.
Proof.
  intros Hes. revert w. induction Hes as [|e es He _ IH]; intros w; simpl.
  - by intros [= <-].
  - destruct (step E e w) as [w1|] eqn:Hs; simpl; [|done].
    intros Hr Hb. destruct (step_state e w w1 uid b Hs Hb) as [_ Hk].
    destruct (step_frame e w w1 Hs) as [<- <-]. by apply IH, Hk.
Qed.

End StateMapping.

(* ===================================================================== *)
(** ** The slug *)
(* ===================================================================== *)

Module StrFacts.
Import Str.

Lemma app_nil_l (s : string) : "" +:+ s = s.
Proof. reflexivity. Qed.

Lemma app_cons c (s t : string) : String c s +:+ t = String c (s +:+ t).
Proof. reflexivity. Qed.

Lemma app_nil_r (s : string) : s +:+ "" = s.
Proof. induction s as [|c s IH]; [done|]. by rewrite app_cons, IH. Qed.

Lemma app_assoc (a b c : string) : (a +:+ b) +:+ c = a +:+ (b +:+ c).
Proof. induction a as [|x a IH]; [done|]. by rewrite !app_cons, IH. Qed.

Lemma app_not_nil_r (a b : string) : b ≠ "" → a +:+ b ≠ "".
Proof. destruct a; [done|]. intros _. by rewrite app_cons. Qed.

Lemma slug_not_dash c : isSlugChar c = true → isDash c = false.
Proof.
  unfold isSlugChar, isLower, isDigit, isDash.
  destruct (code c =? 45)%nat eqn:H; [|done].
  apply Nat.eqb_eq in H. rewrite H. done.
Qed.

Lemma trimRight_app a b :
  trimRightDash (a +:+ b) =
  if decide (trimRightDash b = "") then trimRightDash a else a +:+ trimRightDash b.
Proof.
  induction a as [|c a IH].
  - rewrite app_nil_l. by case_decide.
  - rewrite app_cons. simpl. rewrite IH. case_decide as Hb; [done|].
    rewrite app_cons.
    destruct (a +:+ trimRightDash b) eqn:Hab; [|done].
    by apply app_not_nil_r in Hab.
Qed.

Lemma trimRight_allSlug s : allSlug s = true → trimRightDash s = s.
Proof.
  induction s as [|c s IH]; simpl; [done|].
  intros [Hc Hs]%andb_true_iff. rewrite (IH Hs).
  destruct s; [|done]. by rewrite slug_not_dash.
Qed.

Lemma allSlug_snoc s c : allSlug s = true → isSlugChar c = true →
  allSlug (s +:+ String c "") = true.
Proof.
  intros Hs Hc. induction s as [|x s IH].
  - rewrite app_nil_l. simpl. by rewrite Hc.
  - rewrite app_cons. simpl in *.
    apply andb_true_iff in Hs as [Hx Hs]. by rewrite Hx, IH.
Qed.

(** With the flag set, the replacement does not start with a dash. *)
Lemma trimLeft_runs_true t : trimLeftDash (replaceRuns true t) = replaceRuns true t.
Proof.
  induction t as [|c t IH]; simpl; [done|].
  destruct (isSlugChar c) eqn:Hc; [|done]. simpl. by rewrite slug_not_dash.
Qed.

Lemma trimLeft_runs_false t : trimLeftDash (replaceRuns false t) = replaceRuns true t.
Proof.
  destruct t as [|c t]; simpl; [done|].
  destruct (isSlugChar c) eqn:Hc; simpl.
  - by rewrite slug_not_dash.
  - apply trimLeft_runs_true.
Qed.

Lemma fieldsGo_nonempty cur t : Forall (λ w, w ≠ "") (fieldsGo cur t).
Proof.
  revert cur. induction t as [|c t IH]; intros cur; simpl.
  - case_decide; [constructor|]. by repeat constructor.
  - destruct (isSlugChar c); [apply IH|].
    case_decide; [apply IH|]. constructor; [done|apply IH].
Qed.

Lemma joinDash_cons w ws :
  joinDash (w :: ws) = if decide (ws = []) then w else w +:+ "-" +:+ joinDash ws.
Proof. by destruct ws. Qed.

Lemma joinDash_nil_inv ws : Forall (λ w, w ≠ "") ws → joinDash ws = "" → ws = [].
Proof.
  destruct ws as [|w ws]; [done|]. intros Hn%Forall_cons_1. destruct Hn as [Hw _].
  rewrite joinDash_cons. case_decide; [done|].
  destruct w; [done|]. by rewrite app_cons.
Qed.

Lemma runs_words t :
  trimRightDash (replaceRuns true t) = joinDash (fieldsGo "" t) ∧
  ∀ cur, cur ≠ "" → allSlug cur = true →
         trimRightDash (cur +:+ replaceRuns false t) = joinDash (fieldsGo cur t).
Proof.
  induction t as [|c t [IH1 IH2]].
  - split; [done|]. intros cur Hne Hs. simpl.
    rewrite app_nil_r, trimRight_allSlug by done. by case_decide.
  - destruct (isSlugChar c) eqn:Hc.
    + assert (∀ cur, allSlug cur = true →
                trimRightDash (cur +:+ String c (replaceRuns false t))
                = joinDash (fieldsGo (cur +:+ String c "") t)) as Hgo.
      { intros cur Hs.
        replace (cur +:+ String c (replaceRuns false t))
          with ((cur +:+ String c "") +:+ replaceRuns false t)
          by (by rewrite app_assoc).
        apply IH2; [|by apply allSlug_snoc].
        apply app_not_nil_r. done. }
      split.
      * simpl. rewrite Hc. apply (Hgo "" eq_refl).
      * intros cur Hne Hs. simpl. rewrite Hc. by apply Hgo.
    + split.
      * simpl. by rewrite Hc.
      * intros cur Hne Hs. simpl. rewrite Hc.
        case_decide; [done|].
        replace (cur +:+ String "-" (replaceRuns true t))
          with ((cur +:+ "-") +:+ replaceRuns true t)
          by (by rewrite app_assoc).
        rewrite trimRight_app, IH1, joinDash_cons.
        case_decide as Hj.
        -- apply joinDash_nil_inv in Hj; [|apply fieldsGo_nonempty].
           rewrite Hj. destruct (decide (@nil string = [])) as [_|Hn]; [|done].
           rewrite trimRight_app. simpl.
           destruct (decide (@eq string "" "")) as [_|Hn]; [|done].
           by apply trimRight_allSlug.
        -- destruct (decide (fieldsGo "" t = [])) as [Hnil|_].
           ++ by rewrite Hnil in Hj.
           ++ by rewrite app_assoc.
Qed.

End StrFacts.

Lemma slugify_slug_spec value : slugify value = slug_spec value.
Proof.
  unfold slugify, slug_spec, Str.TrimDash, Str.fields.
  rewrite StrFacts.trimLeft_runs_false. apply StrFacts.runs_words.
Qed.

(* ===================================================================== *)
(** ** What [encoding/json] writes, it reads *)
(* ===================================================================== *)

Module JsonFacts.
Import Json.

(** *** One step of the decoder *)

Lemma code_ascii n : (n < 256)%nat → Str.code (ascii_of_nat n) = n.
Proof. apply nat_ascii_embedding. Qed.

Lemma ascii_code a : ascii_of_nat (Str.code a) = a.
Proof. apply ascii_nat_embedding. Qed.

Lemma code_lt a : (Str.code a < 256)%nat.
Proof. apply nat_ascii_bounded. Qed.








(** *** Hexadecimal digits *)





(** *** The escape of a character of ASCII *)




(** *** A whole name *)


(** *** Literals and white space *)










(** *** The members of an object *)









End JsonFacts.

(* ===================================================================== *)
(** ** The publisher supervisor *)
(* ===================================================================== *)

Lemma since_refl w : since w w = [].
Proof. unfold since. by rewrite drop_all. Qed.

Lemma Inv_state_map w uid :
  Inv w → is_Some (cameras w !! uid) → ∃ m, state w = Some m.
Proof.
  intros (_ & _ & Hd) Hin. apply elem_of_dom in Hin. apply Hd in Hin.
  destruct (state w) as [m|]; [by eauto|]. by apply elem_of_empty in Hin.
Qed.

(** C1: for every deviceUID at most one live Publisher exists at any time;
    in particular a camera toggled to disabled and back to enabled never
    has two concurrent ffmpeg subprocesses.  The code does not keep this.
    On host [cam-1] with the one camera [/dev/video0] publishing (handle 0),
    the camera is disabled and enabled again (handle 1 is started) before
    the interrupted subprocess 0 has terminated.  When it does, its
    goroutine deletes the entry of the uid, which by now is that of handle
    1, reads that the camera is enabled and, after the delay, calls ensure,
    which finds no entry and starts handle 2.  Subprocesses 1 and 2 then run
    for the same uid, neither was sent an interrupt, and only handle 2 is in
    the live set. *)
Theorem toggle_race_leaves_two_subprocesses :
  ∃ w0 w,
    startAgent Ex.okEnv "cam-1" Ex.config ∅ [Ex.video0] = Done w0 ∧
    run Ex.okEnv [Toggle (Ex.post Ex.uid0 false); Toggle (Ex.post Ex.uid0 true);
                  ProcExit 0 true; WatcherExit 0; WatcherRestart 0] w0 = Done w ∧
    publishers w !! Ex.uid0 = Some 2 ∧
    dom (runningFor Ex.uid0 w) = {[1; 2]} ∧
    signalled <$> procs w !! 1 = Some false ∧
    signalled <$> procs w !! 2 = Some false.
Proof.
  exists (Ex.started Ex.okEnv),
    (Ex.after Ex.okEnv
       [Toggle (Ex.post Ex.uid0 false); Toggle (Ex.post Ex.uid0 true);
        ProcExit 0 true; WatcherExit 0; WatcherRestart 0] (Ex.started Ex.okEnv)).
  do 5 (split; [vm_compute; reflexivity|]). vm_compute; reflexivity.
Qed.

Section SupervisorClaims.

Context (E : Env).

(** C3, as amended: if after a first ensure there is a live Publisher for
    the deviceUID (there was one already, or the subprocess could be
    started), a second ensure is a no-op: it leaves that Publisher, and
    nothing but the record of the call is added.  If the first ensure
    could not start the subprocess, nothing is registered, and the second
    ensure tries a new start.  Retire is a no-op when there is no live
    Publisher for the deviceUID, so a second retire changes nothing. *)
Theorem ensure_retire_idempotent camera w camera1 w1 :
  ensurePublisherLocked E camera w = (camera1, w1) →
  (∀ c, publishers w1 !! DeviceUID camera = Some c →
     ensurePublisherLocked E camera1 w1
       = (camera1, emit (CallEnsure (DeviceUID camera)) w1)) ∧
  (publishers w1 !! DeviceUID camera = None →
     nextCmd w1 = S (nextCmd w) ∧
     nextCmd (ensurePublisherLocked E camera1 w1).2 = S (nextCmd w1)) ∧
  (∀ uid, publishers w !! uid = None →
     stopPublisherLocked uid w = emit (CallStop uid) w) ∧
  (∀ uid, stopPublisherLocked uid (stopPublisherLocked uid w)
          = emit (CallStop uid) (stopPublisherLocked uid w)).
Proof.
  intros Hens.
  assert (DeviceUID camera1 = DeviceUID camera) as Huid.
  { pose proof (ensure_camera E camera w) as H. rewrite Hens in H. apply H. }
  split; [|split; [|split]].
  - intros c Hc. rewrite <- Huid in *. by eapply ensure_registered.
  - revert Hens. unfold ensurePublisherLocked. simpl. intros Hens H.
    destruct (publishers w !! DeviceUID camera) eqn:Hp.
    + injection Hens as <- <-. simpl in H. congruence.
    + destruct (startResult E (nextCmd w)); injection Hens as <- <-; simpl in *.
      all: try by rewrite lookup_insert_eq in H.
      all: split; [done|]; rewrite Hp; world_cases.
  - intros uid H. by apply stop_absent.
  - intros uid. apply stop_absent.
    destruct (stop_frame uid w) as (_&_&_&_&_&_&->). apply lookup_delete_eq.
Qed.

(** C2, as amended: when a supervised subprocess has exited, its goroutine
    removes the entry of its deviceUID from the live set; and after the
    restart delay the goroutine calls ensure if and only if the camera of
    that deviceUID was present and enabled when the exit was handled and
    is present and enabled when the delay is over, whatever the other
    goroutines and requests did in between.  So a disable during the
    delay prevents the restart, and a goroutine that found the camera
    disabled or gone at the exit does not restart at all. *)
Theorem restart_iff_enabled_at_exit_and_at_restart c p w es w2 :
  Reachable E w →
  procs w !! c = Some p → alive p = false → watcher p = Waiting →
  Forall (notWatcherOf c) es →
  run E es (watcherExit c w) = Done w2 →
  publishers (watcherExit c w) !! procUID p = None ∧
  (CallEnsure (procUID p) ∈ since w2 (watcherRestart E c w2)
   ↔ cameraEnabled (procUID p) w = true ∧ cameraEnabled (procUID p) w2 = true).
Proof.
  intros HR Hp Ha Hw Hes Hrun.
  pose proof (Reachable_Inv E w HR) as (Hb & _ & _).
  assert (c < nextCmd w)%nat as Hc by (apply Hb; eauto).
  set (uid := procUID p) in *.
  set (st := if cameraEnabled uid w then Sleeping else Finished).
  assert (publishers (watcherExit c w) !! uid = None ∧
          (c < nextCmd (watcherExit c w))%nat ∧
          procs (watcherExit c w) !! c = Some (setWatcher st p)) as (Hpub & Hc1 & Hp1).
  { unfold watcherExit. rewrite Hp, Ha, Hw. fold uid.
    change (cameraEnabled uid (withPublishers (delete uid) w))
      with (cameraEnabled uid w). fold st.
    destruct (exitErr p); simpl; rewrite lookup_delete_eq, lookup_insert_eq; done. }
  split; [done|].
  assert (Reachable E w2) as HR2.
  { eapply Reachable_run; [|exact Hrun].
    eapply (reach_step E (WatcherExit c)); [exact HR|done]. }
  pose proof (Reachable_Inv E w2 HR2) as (_ & Hk2 & _).
  destruct (keepsWatcher_run E c es _ _ Hes Hrun Hc1) as [_ Hkeep].
  destruct (Hkeep _ Hp1) as (p2 & Hp2 & Hu2 & Hw2). simpl in Hu2, Hw2.
  unfold watcherRestart. rewrite Hp2, Hw2. unfold st.
  destruct (cameraEnabled uid w) eqn:Hen1.
  - rewrite Hu2. fold uid.
    change (cameras (withProcs <[c:=setWatcher Finished p2]> w2)) with (cameras w2).
    unfold cameraEnabled.
    destruct (cameras w2 !! uid) as [cam|] eqn:Hcam.
    + destruct (Enabled cam) eqn:Hen2.
      * split; [done|]. intros _.
        set (w3 := withProcs <[c:=setWatcher Finished p2]> w2).
        destruct (ensureInTable_frame E uid cam w3) as (_&_&_&_&_&_&_&_&_&Ht).
        destruct (ensure_trace E cam w3) as [t Ht'].
        rewrite (Hk2 _ _ Hcam) in Ht'.
        rewrite (since_app w2 _ (CallEnsure uid :: t)).
        -- apply elem_of_cons. by left.
        -- by rewrite Ht, Ht'.
      * split; [|by intros [_ ?]].
        rewrite (since_app w2 _ []); [|by rewrite app_nil_r].
        intros H. by apply elem_of_nil in H.
    + split; [|by intros [_ ?]].
      rewrite (since_app w2 _ []); [|by rewrite app_nil_r].
      intros H. by apply elem_of_nil in H.
  - rewrite since_refl. split; [|by intros [? _]].
    intros H. by apply elem_of_nil in H.
Qed.

End SupervisorClaims.

Lemma ensure_retire_idempotent_witness :
  publishers (Ex.ensured Ex.okEnv).2 !! Ex.uid0 = Some 0 ∧
  ensurePublisherLocked Ex.okEnv (Ex.ensured Ex.okEnv).1 (Ex.ensured Ex.okEnv).2
  = ((Ex.ensured Ex.okEnv).1, emit (CallEnsure Ex.uid0) (Ex.ensured Ex.okEnv).2) ∧
  stopPublisherLocked Ex.uid0 (Ex.fresh Ex.okEnv)
  = emit (CallStop Ex.uid0) (Ex.fresh Ex.okEnv).
Proof.
  assert (ensurePublisherLocked Ex.okEnv Ex.camera0 (Ex.fresh Ex.okEnv)
          = ((Ex.ensured Ex.okEnv).1, (Ex.ensured Ex.okEnv).2))
    as Hens by (vm_compute; reflexivity).
  assert (publishers (Ex.ensured Ex.okEnv).2 !! Ex.uid0 = Some 0) as Hreg
    by (vm_compute; reflexivity).
  destruct (ensure_retire_idempotent Ex.okEnv Ex.camera0 (Ex.fresh Ex.okEnv)
              (Ex.ensured Ex.okEnv).1 (Ex.ensured Ex.okEnv).2 Hens)
    as (Hsecond & _ & Hstop & _).
  split; [exact Hreg|]. split; [exact (Hsecond 0 Hreg)|].
  apply Hstop. vm_compute; reflexivity.
Defined.

(** Against C3 as it is stated: without a startable ffmpeg, two calls of
    ensure for the same camera leave no live Publisher, not one, and the
    second call is not a no-op: it makes a second attempt and logs it. *)
Lemma ensure_twice_without_ffmpeg :
  publishers (ensurePublisherLocked Ex.noStartEnv (Ex.ensured Ex.noStartEnv).1
                (Ex.ensured Ex.noStartEnv).2).2 !! Ex.uid0 = None ∧
  since (Ex.ensured Ex.noStartEnv).2
        (ensurePublisherLocked Ex.noStartEnv (Ex.ensured Ex.noStartEnv).1
           (Ex.ensured Ex.noStartEnv).2).2
  = [CallEnsure Ex.uid0; Logged LogStartFailed Ex.uid0] ∧
  nextCmd (Ex.ensured Ex.noStartEnv).2 = 1 ∧
  nextCmd (ensurePublisherLocked Ex.noStartEnv (Ex.ensured Ex.noStartEnv).1
             (Ex.ensured Ex.noStartEnv).2).2 = 2.
Proof. repeat (split; [vm_compute; reflexivity|]). vm_compute; reflexivity. Qed.

Lemma restart_iff_enabled_at_exit_and_at_restart_witness :
  publishers (watcherExit 0 Ex.exited) !! Ex.uid0 = None ∧
  (CallEnsure Ex.uid0 ∈ since Ex.disabledInDelay (watcherRestart Ex.okEnv 0 Ex.disabledInDelay)
   ↔ cameraEnabled Ex.uid0 Ex.exited = true ∧
     cameraEnabled Ex.uid0 Ex.disabledInDelay = true).
Proof.
  apply (restart_iff_enabled_at_exit_and_at_restart Ex.okEnv 0 Ex.proc0 Ex.exited
           [Toggle (Ex.post Ex.uid0 false)] Ex.disabledInDelay).
  - apply (reach_step Ex.okEnv (ProcExit 0 true) (Ex.started Ex.okEnv));
      [|vm_compute; reflexivity].
    apply (reach_step Ex.okEnv (Refresh [Ex.video0]) (Ex.fresh Ex.okEnv));
      [apply reach_init|vm_compute; reflexivity].
  - vm_compute; reflexivity.
  - reflexivity.
  - reflexivity.
  - repeat constructor.
  - vm_compute; reflexivity.
Defined.

(** Against C2 as it is stated: the camera is disabled, its subprocess
    exits, and the camera is enabled again before the restart delay would
    be over.  At that time the camera is present and enabled, but the
    goroutine of the exited subprocess calls nothing: it had read the camera
    as disabled at the exit and has returned. *)
Lemma no_restart_though_enabled_at_restart_time :
  ∃ w w2,
    run Ex.okEnv [Toggle (Ex.post Ex.uid0 false); ProcExit 0 true] (Ex.started Ex.okEnv)
      = Done w ∧
    run Ex.okEnv [Toggle (Ex.post Ex.uid0 true)] (watcherExit 0 w) = Done w2 ∧
    cameraEnabled Ex.uid0 w2 = true ∧
    since w2 (watcherRestart Ex.okEnv 0 w2) = [] ∧
    ¬ (CallEnsure Ex.uid0 ∈ since w2 (watcherRestart Ex.okEnv 0 w2)
       ↔ cameraEnabled Ex.uid0 w2 = true).
Proof.
  set (w := Ex.after Ex.okEnv [Toggle (Ex.post Ex.uid0 false); ProcExit 0 true]
              (Ex.started Ex.okEnv)).
  set (w2 := Ex.after Ex.okEnv [Toggle (Ex.post Ex.uid0 true)] (watcherExit 0 w)).
  assert (cameraEnabled Ex.uid0 w2 = true) as Hen by (vm_compute; reflexivity).
  assert (since w2 (watcherRestart Ex.okEnv 0 w2) = []) as Hs by (vm_compute; reflexivity).
  exists w, w2. do 2 (split; [vm_compute; reflexivity|]).
  split; [exact Hen|]. split; [exact Hs|].
  rewrite Hs. intros [_ H]. specialize (H Hen). by apply elem_of_nil in H.
Qed.

(* ===================================================================== *)
(** ** The reconciliation cycle and the toggle *)
(* ===================================================================== *)

Section CycleClaims.

Context (E : Env).

(** C4: in one reconciliation cycle, every deviceUID that is in the
    previous Camera Table but not among the discovered devices is retired
    in that cycle, whatever its enabled flag: stop is called for it, its
    Publisher (if it had one) is sent the interrupt and is no longer in
    the live set, and the call comes after everything the loop over the
    discovered devices did. *)
Theorem vanished_device_is_retired devices w uid :
  Reachable E w →
  is_Some (cameras w !! uid) →
  uid ∉ uidsOf (hostname w) devices →
  ∃ next w1 w' t1 t2,
    refreshLoop E (slugify (hostname w)) 0 (sortDevices devices) ∅ w = Done (next, w1) ∧
    refreshCameras E devices w = Done w' ∧
    publishers w' !! uid = None ∧
    cameras w' !! uid = None ∧
    trace w' = trace w1 ++ t1 ++ CallStop uid :: match publishers w !! uid with
                                                | Some c => [Signalled c]
                                                | None => []
                                                end ++ t2.
Proof.
  intros HR Hin Hout.
  destruct (Inv_state_map w uid (Reachable_Inv E w HR) Hin) as [m Hst].
  destruct (refreshCameras_result E devices w m Hst)
    as (next & w1 & w2 & w' & Hloop & Hw2 & Hr & Hcam & _ & _ & _ & Hpub & _ & _ & _
        & (ok & Htr & _) & _ & Hun & _).
  destruct (Hun uid Hout) as [Hnx Hp1].
  assert (uid ∈ (map_to_list (cameras w)).*1) as Hkey.
  { destruct Hin as [cam Hcam0]. apply list_elem_of_fmap.
    exists (uid, cam). split; [done|]. by apply elem_of_map_to_list. }
  destruct (stopVanished_calls next _ w1 uid Hkey Hnx) as (t1 & t2 & Hcalls).
  rewrite <- Hw2, Hp1 in Hcalls.
  exists next, w1, w', t1, (t2 ++ [Saved (StateFile (cfg w)) (Some (seedAll (hostname w) (sortDevices devices) m)) ok]).
  split; [done|]. split; [done|]. split; [|split].
  - rewrite Hpub, Hw2.
    destruct (stopVanished_frame next (map_to_list (cameras w)).*1 w1)
      as (_&_&_&_&_&_&_&_&Hp2).
    rewrite Hp2. by rewrite decide_True.
  - by rewrite Hcam.
  - rewrite Htr, Hcalls. rewrite <- !app_assoc. simpl. by rewrite <- !app_assoc.
Qed.

(** C5: a toggle request for a deviceUID that is not in the Camera Table
    is answered Not-Found and changes nothing: not the table, not the
    state mapping or its file, not the live set.  For a known deviceUID
    the camera's enabled flag and the entry of the state mapping are set
    to the requested value, ensure is called when enabling and retire when
    disabling, and the mapping is saved. *)
Theorem toggle_unknown_and_known r uid b w :
  reqMethod r = "POST" → reqPayload r = Some (uid, b) →
  (cameras w !! uid = None → handleToggle E r w = Done (RespNotFound, w)) ∧
  (Reachable E w → is_Some (cameras w !! uid) →
     ∃ m w' ok,
       state w = Some m ∧
       handleToggle E r w = Done (RespOk, w') ∧
       Enabled <$> cameras w' !! uid = Some b ∧
       state w' = Some (<[uid:=b]> m) ∧
       since w w' !! 0 = Some (if b then CallEnsure uid else CallStop uid) ∧
       last (since w w') = Some (Saved (StateFile (cfg w)) (Some (<[uid:=b]> m)) ok) ∧
       (ok = true → ∃ data, jsonMarshalIndent E (Some (<[uid:=b]> m)) = Some data ∧
                            disk w' !! StateFile (cfg w) = Some data)).
Proof.
  intros Hmeth Hpl.
  destruct (handleToggle_cases E r w)
    as [[Hn _]|[(_&Hnone&_)|(uid'&b'&_&Hpl'&Hcase)]]; [done|congruence|].
  rewrite Hpl in Hpl'. injection Hpl' as <- <-.
  split.
  { intros Hnone. destruct Hcase as [[_ ->]|(cam&Hcam&_)]; [done|congruence]. }
  intros HR [cam0 Hcam0].
  destruct Hcase as [[Hnone _]|(cam&Hcam&Hcase)]; [congruence|].
  pose proof (Reachable_Inv E w HR) as HI.
  destruct (Inv_state_map w uid HI (ex_intro _ _ Hcam)) as [m Hm].
  destruct Hcase as [[Hnil _]|(m'&Hm'&Hres)]; [congruence|].
  rewrite Hm in Hm'. injection Hm' as <-.
  cbv zeta in Hres.
  set (camb := setEnabled b cam) in *.
  set (w1 := withState (Some (<[uid:=b]> m)) (withCameras <[uid:=camb]> w)) in *.
  set (w2 := if b then ensureInTable E uid camb w1 else stopPublisherLocked uid w1) in *.
  assert (DeviceUID camb = uid) as Hkey
    by (destruct HI as (_ & Hk & _); unfold camb; simpl; by apply Hk).
  assert (Enabled <$> cameras w2 !! uid = Some b ∧ state w2 = Some (<[uid:=b]> m) ∧
          ∃ t, trace w2 = trace w ++ (if b then CallEnsure uid else CallStop uid) :: t)
    as (Hen2 & Hst2 & [t Htr2]).
  { unfold w2. destruct b.
    - destruct (ensureInTable_frame E uid camb w1) as (_&_&->&_&_&->&_&_&_&->).
      destruct (ensure_camera E camb w1) as (_&_&_&_&_&Hen).
      destruct (ensure_trace E camb w1) as [t Ht]. rewrite Hkey in Ht.
      rewrite lookup_insert_eq. simpl. rewrite Hen. split; [done|]. split; [done|].
      by exists t.
    - destruct (stop_frame uid w1) as (_&_&->&_).
      rewrite stop_cameras, stop_trace.
      split; [|split; [done|by eexists]].
      assert (cameras w1 !! uid = Some camb) as -> by apply lookup_insert_eq.
      by case_decide. }
  destruct (saveState_frame E (StateFile (cfg w)) (Some (<[uid:=b]> m)) w2)
    as (_&_&Hc3&_&Hs3&_).
  pose proof (saveState_trace E (StateFile (cfg w)) (Some (<[uid:=b]> m)) w2) as Ht3.
  eexists m, _, _. split; [done|]. split; [exact Hres|].
  split; [by rewrite Hc3|]. split; [by rewrite Hs3|].
  rewrite (since_app w _ ((if b then CallEnsure uid else CallStop uid)
                           :: t ++ [Saved (StateFile (cfg w)) (Some (<[uid:=b]> m))
                                      (saveState E (StateFile (cfg w))
                                         (Some (<[uid:=b]> m)) w2).1])).
  2:{ rewrite Ht3, Htr2. by rewrite <- app_assoc. }
  split; [done|]. split.
  { rewrite app_comm_cons. apply last_snoc. }
  intros Hok. apply saveState_disk_ok in Hok as (data & Hd & Hdisk).
  exists data. split; [done|]. rewrite Hdisk. apply lookup_insert_eq.
Qed.

End CycleClaims.

(* ===================================================================== *)
(** ** The state store *)
(* ===================================================================== *)

Lemma logLines_app t1 t2 : logLines (t1 ++ t2) = logLines t1 ++ logLines t2.
Proof. apply omap_app. Qed.

Lemma saveState_logLines E path st w :
  logLines (trace (saveState E path st w).2) = logLines (trace w).
Proof. rewrite saveState_trace, logLines_app. simpl. apply app_nil_r. Qed.

Section StoreClaims.

Context (E : Env).

Lemma loadState_absent path (d : gmap string string) :
  d !! path = None → loadState E path d = Some ∅.
Proof. unfold loadState. by intros ->. Qed.

Lemma loadState_unparsable path (d : gmap string string) data :
  d !! path = Some data → jsonUnmarshal E data = None → loadState E path d = Some ∅.
Proof. unfold loadState. by intros -> ->. Qed.

(** A state file that decodes to the nil map stops the agent at its first
    scan that finds a device. *)
Lemma nil_state_panics host c (d : gmap string string) data dev devices :
  d !! StateFile c = Some data → jsonUnmarshal E data = Some None →
  loadState E (StateFile c) d = None ∧
  startAgent E host c d (dev :: devices) = Panic "assignment to entry in nil map".
Proof.
  intros Hd Hj.
  assert (loadState E (StateFile c) d = None) as Hl
    by (unfold loadState; by rewrite Hd, Hj).
  split; [done|]. unfold startAgent, refreshCameras.
  destruct (sortDevices (dev :: devices)) as [|d0 ds] eqn:Hs.
  - pose proof (sortDevices_perm (dev :: devices)) as Hp. rewrite Hs in Hp.
    by apply Permutation_nil_cons in Hp.
  - simpl. unfold refreshDevice. simpl. by rewrite Hl.
Qed.


(** C9, as amended: every path that changes the state mapping (a
    reconciliation cycle, an accepted toggle) calls save last, in the same
    critical section, with the mapping as it then is; and whether the
    save succeeds or fails makes no difference to whether the step
    returns, to the memory it leaves (no rollback), or to the lines it
    logs: the failure of a save is discarded without a log line. *)
Theorem save_failure_is_silent_and_keeps_memory wr e w :
  mapO (λ w', (memory w', logLines (trace w'))) (step (withWrites wr E) e w)
  = mapO (λ w', (memory w', logLines (trace w'))) (step E e w) ∧
  (∀ w', step E e w = Done w' → saves e w →
     nsaves w' = S (nsaves w) ∧
     ∃ ok, last (trace w') = Some (Saved (StateFile (cfg w)) (state w') ok)).
Proof.
  split.
  - destruct e as [devices|r|c err|c|c]; simpl; try done.
    + unfold refreshCameras.
      change (refreshLoop (withWrites wr E)) with (refreshLoop E).
      destruct (refreshLoop E _ 0 _ ∅ w) as [[next w1]|]; simpl; [|done].
      by rewrite saveState_writes, !saveState_logLines.
    + unfold handleToggle.
      destruct (negb _); [done|]. destruct (reqPayload r) as [[uid b]|]; [|done].
      destruct (cameras w !! uid) as [cam|]; [|done].
      simpl. destruct (state w) as [m|]; simpl; [|done].
      change (ensureInTable (withWrites wr E)) with (ensureInTable E).
      by rewrite saveState_writes, !saveState_logLines.
  - intros w' Hs Hsv. destruct e as [devices|r|c err|c|c]; simpl in *; try done.
    + pose proof (step_frame E (Refresh devices) w w' Hs) as [_ Hcfg].
      revert Hs Hcfg. unfold refreshCameras.
      destruct (refreshLoop E _ 0 _ ∅ w) as [[next w1]|] eqn:Hl; simpl; [|done].
      set (w3 := withCameras _ _).
      intros [= <-].
      change (cfg (stopVanished next (map_to_list (cameras w)).*1 w1)) with (cfg w3).
      change (state (stopVanished next (map_to_list (cameras w)).*1 w1)) with (state w3).
      destruct (saveState_frame E (StateFile (cfg w3)) (state w3) w3)
        as (_&Hc&_&_&->&_&_&->).
      intros <-. rewrite Hc. split.
      * simpl. destruct (stopVanished_frame next (map_to_list (cameras w)).*1 w1)
          as (_&_&_&_&->&_).
        destruct (state w) as [m|] eqn:Hst.
        -- destruct (refreshLoop_result E (slugify (hostname w)) (sortDevices devices)
                       0 ∅ w m Hst) as (?&?&Hl'&_&_&_&_&Hn&_).
           rewrite Hl in Hl'. injection Hl' as <- <-. by rewrite Hn.
        -- destruct (sortDevices devices); simpl in Hl; [by injection Hl as <- <-|].
           unfold refreshDevice in Hl. by rewrite Hst in Hl.
      * eexists. rewrite saveState_trace. apply last_snoc.
    + destruct Hsv as (Hmeth & uid & b & Hpl & Hin).
      destruct (handleToggle_cases E r w)
        as [[Hn _]|[(_&Hnone&_)|(uid'&b'&_&Hpl'&Hcase)]]; [done|congruence|].
      rewrite Hpl in Hpl'. injection Hpl' as <- <-.
      destruct Hcase as [[Hnone _]|(cam&Hcam&[[_ Hp]|(m&Hm&Hres)])].
      * rewrite Hnone in Hin. by destruct Hin.
      * by rewrite Hp in Hs.
      * rewrite Hres in Hs. simpl in Hs. injection Hs as <-.
        match goal with |- context [saveState E ?p ?s ?x] =>
          destruct (saveState_frame E p s x) as (_&_&_&_&->&_&_&->);
          rewrite (saveState_trace E p s x); set (w2 := x) end.
        assert (state w2 = Some (<[uid:=b]> m) ∧ nsaves w2 = nsaves w) as [-> ->].
        { unfold w2. destruct b.
          - by destruct (ensureInTable_frame E uid (setEnabled true cam)
                           (withState (Some (<[uid:=true]> m))
                              (withCameras <[uid:=setEnabled true cam]> w)))
              as (_ & _ & -> & _ & -> & _).
          - by destruct (stop_frame uid (withState (Some (<[uid:=false]> m))
                              (withCameras <[uid:=setEnabled false cam]> w)))
              as (_ & _ & -> & _ & -> & _). }
        split; [done|]. eexists. apply last_snoc.
Qed.

End StoreClaims.

(** C7: for every path, load returns a mapping and never fails the caller:
    an absent or invalid state file gives the empty mapping, and every
    device discovered afterwards is taken as first seen and enabled.  The
    code does not keep this for a state file that holds the JSON document
    [null]: [json.Unmarshal] reports no error and leaves the map nil,
    [loadState] returns that nil map, and the first scan that finds a
    device panics when it enters the device into it. *)
Theorem null_state_file_stops_the_agent :
  loadState Ex.okEnv (StateFile Ex.config) {[StateFile Ex.config := "null"]} = None ∧
  startAgent Ex.okEnv "cam-1" Ex.config {[StateFile Ex.config := "null"]} [Ex.video0]
  = Panic "assignment to entry in nil map".
Proof. split; vm_compute; reflexivity. Qed.

(** Against C9 as it is stated: the state file cannot be written while a
    camera is disabled by a toggle; the request is answered and the save
    is recorded as failed, but no line is logged. *)
Lemma failed_save_is_not_logged :
  ∃ w',
    handleToggle Ex.noWriteEnv (Ex.post Ex.uid0 false) (Ex.started Ex.okEnv)
      = Done (RespOk, w') ∧
    since (Ex.started Ex.okEnv) w'
      = [CallStop Ex.uid0; Signalled 0;
         Saved "data/agent_state.json" (Some {[Ex.uid0 := false]}) false] ∧
    logLines (since (Ex.started Ex.okEnv) w') = [].
Proof.
  exists (Ex.after Ex.noWriteEnv [Toggle (Ex.post Ex.uid0 false)] (Ex.started Ex.okEnv)).
  split; [vm_compute; reflexivity|]. split; vm_compute; reflexivity.
Qed.


(* ===================================================================== *)
(** ** Identity and naming; the life of a state entry *)
(* ===================================================================== *)

Section NamingClaims.

Context (E : Env).

(** C8: identity and naming depend only on the host name and on the
    device list sorted by node.  The slug of a string is its lower-cased
    form with every run of characters outside [a-z0-9] turned into one
    dash and without dashes at the ends; a device without a name at index
    [i] of the sorted list is called [Camera <i+1>]; its stream path is
    [<hostSlug>-<nameSlug>-<i>].  On host [cam-1] the single device
    [/dev/video0] without a name becomes the camera [Camera 1] with
    stream path [cam-1-camera-1-0]. *)
Theorem identity_and_naming :
  (∀ value, slugify value = slug_spec value) ∧
  (∀ devices, Sorted nodeLe (sortDevices devices) ∧ sortDevices devices ≡ₚ devices) ∧
  (∀ devices w m i d,
     state w = Some m → NoDup (devNode <$> devices) →
     sortDevices devices !! i = Some d →
     ∃ w' cam,
       refreshCameras E devices w = Done w' ∧
       cameras w' !! (hostname w +:+ ":" +:+ devNode d) = Some cam ∧
       DeviceUID cam = hostname w +:+ ":" +:+ devNode d ∧
       Node cam = devNode d ∧
       Name cam = (if decide (devName d = "")
                   then "Camera " +:+ pretty (i + 1)%nat else devName d) ∧
       StreamPath cam = slugify (hostname w) +:+ "-" +:+ slugify (Name cam)
                        +:+ "-" +:+ pretty i) ∧
  (∃ w cam,
     startAgent E "cam-1" Ex.config ∅ [mkDevice "" "/dev/video0"] = Done w ∧
     cameras w !! "cam-1:/dev/video0" = Some cam ∧
     Name cam = "Camera 1" ∧ StreamPath cam = "cam-1-camera-1-0").
Proof.
  assert (∀ devices w m i d,
     state w = Some m → NoDup (devNode <$> devices) →
     sortDevices devices !! i = Some d →
     ∃ w' cam,
       refreshCameras E devices w = Done w' ∧
       cameras w' !! (hostname w +:+ ":" +:+ devNode d) = Some cam ∧
       DeviceUID cam = hostname w +:+ ":" +:+ devNode d ∧
       Node cam = devNode d ∧
       Name cam = (if decide (devName d = "")
                   then "Camera " +:+ pretty (i + 1)%nat else devName d) ∧
       StreamPath cam = slugify (hostname w) +:+ "-" +:+ slugify (Name cam)
                        +:+ "-" +:+ pretty i) as Hnaming.
  { intros devices w m i d Hst Hnd Hi.
    destruct (refreshCameras_result E devices w m Hst)
      as (next & w1 & w2 & w' & _ & _ & Hr & Hcam & _ & _ & _ & _ & _ & _ & _
          & _ & _ & _ & _ & Hnm).
    assert (NoDup (devNode <$> sortDevices devices)) as Hnd'.
    { by rewrite sortDevices_perm. }
    destruct (Hnm i d Hi) as (cam & Hl & Hu & Hn & Hname & Hsp).
    { intros j d' Hij Hj Heq.
      assert (i = j); [|lia].
      eapply (NoDup_lookup _ i j (devNode d) Hnd').
      - by rewrite list_lookup_fmap, Hi.
      - by rewrite list_lookup_fmap, Hj, <- Heq. }
    exists w', cam. split; [done|]. split; [by rewrite Hcam|].
    split; [done|]. split; [done|]. split; [done|].
    rewrite Hsp. unfold streamPathOf. by rewrite Hname. }
  split; [exact slugify_slug_spec|].
  split; [intros devices; split; [apply sortDevices_sorted|apply sortDevices_perm]|].
  split; [exact Hnaming|].
  destruct (Hnaming [mkDevice "" "/dev/video0"] (initWorld E "cam-1" Ex.config ∅) ∅ 0
              (mkDevice "" "/dev/video0"))
    as (w & cam & Hr & Hl & _ & _ & Hname & Hsp).
  - done.
  - repeat constructor. by intros ?%elem_of_nil.
  - done.
  - exists w, cam. split; [exact Hr|]. split; [exact Hl|].
    split; [exact Hname|]. rewrite Hsp, Hname. vm_compute. reflexivity.
Qed.

(** C10 (implicit): the state mapping only grows or is updated in place.
    No step of the agent takes a deviceUID out of it, and only an accepted
    toggle of a deviceUID changes its flag; so the flag of a device that
    has vanished from the scans is kept, and it is the enabled value of
    the camera when a later scan finds the device again. *)
Theorem state_entries_are_never_removed :
  (∀ e w w', step E e w = Done w' → mapKeys (state w) ⊆ mapKeys (state w')) ∧
  (∀ es w w' uid b,
     mapIndex (state w) uid = Some b →
     Forall (notToggleOf uid) es → run E es w = Done w' →
     mapIndex (state w') uid = Some b ∧
     ∀ devices d,
       d ∈ devices → deviceUIDOf (hostname w) d = uid →
       ∃ w'', refreshCameras E devices w' = Done w'' ∧
              Enabled <$> cameras w'' !! uid = Some b ∧
              mapIndex (state w'') uid = Some b).
Proof.
  split; [apply step_state_keys|].
  intros es w w' uid b Hb Hes Hrun.
  destruct (run_state E es w w' uid b Hes Hrun Hb) as (Hb' & Hh & _).
  split; [done|]. intros devices d Hd Hu.
  destruct (state w') as [m'|] eqn:Hst; [|done]. simpl in Hb'.
  destruct (refreshCameras_result E devices w' m' Hst)
    as (next & w1 & w2 & w'' & _ & _ & Hr & Hcam & Hst'' & _ & _ & _ & _ & _ & _
        & _ & _ & _ & Hen & _).
  exists w''. split; [done|].
  destruct (Hen d Hd) as (cam & Hl & He). rewrite Hh, Hu in Hl, He.
  split.
  - rewrite Hcam, Hl. simpl. by rewrite He, Hb'.
  - rewrite Hst''. simpl. by apply seedAll_kept.
Qed.

End NamingClaims.

(* ===================================================================== *)
(** ** The theorems at concrete inputs *)
(* ===================================================================== *)

Lemma vanished_device_is_retired_witness :
  ∃ next w1 w' t1 t2,
    refreshLoop Ex.okEnv (slugify "cam-1") 0 (sortDevices []) ∅ (Ex.started Ex.okEnv)
      = Done (next, w1) ∧
    refreshCameras Ex.okEnv [] (Ex.started Ex.okEnv) = Done w' ∧
    publishers w' !! Ex.uid0 = None ∧
    cameras w' !! Ex.uid0 = None ∧
    trace w' = trace w1 ++ t1 ++ [CallStop Ex.uid0; Signalled 0] ++ t2.
Proof.
  apply (vanished_device_is_retired Ex.okEnv [] (Ex.started Ex.okEnv) Ex.uid0).
  - apply (reach_step Ex.okEnv (Refresh [Ex.video0]) (Ex.fresh Ex.okEnv));
      [apply reach_init|vm_compute; reflexivity].
  - exists (setPublishing true Ex.camera0). vm_compute; reflexivity.
  - vm_compute. intros H. inversion H.
Defined.

Lemma toggle_unknown_and_known_witness :
  handleToggle Ex.okEnv (Ex.post "cam-1:/dev/video9" true) (Ex.started Ex.okEnv)
    = Done (RespNotFound, Ex.started Ex.okEnv) ∧
  ∃ m w' ok,
    state (Ex.started Ex.okEnv) = Some m ∧
    handleToggle Ex.okEnv (Ex.post Ex.uid0 false) (Ex.started Ex.okEnv) = Done (RespOk, w') ∧
    Enabled <$> cameras w' !! Ex.uid0 = Some false ∧
    state w' = Some (<[Ex.uid0:=false]> m) ∧
    since (Ex.started Ex.okEnv) w' !! 0 = Some (CallStop Ex.uid0) ∧
    last (since (Ex.started Ex.okEnv) w')
      = Some (Saved "data/agent_state.json" (Some (<[Ex.uid0:=false]> m)) ok) ∧
    (ok = true → ∃ data, Json.marshalIndent (Some (<[Ex.uid0:=false]> m)) = Some data ∧
                         disk w' !! "data/agent_state.json" = Some data).
Proof.
  split.
  - apply (toggle_unknown_and_known Ex.okEnv (Ex.post "cam-1:/dev/video9" true)
             "cam-1:/dev/video9" true (Ex.started Ex.okEnv)).
    + reflexivity.
    + reflexivity.
    + vm_compute; reflexivity.
  - apply (toggle_unknown_and_known Ex.okEnv (Ex.post Ex.uid0 false)
             Ex.uid0 false (Ex.started Ex.okEnv)).
    + reflexivity.
    + reflexivity.
    + apply (reach_step Ex.okEnv (Refresh [Ex.video0]) (Ex.fresh Ex.okEnv));
        [apply reach_init|vm_compute; reflexivity].
    + exists (setPublishing true Ex.camera0). vm_compute; reflexivity.
Defined.


Lemma identity_and_naming_witness :
  ∃ w' cam,
    refreshCameras Ex.okEnv [Ex.video2; Ex.usbCam] (Ex.fresh Ex.okEnv) = Done w' ∧
    cameras w' !! "cam-1:/dev/video2" = Some cam ∧
    DeviceUID cam = "cam-1:/dev/video2" ∧
    Node cam = "/dev/video2" ∧
    Name cam = "Camera 2" ∧
    StreamPath cam = slugify "cam-1" +:+ "-" +:+ slugify (Name cam) +:+ "-" +:+ pretty 1%nat.
Proof.
  destruct (identity_and_naming Ex.okEnv) as (_ & _ & Hnaming & _).
  apply (Hnaming [Ex.video2; Ex.usbCam] (Ex.fresh Ex.okEnv) ∅ 1%nat Ex.video2).
  - reflexivity.
  - vm_compute. repeat constructor; intros H; inversion H; subst;
      match goal with H' : _ ∈ _ |- _ => inversion H' end.
  - vm_compute; reflexivity.
Defined.

Lemma save_failure_is_silent_and_keeps_memory_witness :
  mapO (λ w', (memory w', logLines (trace w')))
    (step Ex.noWriteEnv (Toggle (Ex.post Ex.uid0 false)) (Ex.started Ex.okEnv))
  = mapO (λ w', (memory w', logLines (trace w')))
      (step Ex.okEnv (Toggle (Ex.post Ex.uid0 false)) (Ex.started Ex.okEnv)) ∧
  nsaves Ex.disabled = S (nsaves (Ex.started Ex.okEnv)) ∧
  ∃ ok, last (trace Ex.disabled)
        = Some (Saved "data/agent_state.json" (state Ex.disabled) ok).
Proof.
  destruct (save_failure_is_silent_and_keeps_memory Ex.okEnv (λ _, MkdirError)
              (Toggle (Ex.post Ex.uid0 false)) (Ex.started Ex.okEnv)) as [Hmem Hsave].
  split; [exact Hmem|].
  apply (Hsave Ex.disabled).
  - vm_compute; reflexivity.
  - split; [reflexivity|]. exists Ex.uid0, false. split; [reflexivity|].
    exists (setPublishing true Ex.camera0). vm_compute; reflexivity.
Defined.

Lemma state_entries_are_never_removed_witness :
  mapIndex (state Ex.vanished) Ex.uid0 = Some false ∧
  ∃ w'', refreshCameras Ex.okEnv [Ex.video0] Ex.vanished = Done w'' ∧
         Enabled <$> cameras w'' !! Ex.uid0 = Some false ∧
         mapIndex (state w'') Ex.uid0 = Some false.
Proof.
  destruct (state_entries_are_never_removed Ex.okEnv) as [_ Hkept].
  destruct (Hkept [Refresh []; Refresh []] Ex.disabled Ex.vanished Ex.uid0 false)
    as [Hstate Hback].
  - vm_compute; reflexivity.
  - repeat constructor.
  - vm_compute; reflexivity.
  - split; [exact Hstate|].
    apply (Hback [Ex.video0] Ex.video0).
    + apply elem_of_cons. left. reflexivity.
    + reflexivity.
Defined.


(* ===================================================================== *)
(** ** More on the slug *)
(* ===================================================================== *)

Module SlugFacts.
Import Str.

Lemma code_inj a b : code a = code b → a = b.
Proof.
  unfold code. intros H.
  by rewrite <- (ascii_nat_embedding a), <- (ascii_nat_embedding b), H.
Qed.

Lemma isDash_eq c : isDash c = true → c = "-"%char.
Proof. unfold isDash. intros H%Nat.eqb_eq. by apply code_inj. Qed.

Lemma from_allSlug w r b :
  allSlug w = true → w ≠ "" → Slug.from b (w +:+ r) = Slug.from false r.
Proof.
  revert b. induction w as [|c w IH]; intros b Hs Hne; [done|].
  rewrite StrFacts.app_cons. simpl in *. apply andb_true_iff in Hs as [Hc Hw].
  rewrite Hc. destruct w as [|c' w']; [done|]. by apply IH.
Qed.

Lemma fieldsGo_words cur t :
  allSlug cur = true →
  Forall (λ w, w ≠ "" ∧ allSlug w = true) (fieldsGo cur t).
Proof.
  revert cur. induction t as [|c t IH]; intros cur Hcur; simpl.
  - case_decide; [constructor|]. by repeat constructor.
  - destruct (isSlugChar c) eqn:Hc.
    + apply IH. by apply StrFacts.allSlug_snoc.
    + case_decide; [by apply IH|]. constructor; [done|by apply IH].
Qed.

Lemma from_joinDash ws :
  Forall (λ w, w ≠ "" ∧ allSlug w = true) ws → ws ≠ [] →
  ∀ b, Slug.from b (joinDash ws) = true.
Proof.
  induction 1 as [|w ws [Hne Hs] Hws IH]; [done|]. intros _ b.
  rewrite StrFacts.joinDash_cons. case_decide as Hnil.
  - rewrite <- (StrFacts.app_nil_r w). by rewrite from_allSlug.
  - rewrite from_allSlug by done. rewrite StrFacts.app_cons. simpl.
    rewrite StrFacts.app_nil_l. by apply IH.
Qed.

Lemma wellFormed_joinDash ws :
  Forall (λ w, w ≠ "" ∧ allSlug w = true) ws → Slug.wellFormed (joinDash ws) = true.
Proof.
  intros Hws. destruct ws as [|w ws]; [done|].
  unfold Slug.wellFormed.
  destruct (joinDash (w :: ws)) eqn:Hj; [done|]. rewrite <- Hj.
  by apply from_joinDash.
Qed.

Lemma slug_dash_codes c :
  isSlugChar c = true ∨ isDash c = true →
  (code c =? 196)%nat = false ∧ (code c =? 226)%nat = false ∧ lowerAscii c = c.
Proof.
  unfold isSlugChar, isLower, isDigit, isDash, lowerAscii, isUpper.
  intros H.
  assert ((code c <=? 122)%nat = true) as Hle.
  { destruct H as [H|H].
    - apply orb_true_iff in H as [H|H]; apply andb_true_iff in H as [_ H].
      + done.
      + apply Nat.leb_le in H. apply Nat.leb_le. lia.
    - apply Nat.eqb_eq in H. rewrite H. done. }
  apply Nat.leb_le in Hle.
  assert ((65 <=? code c)%nat && (code c <=? 90)%nat = false) as Hup.
  { apply andb_false_iff.
    destruct H as [H|H].
    - apply orb_true_iff in H as [H|H]; apply andb_true_iff in H as [H1 H2];
        apply Nat.leb_le in H1, H2.
      + right. apply Nat.leb_gt. lia.
      + left. apply Nat.leb_gt. lia.
    - apply Nat.eqb_eq in H. left. apply Nat.leb_gt. lia. }
  rewrite Hup. repeat split; apply Nat.eqb_neq; lia.
Qed.

Lemma ToLower_cons c r :
  (code c =? 196)%nat = false → (code c =? 226)%nat = false →
  ToLower (String c r) = String (lowerAscii c) (ToLower r).
Proof.
  intros H1 H2. destruct r as [|c1 [|c2 r2]]; simpl; rewrite ?H1, ?H2; done.
Qed.

Lemma from_ToLower b t : Slug.from b t = true → ToLower t = t.
Proof.
  revert b. induction t as [|c t IH]; intros b H; [done|].
  simpl in H.
  assert (isSlugChar c = true ∨ isDash c = true) as Hc.
  { destruct (isSlugChar c); [by left|]. right.
    by apply andb_true_iff in H as [[? _]%andb_true_iff _]. }
  destruct (slug_dash_codes c Hc) as (H1 & H2 & H3).
  rewrite ToLower_cons, H3 by done. f_equal.
  destruct (isSlugChar c); [by eapply IH|].
  apply andb_true_iff in H as [_ H]. by eapply IH.
Qed.

Lemma from_replaceRuns b t : Slug.from b t = true → replaceRuns b t = t.
Proof.
  revert b. induction t as [|c t IH]; intros b H; [done|].
  simpl in *. destruct (isSlugChar c); [by rewrite IH|].
  apply andb_true_iff in H as [[Hd Hb]%andb_true_iff H].
  destruct b; [done|]. rewrite (isDash_eq c Hd). by rewrite IH.
Qed.

Lemma from_trimRight b t : Slug.from b t = true → trimRightDash t = t.
Proof.
  revert b. induction t as [|c t IH]; intros b H; [done|].
  simpl in *. destruct (isSlugChar c) eqn:Hc.
  - rewrite (IH false H). destruct t; [|done]. by rewrite StrFacts.slug_not_dash.
  - apply andb_true_iff in H as [_ H]. rewrite (IH true H).
    by destruct t.
Qed.

Lemma wellFormed_fixed t : Slug.wellFormed t = true → slugify t = t.
Proof.
  destruct t as [|c t]; [done|]. unfold Slug.wellFormed. intros H.
  unfold slugify. rewrite (from_ToLower true _ H).
  assert (isSlugChar c = true) as Hc.
  { simpl in H. destruct (isSlugChar c); [done|].
    by rewrite andb_false_r in H. }
  assert (replaceRuns false (String c t) = String c t) as ->.
  { pose proof (from_replaceRuns true _ H) as Hr. simpl in *. by rewrite Hc in *. }
  unfold TrimDash. simpl. rewrite (StrFacts.slug_not_dash c Hc).
  by apply (from_trimRight true).
Qed.

Lemma slugify_wellFormed value : Slug.wellFormed (slugify value) = true.
Proof.
  rewrite slugify_slug_spec. unfold slug_spec, fields.
  by apply wellFormed_joinDash, fieldsGo_words.
Qed.

End SlugFacts.

(** X1: whatever the input, the slug has the shape
    [[a-z0-9]+(-[a-z0-9]+)*] or is empty: only lower-case letters, digits
    and single dashes, and no dash at either end. *)
Theorem slugify_is_well_formed value : Slug.wellFormed (slugify value) = true.
Proof. apply SlugFacts.slugify_wellFormed. Qed.

(** X2: a string that already has the shape of a slug is left as it is. *)
Theorem slugify_keeps_slugs t : Slug.wellFormed t = true → slugify t = t.
Proof. apply SlugFacts.wellFormed_fixed. Qed.

Lemma slugify_keeps_slugs_witness : slugify "cam-1-camera-1-0" = "cam-1-camera-1-0".
Proof. apply slugify_keeps_slugs. vm_compute; reflexivity. Defined.

(** X3: slugify is idempotent. *)
Theorem slugify_idempotent value : slugify (slugify value) = slugify value.
Proof. apply SlugFacts.wellFormed_fixed, SlugFacts.slugify_wellFormed. Qed.


(* ===================================================================== *)
(** ** What the table, the live set and the state mapping agree on *)
(* ===================================================================== *)

Lemma Agree_mono w w' :
  (∀ c p, procs w !! c = Some p →
          ∃ p', procs w' !! c = Some p' ∧ procUID p' = procUID p) →
  cameras w' = cameras w → state w' = state w →
  (∀ uid c, publishers w' !! uid = Some c → publishers w !! uid = Some c) →
  Agree w → Agree w'.
Proof.
  intros Hp Hc Hs Hpub [Hf Hb]. split.
  - by rewrite Hc, Hs.
  - intros uid c Hl. destruct (Hb uid c (Hpub uid c Hl)) as (p & cam & H1 & H2 & H3 & H4 & H5).
    destruct (Hp c p H1) as (p' & Hp' & Hu). exists p', cam.
    rewrite Hc. repeat split; try done. congruence.
Qed.

Lemma Agree_stop uid w : AgreeExcept uid w → Agree (stopPublisherLocked uid w).
Proof.
  intros [Hf Hb]. destruct (stop_frame uid w) as (_&_&Hs&_&_&_&Hp). split.
  - intros u cam Hl. rewrite Hs. rewrite stop_cameras in Hl.
    case_decide; [|by apply Hf].
    destruct (cameras w !! u) as [cam0|] eqn:Hc0; [|done].
    injection Hl as <-. simpl. by apply Hf.
  - intros u c Hl. rewrite Hp in Hl.
    destruct (decide (u = uid)) as [->|Hne]; [by rewrite lookup_delete_eq in Hl|].
    rewrite lookup_delete_ne in Hl by done.
    destruct (Hb u c Hne Hl) as (p & cam & H1 & H2 & H3 & H4 & H5).
    assert (∃ p', procs (stopPublisherLocked uid w) !! c = Some p' ∧ procUID p' = u)
      as (p' & Hp' & Hu').
    { rewrite stop_procs, H1. case_decide; simpl; eauto. }
    exists p', cam. rewrite stop_cameras.
    rewrite decide_False by (intros [? _]; done). done.
Qed.

Lemma Agree_weaken uid w : Agree w → AgreeExcept uid w.
Proof. intros [Hf Hb]. split; [done|]. intros u c _. apply Hb. Qed.

Section Agreement.

Context (E : Env).

Lemma Agree_ensureInTable uid cam w :
  procsBelow w → AgreeExcept uid w →
  DeviceUID cam = uid → Enabled cam = true → mapIndex (state w) uid = Some true →
  (∀ c, publishers w !! uid = Some c →
        Publishing cam = true ∧ ∃ p, procs w !! c = Some p ∧ procUID p = uid) →
  Agree (ensureInTable E uid cam w) ∧
  (startResult E (nextCmd w) = Started ∨ is_Some (publishers w !! uid) →
   ∃ cam', cameras (ensureInTable E uid cam w) !! uid = Some cam' ∧
           Publishing cam' = true ∧
           is_Some (publishers (ensureInTable E uid cam w) !! uid)).
Proof.
  intros Hbelow [Hf Hb] Hu Hen Hst Hreg.
  assert (∀ X, Enabled X = true →
            flagsAgree (<[uid:=X]> (cameras w)) (state w)) as Hflags.
  { intros X HX u c Hl. destruct (decide (uid = u)) as [<-|Hne].
    - rewrite lookup_insert_eq in Hl. injection Hl as <-. by rewrite HX.
    - rewrite lookup_insert_ne in Hl by done. by apply Hf. }
  unfold ensureInTable, ensurePublisherLocked. rewrite Hu. simpl.
  destruct (publishers w !! uid) as [c|] eqn:Hpub.
  - destruct (Hreg c eq_refl) as (Hpubl & p & Hp & Hpu). simpl. split.
    + split; [by apply Hflags|]. simpl. intros u c' Hl.
      destruct (decide (u = uid)) as [->|Hne].
      * rewrite Hpub in Hl. injection Hl as <-. exists p, cam. simpl.
        by rewrite lookup_insert_eq.
      * destruct (Hb u c' Hne Hl) as (p' & cam' & ?&?&?&?&?).
        exists p', cam'. simpl. by rewrite lookup_insert_ne.
    + intros _. exists cam. rewrite lookup_insert_eq. eauto.
  - assert (∀ (w' : World) X,
              cameras w' = <[uid:=X]> (cameras w) → state w' = state w →
              Enabled X = true → publishers w' = publishers w →
              procs w' = procs w → Agree w') as Hsame.
    { intros w' X Hc' Hs' HX Hp' Hpr'. split.
      - rewrite Hc', Hs'. by apply Hflags.
      - intros u c' Hl. rewrite Hp' in Hl.
        destruct (decide (u = uid)) as [->|Hne]; [congruence|].
        destruct (Hb u c' Hne Hl) as (p' & cam' & ?&?&?&?&?).
        exists p', cam'. rewrite Hpr', Hc'. by rewrite lookup_insert_ne. }
    destruct (startResult E (nextCmd w)) eqn:Hstart; simpl.
    + split; [by eapply Hsame|]. intros [?|[? ?]]; done.
    + split; [by eapply Hsame|]. intros [?|[? ?]]; done.
    + split.
      * split; [by apply Hflags|]. simpl. intros u c' Hl.
        destruct (decide (u = uid)) as [->|Hne].
        -- rewrite lookup_insert_eq in Hl. injection Hl as <-.
           eexists _, _. simpl. rewrite !lookup_insert_eq. done.
        -- rewrite lookup_insert_ne in Hl by done.
           destruct (Hb u c' Hne Hl) as (p' & cam' & Hp' &?&?&?&?).
           exists p', cam'. simpl. rewrite !lookup_insert_ne; [done|done|].
           assert (c' < nextCmd w)%nat by (apply Hbelow; eauto). lia.
      * intros _. eexists. rewrite !lookup_insert_eq. eauto.
Qed.

Lemma Agree_save path st w : Agree w → Agree (saveState E path st w).2.
Proof.
  destruct (saveState_frame E path st w) as (_&_&Hc&Hp&Hs&Hpr&_).
  apply Agree_mono; try done.
  - intros c p. rewrite Hpr. eauto.
  - intros uid c. by rewrite Hp.
Qed.

Lemma Agree_procExit c err w : Agree w → Agree (procExit c err w).
Proof.
  unfold procExit. destruct (procs w !! c) as [p|] eqn:Hp; [|done].
  destruct (alive p); [|done]. apply Agree_mono; try done.
  intros c' p' Hp'. simpl. destruct (decide (c = c')) as [<-|Hne].
  - rewrite lookup_insert_eq. rewrite Hp in Hp'. injection Hp' as <-. eauto.
  - rewrite lookup_insert_ne by done. eauto.
Qed.

Lemma Agree_watcherExit c w : Agree w → Agree (watcherExit c w).
Proof.
  unfold watcherExit. destruct (procs w !! c) as [p|] eqn:Hp; [|done].
  destruct (alive p); [done|]. destruct (watcher p); try done.
  apply Agree_mono.
  - intros c' p' Hp'. destruct (decide (c = c')) as [<-|Hne].
    + rewrite Hp in Hp'. injection Hp' as <-.
      destruct (exitErr p); simpl; rewrite lookup_insert_eq; eauto.
    + destruct (exitErr p); simpl; rewrite lookup_insert_ne by done; eauto.
  - by destruct (exitErr p).
  - by destruct (exitErr p).
  - intros uid c' Hl.
    assert (delete (procUID p) (publishers w) !! uid = Some c') as Hd
      by (by destruct (exitErr p)).
    destruct (decide (procUID p = uid)) as [<-|Hne].
    + by rewrite lookup_delete_eq in Hd.
    + by rewrite lookup_delete_ne in Hd.
Qed.

Lemma Agree_watcherRestart c w : Inv w → Agree w → Agree (watcherRestart E c w).
Proof.
  intros HI HA. unfold watcherRestart.
  destruct (procs w !! c) as [p|] eqn:Hp; [|done].
  destruct (watcher p); try done.
  set (w1 := withProcs <[c:=setWatcher Finished p]> w).
  assert (Agree w1) as HA1.
  { revert HA. apply Agree_mono; try done.
    intros c' p' Hp'. simpl. destruct (decide (c = c')) as [<-|Hne].
    - rewrite lookup_insert_eq. rewrite Hp in Hp'. injection Hp' as <-. eauto.
    - rewrite lookup_insert_ne by done. eauto. }
  assert (procsBelow w1) as Hb1.
  { destruct HI as (Hb & _). intros c' Hc'. simpl in *. apply Hb.
    destruct (decide (c = c')) as [<-|Hne]; [by eauto|].
    by rewrite lookup_insert_ne in Hc'. }
  simpl. destruct (cameras w !! procUID p) as [cam|] eqn:Hcam; [|done].
  destruct (Enabled cam) eqn:Hen; [|done].
  destruct HI as (_ & Hk & _). pose proof HA1 as [Hf1 Hreg1].
  apply Agree_ensureInTable.
  - exact Hb1.
  - by apply Agree_weaken.
  - by apply Hk.
  - done.
  - rewrite <- Hen. by apply Hf1.
  - intros c' Hl. destruct (Hreg1 _ _ Hl) as (p' & cam' & H1 & H2 & H3 & H4 & H5).
    simpl in H3. rewrite Hcam in H3. injection H3 as <-. eauto.
Qed.

Lemma Agree_handleToggle r w resp w' :
  Inv w → Agree w → handleToggle E r w = Done (resp, w') → Agree w'.
Proof.
  intros HI HA.
  destruct (handleToggle_cases E r w)
    as [[_ ->]|[(_&_&->)|(uid&b&_&_&[[_ ->]|(cam&Hcam&[[_ ->]|(m&Hm&->)])])]];
    try done; try by intros [= _ <-].
  intros [= _ <-]. apply Agree_save.
  set (camb := setEnabled b cam).
  set (w1 := withState (Some (<[uid:=b]> m)) (withCameras <[uid:=camb]> w)).
  destruct HA as [Hf Hreg]. destruct HI as (Hbelow & Hk & _).
  assert (AgreeExcept uid w1) as HA1.
  { split.
    - intros u c Hl. simpl in *. destruct (decide (uid = u)) as [<-|Hne].
      + rewrite lookup_insert_eq in Hl. injection Hl as <-.
        by rewrite lookup_insert_eq.
      + rewrite lookup_insert_ne in Hl by done. rewrite lookup_insert_ne by done.
        specialize (Hf u c Hl). by rewrite Hm in Hf.
    - intros u c Hne Hl. destruct (Hreg u c Hl) as (p & cam' & ?&?&?&?&?).
      exists p, cam'. simpl. by rewrite lookup_insert_ne. }
  destruct b.
  - apply Agree_ensureInTable.
    + exact Hbelow.
    + exact HA1.
    + simpl. by apply Hk.
    + done.
    + simpl. by rewrite lookup_insert_eq.
    + intros c Hl. destruct (Hreg uid c Hl) as (p & cam' & H1 & H2 & H3 & H4 & H5).
      rewrite Hcam in H3. injection H3 as <-. simpl. eauto.
  - by apply Agree_stop.
Qed.

(** One turn of the first loop keeps what the table being built, the live
    set and the state mapping agree on; [K0] are the uids of the old
    table. *)
Lemma refreshDevice_agree (K0 : gset string) hs idx d next w next' w' :
  refreshDevice E hs idx d next w = Done (next', w') →
  procsBelow w → flagsAgree next (state w) →
  (∀ uid c, publishers w !! uid = Some c →
     (∃ p, procs w !! c = Some p ∧ procUID p = uid) ∧
     match next !! uid with
     | Some cam => Enabled cam = true ∧ Publishing cam = true
     | None => uid ∈ K0
     end) →
  (allStart E → ∀ uid cam, next !! uid = Some cam → Enabled cam = true →
                is_Some (publishers w !! uid)) →
  procsBelow w' ∧ flagsAgree next' (state w') ∧
  (∀ uid c, publishers w' !! uid = Some c →
     (∃ p, procs w' !! c = Some p ∧ procUID p = uid) ∧
     match next' !! uid with
     | Some cam => Enabled cam = true ∧ Publishing cam = true
     | None => uid ∈ K0
     end) ∧
  (allStart E → ∀ uid cam, next' !! uid = Some cam → Enabled cam = true →
                is_Some (publishers w' !! uid)).
Proof.
  intros Hdev Hbelow Hf Hreg Hall.
  destruct (state w) as [m|] eqn:Hst;
    [|by unfold refreshDevice in Hdev; rewrite Hst in Hdev].
  rewrite (refreshDevice_spec E hs idx d next w m Hst) in Hdev.
  set (uid := deviceUIDOf (hostname w) d) in *.
  set (en := default true (m !! uid)) in *.
  set (ws := withState (Some (<[uid:=en]> m)) w) in *.
  set (cam0 := newCamera hs idx d en w) in *.
  assert (∀ X, Enabled X = en → flagsAgree (<[uid:=X]> next) (Some (<[uid:=en]> m)))
    as Hflags.
  { intros X HX u c Hl. simpl. destruct (decide (uid = u)) as [<-|Hne].
    - rewrite lookup_insert_eq in Hl. injection Hl as <-. by rewrite lookup_insert_eq, HX.
    - rewrite lookup_insert_ne in Hl by done. rewrite lookup_insert_ne by done.
      by apply (Hf u c). }
  destruct en eqn:Hen.
  - injection Hdev as <- <-.
    unfold ensurePublisherLocked.
    change (DeviceUID cam0) with uid. simpl.
    destruct (publishers w !! uid) as [c|] eqn:Hpub; simpl.
    + assert (Publishing cam0 = true) as Hpubl.
      { unfold cam0, newCamera. simpl. fold uid. rewrite Hpub.
        apply bool_decide_eq_true. eauto. }
      split; [done|]. split; [by apply Hflags|]. split.
      * intros u c' Hl. destruct (Hreg u c' Hl) as [Hp Hm]. split; [done|].
        destruct (decide (uid = u)) as [<-|Hne].
        -- by rewrite lookup_insert_eq.
        -- by rewrite lookup_insert_ne.
      * intros HA u cam Hl Hc. destruct (decide (uid = u)) as [<-|Hne]; [by eauto|].
        rewrite lookup_insert_ne in Hl by done. by eapply (Hall HA).
    + destruct (startResult E (nextCmd w)) eqn:Hstart; simpl.
      1,2: split; [intros c Hc; apply Hbelow in Hc; simpl; lia|];
        split; [by apply Hflags|]; split;
        [ intros u c' Hl; destruct (Hreg u c' Hl) as [Hp Hm]; split; [done|];
          destruct (decide (uid = u)) as [<-|Hne]; [congruence|];
          by rewrite lookup_insert_ne
        | intros HA; specialize (HA (nextCmd w)); congruence ].
      split.
      { intros c Hc. simpl in *. destruct (decide (c = nextCmd w)) as [->|Hne]; [lia|].
        rewrite lookup_insert_ne in Hc by done. apply Hbelow in Hc. lia. }
      split; [by apply Hflags|]. split.
      * intros u c' Hl. destruct (decide (uid = u)) as [<-|Hne].
        -- rewrite lookup_insert_eq in Hl. injection Hl as <-.
           rewrite !lookup_insert_eq. split; [by eauto|done].
        -- rewrite lookup_insert_ne in Hl by done.
           destruct (Hreg u c' Hl) as [(p & Hp & Hu) Hm].
           rewrite !lookup_insert_ne; [by eauto|done|].
           assert (c' < nextCmd w)%nat by (apply Hbelow; eauto). lia.
      * intros HA u cam Hl Hc. destruct (decide (uid = u)) as [<-|Hne].
        -- rewrite lookup_insert_eq. eauto.
        -- rewrite lookup_insert_ne in Hl by done. rewrite lookup_insert_ne by done.
           by eapply (Hall HA).
  - injection Hdev as <- <-.
    destruct (stop_frame uid ws) as (_&_&Hs&_&_&Hn&Hp).
    split.
    { intros c Hc. rewrite stop_procs in Hc. rewrite Hn. apply Hbelow.
      case_decide; [|done]. by apply fmap_is_Some in Hc. }
    split; [rewrite Hs; by apply Hflags|]. split.
    + intros u c' Hl. rewrite Hp in Hl.
      destruct (decide (u = uid)) as [->|Hne]; [by rewrite lookup_delete_eq in Hl|].
      rewrite lookup_delete_ne in Hl by done.
      destruct (Hreg u c' Hl) as [(p & Hp' & Hu) Hm]. split.
      * rewrite stop_procs. change (procs ws) with (procs w). rewrite Hp'.
        case_decide; simpl; eauto.
      * by rewrite lookup_insert_ne.
    + intros HA u cam Hl Hc. rewrite Hp.
      destruct (decide (uid = u)) as [<-|Hne].
      * rewrite lookup_insert_eq in Hl. injection Hl as <-.
        unfold cam0, newCamera in Hc. simpl in Hc. done.
      * rewrite lookup_insert_ne in Hl by done. rewrite lookup_delete_ne by done.
        by eapply (Hall HA).
Qed.

Lemma refreshLoop_agree (K0 : gset string) hs ds idx next w next' w' :
  refreshLoop E hs idx ds next w = Done (next', w') →
  procsBelow w → flagsAgree next (state w) →
  (∀ uid c, publishers w !! uid = Some c →
     (∃ p, procs w !! c = Some p ∧ procUID p = uid) ∧
     match next !! uid with
     | Some cam => Enabled cam = true ∧ Publishing cam = true
     | None => uid ∈ K0
     end) →
  (allStart E → ∀ uid cam, next !! uid = Some cam → Enabled cam = true →
                is_Some (publishers w !! uid)) →
  procsBelow w' ∧ flagsAgree next' (state w') ∧
  (∀ uid c, publishers w' !! uid = Some c →
     (∃ p, procs w' !! c = Some p ∧ procUID p = uid) ∧
     match next' !! uid with
     | Some cam => Enabled cam = true ∧ Publishing cam = true
     | None => uid ∈ K0
     end) ∧
  (allStart E → ∀ uid cam, next' !! uid = Some cam → Enabled cam = true →
                is_Some (publishers w' !! uid)).
Proof.
  revert idx next w. induction ds as [|d ds IH]; intros idx next w; simpl.
  - by intros [= <- <-].
  - destruct (refreshDevice E hs idx d next w) as [[n1 w1]|] eqn:Hd; simpl; [|done].
    intros Hl Hb Hf Hreg Hall.
    destruct (refreshDevice_agree K0 hs idx d next w n1 w1 Hd Hb Hf Hreg Hall)
      as (Hb1 & Hf1 & Hreg1 & Hall1).
    by eapply IH.
Qed.

(** A whole cycle: the agreement after it, and the live set when every
    start succeeds. *)
Lemma refreshCameras_agree devices w w' :
  Inv w → Agree w → refreshCameras E devices w = Done w' →
  Agree w' ∧
  (allStart E → ∀ uid cam, cameras w' !! uid = Some cam → Enabled cam = true →
                is_Some (publishers w' !! uid)).
Proof.
  intros (Hbelow & _ & _) [Hf Hreg]. unfold refreshCameras.
  destruct (refreshLoop E _ 0 _ ∅ w) as [[next w1]|] eqn:Hl; simpl; [|done].
  intros [= <-].
  destruct (refreshLoop_agree (dom (cameras w)) _ _ _ _ _ _ _ Hl Hbelow)
    as (Hb1 & Hf1 & Hreg1 & Hall1).
  { intros u c Hu. by rewrite lookup_empty in Hu. }
  { intros u c Hu. destruct (Hreg u c Hu) as (p & cam & ?&?&Hc&?&?).
    split; [by eauto|]. rewrite lookup_empty. apply elem_of_dom. eauto. }
  { intros _ u c Hu. by rewrite lookup_empty in Hu. }
  set (keys := (map_to_list (cameras w)).*1) in *.
  destruct (stopVanished_frame next keys w1) as (_&_&Hs2&_&_&Hn2&_&_&Hp2).
  set (w2 := stopVanished next keys w1) in *.
  set (w3 := withCameras (λ _, next) w2).
  assert (∀ u, u ∈ dom (cameras w) → u ∈ keys) as Hkeys.
  { intros u [cam Hc]%elem_of_dom. unfold keys. apply list_elem_of_fmap.
    exists (u, cam). split; [done|]. by apply elem_of_map_to_list. }
  assert (Agree w3 ∧
          (allStart E → ∀ uid cam, cameras w3 !! uid = Some cam → Enabled cam = true →
                        is_Some (publishers w3 !! uid))) as [HA3 Hall3].
  { split; [split|].
    - simpl. by rewrite Hs2.
    - intros u c Hu. simpl in Hu. rewrite Hp2 in Hu.
      case_decide as Hdec; [done|].
      destruct (Hreg1 u c Hu) as [(p & Hp & Hpu) Hm].
      destruct (keepsWatcher_stopVanished c next keys w1) as [_ Hkeep].
      { apply Hb1. eauto. }
      destruct (Hkeep p Hp) as (p' & Hp' & Hu' & _).
      destruct (next !! u) as [cam|] eqn:Hnx.
      + exists p', cam. simpl. fold w2. destruct Hm. repeat split; try done. congruence.
      + exfalso. apply Hdec. split; [by apply Hkeys|done].
    - intros HA u cam Hc Hen. simpl in *. rewrite Hp2.
      rewrite decide_False; [by eapply (Hall1 HA)|].
      intros [_ Hnone]. congruence. }
  split; [by apply Agree_save|].
  intros HA u cam Hc Hen.
  destruct (saveState_frame E (StateFile (cfg w3)) (state w3) w3) as (_&_&Hc4&Hp4&_).
  change (cfg w2) with (cfg w3) in *. change (state w2) with (state w3) in *.
  rewrite Hp4. rewrite Hc4 in Hc. by eapply Hall3.
Qed.

Lemma Agree_init host c d : Agree (initWorld E host c d).
Proof.
  split.
  - intros u cam Hu. simpl in Hu. by rewrite lookup_empty in Hu.
  - intros u c0 Hu. simpl in Hu. by rewrite lookup_empty in Hu.
Qed.

Lemma Agree_step e w w' : Inv w → Agree w → step E e w = Done w' → Agree w'.
Proof.
  intros HI HA. destruct e as [devices|r|c err|c|c]; simpl.
  - intros Hr. by destruct (refreshCameras_agree devices w w' HI HA Hr).
  - destruct (handleToggle E r w) as [[resp w0]|] eqn:Ht; simpl; [|done].
    intros [= <-]. by eapply Agree_handleToggle.
  - intros [= <-]. by apply Agree_procExit.
  - intros [= <-]. by apply Agree_watcherExit.
  - intros [= <-]. by apply Agree_watcherRestart.
Qed.

Lemma Reachable_Agree w : Reachable E w → Agree w.
Proof.
  induction 1 as [host c d|e w w' HR IH Hs]; [apply Agree_init|].
  eapply Agree_step; [|exact IH|exact Hs]. by apply (Reachable_Inv E).
Qed.

End Agreement.


Section AgreementTheorems.

Context (E : Env).

(** X4: in every world the agent can reach, the enabled flag of each camera
    of the table is the entry of its deviceUID in the state mapping. *)
Theorem table_flags_are_state_entries w uid cam :
  Reachable E w → cameras w !! uid = Some cam →
  mapIndex (state w) uid = Some (Enabled cam).
Proof. intros HR. by apply (Reachable_Agree E w HR). Qed.

(** X5: in every world the agent can reach, an entry of the live set is a
    subprocess that was started for that deviceUID, and the table has the
    deviceUID as an enabled camera marked as publishing: no Publisher is
    registered for a disabled or an unknown camera. *)
Theorem registered_publisher_is_backed w uid c :
  Reachable E w → publishers w !! uid = Some c →
  ∃ p cam, procs w !! c = Some p ∧ procUID p = uid ∧
           cameras w !! uid = Some cam ∧ Enabled cam = true ∧ Publishing cam = true.
Proof. intros HR. by apply (Reachable_Agree E w HR). Qed.

(** X6: when every start succeeds, a reconciliation cycle in a world the
    agent can reach returns whenever the state mapping is not nil, and a
    cycle that returns leaves the live set with an entry for exactly the
    enabled cameras of the new table. *)
Theorem cycle_publishes_exactly_the_enabled devices w :
  allStart E → Reachable E w →
  (state w ≠ None → ∃ w', refreshCameras E devices w = Done w') ∧
  ∀ w', refreshCameras E devices w = Done w' →
        ∀ uid, is_Some (publishers w' !! uid)
               ↔ ∃ cam, cameras w' !! uid = Some cam ∧ Enabled cam = true.
Proof.
  intros Hall HR. split.
  - intros Hst. destruct (state w) as [m|] eqn:Hm; [|done].
    destruct (refreshCameras_result E devices w m Hm) as (?&?&?&w'&_&_&Hr&_).
    by exists w'.
  - intros w' Hr.
    destruct (refreshCameras_agree E devices w w' (Reachable_Inv E w HR)
                (Reachable_Agree E w HR) Hr) as [[_ Hreg] Hlive].
    intros uid. split.
    + intros [c Hc]. destruct (Hreg uid c Hc) as (p & cam & _ & _ & Hcam & Hen & _).
      eauto.
    + intros (cam & Hcam & Hen). by eapply (Hlive Hall).
Qed.

(** X7: after a reconciliation cycle the Camera Table holds the discovered
    devices and nothing else: its keys are the deviceUIDs of the scan, and
    every camera sits under its own deviceUID. *)
Theorem cycle_table_is_the_scan devices w m :
  state w = Some m →
  ∃ w', refreshCameras E devices w = Done w' ∧
        dom (cameras w') = list_to_set (uidsOf (hostname w) devices) ∧
        ∀ uid cam, cameras w' !! uid = Some cam → DeviceUID cam = uid.
Proof.
  intros Hst.
  destruct (refreshCameras_result E devices w m Hst)
    as (next & w1 & ? & w' & Hl & _ & Hr & Hcam & _).
  destruct (refreshLoop_result E (slugify (hostname w)) (sortDevices devices) 0 ∅ w m Hst)
    as (next0 & w10 & Hl0 & _ & _ & _ & _ & _ & _ & _ & _ & _ & Hk & Hdom & _).
  rewrite Hl in Hl0. injection Hl0 as <- <-.
  exists w'. split; [done|]. rewrite Hcam. split.
  - rewrite Hdom, dom_empty_L, (left_id_L ∅ (∪)).
    apply set_eq. intros u. rewrite !elem_of_list_to_set. apply sortDevices_uids.
  - by apply Hk.
Qed.

(** X8: an accepted disable leaves no entry for the deviceUID in the live
    set; an accepted enable leaves one, with the camera marked as
    publishing, whenever the deviceUID had an entry or the start
    succeeds. *)
Theorem toggle_sets_the_live_set r uid b w :
  Reachable E w →
  reqMethod r = "POST" → reqPayload r = Some (uid, b) → is_Some (cameras w !! uid) →
  ∃ w', handleToggle E r w = Done (RespOk, w') ∧
        (b = false → publishers w' !! uid = None) ∧
        (b = true →
         startResult E (nextCmd w) = Started ∨ is_Some (publishers w !! uid) →
         is_Some (publishers w' !! uid) ∧
         Publishing <$> cameras w' !! uid = Some true).
Proof.
  intros HR Hmeth Hpl [cam0 Hcam0].
  pose proof (Reachable_Inv E w HR) as HI.
  pose proof (Reachable_Agree E w HR) as [Hf Hreg].
  destruct (handleToggle_cases E r w)
    as [[Hn _]|[(_&Hnone&_)|(uid'&b'&_&Hpl'&Hcase)]]; [done|congruence|].
  rewrite Hpl in Hpl'. injection Hpl' as <- <-.
  destruct Hcase as [[Hnone _]|(cam&Hcam&Hcase)]; [congruence|].
  destruct (Inv_state_map w uid HI (ex_intro _ _ Hcam)) as [m Hm].
  destruct Hcase as [[Hnil _]|(m'&Hm'&Hres)]; [congruence|].
  rewrite Hm in Hm'. injection Hm' as <-. cbv zeta in Hres.
  set (camb := setEnabled b cam) in *.
  set (w1 := withState (Some (<[uid:=b]> m)) (withCameras <[uid:=camb]> w)) in *.
  eexists. split; [exact Hres|].
  match goal with |- context [saveState E ?p ?s ?x] =>
    destruct (saveState_frame E p s x) as (_&_&->&->&_) end.
  split.
  - intros ->. destruct (stop_frame uid w1) as (_&_&_&_&_&_&->).
    apply lookup_delete_eq.
  - intros -> Hstart.
    destruct HI as (Hbelow & Hk & _).
    destruct (Agree_ensureInTable E uid camb w1) as [_ Hlive].
    + exact Hbelow.
    + split.
      * intros u c Hl. simpl in *. destruct (decide (uid = u)) as [<-|Hne].
        -- rewrite lookup_insert_eq in Hl. injection Hl as <-.
           by rewrite lookup_insert_eq.
        -- rewrite lookup_insert_ne in Hl by done. rewrite lookup_insert_ne by done.
           specialize (Hf u c Hl). by rewrite Hm in Hf.
      * intros u c Hne Hl. destruct (Hreg u c Hl) as (p & cam' & ?&?&?&?&?).
        exists p, cam'. simpl. by rewrite lookup_insert_ne.
    + simpl. by apply Hk.
    + done.
    + simpl. by rewrite lookup_insert_eq.
    + intros c Hl. destruct (Hreg uid c Hl) as (p & cam' & H1 & H2 & H3 & H4 & H5).
      rewrite Hcam in H3. injection H3 as <-. simpl. eauto.
    + destruct (Hlive Hstart) as (cam' & Hc' & Hp' & Hl').
      split; [done|]. by rewrite Hc'; simpl; rewrite Hp'.
Qed.

End AgreementTheorems.

Lemma table_flags_are_state_entries_witness :
  mapIndex (state Ex.disabled) Ex.uid0 = Some false.
Proof.
  apply (table_flags_are_state_entries Ex.okEnv Ex.disabled Ex.uid0
           (setPublishing false (setEnabled false Ex.camera0))).
  - apply (reach_step Ex.okEnv (Toggle (Ex.post Ex.uid0 false)) (Ex.started Ex.okEnv));
      [|vm_compute; reflexivity].
    apply (reach_step Ex.okEnv (Refresh [Ex.video0]) (Ex.fresh Ex.okEnv));
      [apply reach_init|vm_compute; reflexivity].
  - vm_compute; reflexivity.
Defined.

Lemma registered_publisher_is_backed_witness :
  ∃ p cam, procs (Ex.started Ex.okEnv) !! 0 = Some p ∧ procUID p = Ex.uid0 ∧
           cameras (Ex.started Ex.okEnv) !! Ex.uid0 = Some cam ∧
           Enabled cam = true ∧ Publishing cam = true.
Proof.
  apply (registered_publisher_is_backed Ex.okEnv (Ex.started Ex.okEnv) Ex.uid0 0).
  - apply (reach_step Ex.okEnv (Refresh [Ex.video0]) (Ex.fresh Ex.okEnv));
      [apply reach_init|vm_compute; reflexivity].
  - vm_compute; reflexivity.
Defined.

Lemma cycle_publishes_exactly_the_enabled_witness :
  ∃ w', refreshCameras Ex.okEnv [Ex.video2; Ex.video0] Ex.disabled = Done w' ∧
        ∀ uid, is_Some (publishers w' !! uid)
               ↔ ∃ cam, cameras w' !! uid = Some cam ∧ Enabled cam = true.
Proof.
  destruct (cycle_publishes_exactly_the_enabled Ex.okEnv [Ex.video2; Ex.video0] Ex.disabled)
    as [Hreturns Hlive].
  - intros c. reflexivity.
  - apply (reach_step Ex.okEnv (Toggle (Ex.post Ex.uid0 false)) (Ex.started Ex.okEnv));
      [|vm_compute; reflexivity].
    apply (reach_step Ex.okEnv (Refresh [Ex.video0]) (Ex.fresh Ex.okEnv));
      [apply reach_init|vm_compute; reflexivity].
  - destruct Hreturns as [w' Hw']; [vm_compute; discriminate|].
    exists w'. split; [exact Hw'|]. exact (Hlive w' Hw').
Defined.

Lemma cycle_table_is_the_scan_witness :
  ∃ w', refreshCameras Ex.okEnv [Ex.video2; Ex.usbCam] (Ex.started Ex.okEnv) = Done w' ∧
        dom (cameras w') = list_to_set (uidsOf "cam-1" [Ex.video2; Ex.usbCam]) ∧
        ∀ uid cam, cameras w' !! uid = Some cam → DeviceUID cam = uid.
Proof.
  apply (cycle_table_is_the_scan Ex.okEnv [Ex.video2; Ex.usbCam] (Ex.started Ex.okEnv)
           {[Ex.uid0 := true]}).
  vm_compute; reflexivity.
Defined.

Lemma toggle_sets_the_live_set_witness :
  ∃ w', handleToggle Ex.okEnv (Ex.post Ex.uid0 true) Ex.disabled = Done (RespOk, w') ∧
        (true = false → publishers w' !! Ex.uid0 = None) ∧
        (true = true →
         startResult Ex.okEnv (nextCmd Ex.disabled) = Started
         ∨ is_Some (publishers Ex.disabled !! Ex.uid0) →
         is_Some (publishers w' !! Ex.uid0) ∧
         Publishing <$> cameras w' !! Ex.uid0 = Some true).
Proof.
  apply (toggle_sets_the_live_set Ex.okEnv (Ex.post Ex.uid0 true) Ex.uid0 true Ex.disabled).
  - apply (reach_step Ex.okEnv (Toggle (Ex.post Ex.uid0 false)) (Ex.started Ex.okEnv));
      [|vm_compute; reflexivity].
    apply (reach_step Ex.okEnv (Refresh [Ex.video0]) (Ex.fresh Ex.okEnv));
      [apply reach_init|vm_compute; reflexivity].
  - reflexivity.
  - reflexivity.
  - exists (setPublishing false (setEnabled false Ex.camera0)). vm_compute; reflexivity.
Defined.

(* ===================================================================== *)
(** ** The publishing flag after a cycle *)
(* ===================================================================== *)

Section PublishingFlag.

Context (E : Env).

Lemma refreshDevice_flagSound hs idx d next w next' w' :
  refreshDevice E hs idx d next w = Done (next', w') →
  flagSound next w → flagSound next' w'.
Proof.
  intros Hdev [Hq1 Hq2].
  destruct (state w) as [m|] eqn:Hst;
    [|by unfold refreshDevice in Hdev; rewrite Hst in Hdev].
  rewrite (refreshDevice_spec E hs idx d next w m Hst) in Hdev.
  set (uid := deviceUIDOf (hostname w) d) in *.
  set (en := default true (m !! uid)) in *.
  set (ws := withState (Some (<[uid:=en]> m)) w) in *.
  set (cam0 := newCamera hs idx d en w) in *.
  assert (Publishing cam0 = true → is_Some (publishers w !! uid)) as Hcam0.
  { unfold cam0, newCamera. simpl. fold uid. by intros ?%bool_decide_eq_true. }
  assert (∀ u c, publishers w !! u = Some c → u ≠ uid →
                 (<[uid:=en]> m) !! u = Some true) as Hother.
  { intros u c Hl Hne. rewrite lookup_insert_ne by done.
    by apply (Hq1 u c Hl). }
  destruct en eqn:Hen.
  - injection Hdev as <- <-.
    unfold ensurePublisherLocked. change (DeviceUID cam0) with uid. simpl.
    destruct (publishers w !! uid) as [c|] eqn:Hpub; simpl.
    + split.
      * intros u c' Hl. simpl. destruct (decide (u = uid)) as [->|Hne];
          [by rewrite lookup_insert_eq|by eapply Hother].
      * intros u cam Hl Hp. destruct (decide (uid = u)) as [<-|Hne]; [by eauto|].
        rewrite lookup_insert_ne in Hl by done. by eapply Hq2.
    + destruct (startResult E (nextCmd w)) eqn:Hstart; simpl.
      1,2: split;
        [ intros u c' Hl; simpl; destruct (decide (u = uid)) as [->|Hne];
          [by rewrite lookup_insert_eq|by eapply Hother]
        | intros u cam Hl Hp; destruct (decide (uid = u)) as [<-|Hne];
          [ rewrite lookup_insert_eq in Hl; injection Hl as <-;
            destruct (Hcam0 Hp); congruence
          | rewrite lookup_insert_ne in Hl by done; by eapply Hq2 ] ].
      split.
      * intros u c' Hl. simpl in *. destruct (decide (u = uid)) as [->|Hne];
          [by rewrite lookup_insert_eq|].
        rewrite lookup_insert_ne in Hl by done. by eapply Hother.
      * intros u cam Hl Hp. destruct (decide (uid = u)) as [<-|Hne].
        -- simpl. rewrite lookup_insert_eq. eauto.
        -- rewrite lookup_insert_ne in Hl by done. simpl.
           rewrite lookup_insert_ne by done. by eapply Hq2.
  - injection Hdev as <- <-.
    destruct (stop_frame uid ws) as (_&_&Hs&_&_&_&Hp). split.
    + intros u c' Hl. rewrite Hp in Hl. rewrite Hs. simpl.
      destruct (decide (u = uid)) as [->|Hne]; [by rewrite lookup_delete_eq in Hl|].
      rewrite lookup_delete_ne in Hl by done. by eapply Hother.
    + intros u cam Hl Hpb. rewrite Hp. destruct (decide (uid = u)) as [<-|Hne].
      * rewrite lookup_insert_eq in Hl. injection Hl as <-.
        destruct (Hcam0 Hpb) as [c Hc]. specialize (Hq1 uid c Hc).
        simpl in Hq1. unfold en in Hen. rewrite Hq1 in Hen. done.
      * rewrite lookup_insert_ne in Hl by done. rewrite lookup_delete_ne by done.
        by eapply Hq2.
Qed.

Lemma refreshLoop_flagSound hs ds idx next w next' w' :
  refreshLoop E hs idx ds next w = Done (next', w') →
  flagSound next w → flagSound next' w'.
Proof.
  revert idx next w. induction ds as [|d ds IH]; intros idx next w; simpl.
  - by intros [= <- <-].
  - destruct (refreshDevice E hs idx d next w) as [[n1 w1]|] eqn:Hd; simpl; [|done].
    intros Hl Hq. eapply IH; [exact Hl|]. by eapply refreshDevice_flagSound.
Qed.

Lemma Agree_flagSound w : Agree w → flagSound ∅ w.
Proof.
  intros [Hf Hreg]. split.
  - intros u c Hl. destruct (Hreg u c Hl) as (p & cam & _ & _ & Hc & Hen & _).
    rewrite <- Hen. by apply Hf.
  - intros u cam Hl. by rewrite lookup_empty in Hl.
Qed.

(** X9: after a reconciliation cycle the publishing flag of every camera
    of the table is accurate: it is set exactly when the live set has an
    entry for the camera's deviceUID. *)
Theorem cycle_publishing_flag_is_accurate devices w m :
  Reachable E w → state w = Some m →
  ∃ w', refreshCameras E devices w = Done w' ∧
        ∀ uid cam, cameras w' !! uid = Some cam →
                   (Publishing cam = true ↔ is_Some (publishers w' !! uid)).
Proof.
  intros HR Hst.
  destruct (refreshCameras_result E devices w m Hst)
    as (next & w1 & w2 & w' & Hl & Hw2 & Hr & Hcam & _ & _ & _ & Hpub & _).
  exists w'. split; [done|]. intros uid cam Hc. split.
  - intros Hp.
    destruct (refreshLoop_flagSound _ _ _ _ _ _ _ Hl
                (Agree_flagSound w (Reachable_Agree E w HR))) as [_ Hq2].
    rewrite Hcam in Hc. rewrite Hpub, Hw2.
    destruct (stopVanished_frame next (map_to_list (cameras w)).*1 w1)
      as (_&_&_&_&_&_&_&_&Hp2).
    rewrite Hp2. rewrite decide_False by (intros [_ ?]; congruence).
    by eapply Hq2.
  - intros [c Hreg].
    assert (Reachable E w') as HR' by (by eapply (reach_step E (Refresh devices))).
    destruct (Reachable_Agree E w' HR') as [_ Hb].
    destruct (Hb uid c Hreg) as (p & cam' & _ & _ & Hc' & _ & Hp').
    congruence.
Qed.

End PublishingFlag.

Lemma cycle_publishing_flag_is_accurate_witness :
  ∃ w', refreshCameras Ex.noStartEnv [Ex.video0] (Ex.started Ex.noStartEnv) = Done w' ∧
        ∀ uid cam, cameras w' !! uid = Some cam →
                   (Publishing cam = true ↔ is_Some (publishers w' !! uid)).
Proof.
  apply (cycle_publishing_flag_is_accurate Ex.noStartEnv [Ex.video0]
           (Ex.started Ex.noStartEnv) {[Ex.uid0 := true]}).
  - apply (reach_step Ex.noStartEnv (Refresh [Ex.video0]) (Ex.fresh Ex.noStartEnv));
      [apply reach_init|vm_compute; reflexivity].
  - vm_compute; reflexivity.
Defined.

(* ===================================================================== *)
(** ** [parseInt] and [getEnvDuration] *)
(* ===================================================================== *)

Module IntFacts.

Lemma wrap64_mod z : (wrap64 z `mod` 2 ^ 64 = z `mod` 2 ^ 64)%Z.
Proof.
  unfold wrap64.
  rewrite <- Zminus_mod_idemp_l, Z.mod_mod by lia.
  rewrite Zminus_mod_idemp_l. f_equal. lia.
Qed.

Lemma wrap64_eq a b : (a `mod` 2 ^ 64 = b `mod` 2 ^ 64)%Z → wrap64 a = wrap64 b.
Proof.
  intros H. unfold wrap64. f_equal.
  rewrite <- (Zplus_mod_idemp_l a), <- (Zplus_mod_idemp_l b). by rewrite H.
Qed.

Lemma wrap64_small z : (- 2 ^ 63 ≤ z < 2 ^ 63)%Z → wrap64 z = z.
Proof. intros H. unfold wrap64. rewrite Z.mod_small by lia. lia. Qed.

Lemma wrap64_step a d : wrap64 (wrap64 (wrap64 a * 10) + d) = wrap64 (a * 10 + d).
Proof.
  apply wrap64_eq.
  rewrite <- Zplus_mod_idemp_l, wrap64_mod, <- Zmult_mod_idemp_l, wrap64_mod.
  by rewrite Zmult_mod_idemp_l, Zplus_mod_idemp_l.
Qed.

Lemma digit_char d :
  (d < 10)%N →
  Str.isDigit (pretty_N_char d) = true ∧
  (Z.of_nat (Str.code (pretty_N_char d)) - 48 = Z.of_N d)%Z.
Proof.
  intros H.
  assert (d = 0 ∨ d = 1 ∨ d = 2 ∨ d = 3 ∨ d = 4 ∨ d = 5 ∨ d = 6 ∨ d = 7
          ∨ d = 8 ∨ d = 9)%N as Hd by lia.
  repeat destruct Hd as [->|Hd]; try subst d; by vm_compute.
Qed.

(** The loop reads the digits that [pretty] writes in front of [s]. *)
Lemma parseIntLoop_pretty x :
  ∀ s, ∃ k : Z, (0 ≤ k)%Z ∧ ∀ acc,
    parseIntLoop (wrap64 acc) (pretty_N_go x s)
    = parseIntLoop (wrap64 (acc * 10 ^ k + Z.of_N x)) s.
Proof.
  induction (N.lt_wf_0 x) as [x _ IH]. intros s.
  destruct (decide (x = 0%N)) as [->|Hx].
  - exists 0%Z. split; [done|]. intros acc. rewrite pretty_N_go_0. do 2 f_equal. lia.
  - rewrite pretty_N_go_step by lia.
    destruct (IH (x `div` 10)%N (N.div_lt x 10 ltac:(lia) eq_refl)
                (String (pretty_N_char (x `mod` 10)) s)) as (k & Hk & Hgo).
    exists (k + 1)%Z. split; [lia|]. intros acc. rewrite Hgo. simpl.
    destruct (digit_char (x `mod` 10)%N) as [-> ->]; [by apply N.mod_lt|].
    rewrite wrap64_step. f_equal. f_equal.
    rewrite Z.pow_add_r by lia.
    rewrite (N.div_mod x 10) at 3 by done.
    rewrite N2Z.inj_add, N2Z.inj_mul. change (Z.of_N 10) with 10%Z. lia.
Qed.

Lemma parseInt_pretty (n : N) : parseInt (pretty n) = Some (wrap64 (Z.of_N n)).
Proof.
  unfold pretty, pretty_N. case_decide as Hn; [by subst n|].
  destruct (parseIntLoop_pretty n "") as (k & _ & Hgo).
  unfold parseInt. change 0%Z with (wrap64 0) at 1. rewrite Hgo. simpl.
  do 2 f_equal.
Qed.

Lemma pretty_N_go_nonempty x : ∀ s, s ≠ "" → pretty_N_go x s ≠ "".
Proof.
  induction (N.lt_wf_0 x) as [x _ IH]. intros s Hs.
  destruct (decide (x = 0%N)) as [->|Hx]; [by rewrite pretty_N_go_0|].
  rewrite pretty_N_go_step by lia.
  apply IH; [by apply N.div_lt; lia|done].
Qed.

Lemma pretty_N_nonempty (n : N) : pretty n ≠ "".
Proof.
  unfold pretty, pretty_N. case_decide; [done|].
  rewrite pretty_N_go_step by lia. by apply pretty_N_go_nonempty.
Qed.

End IntFacts.

(** X10: [parseInt] reads what the decimal notation of a natural number
    writes, modulo 2^64: a number below 2^63 is read as itself, and a
    larger one wraps around instead of being refused. *)
Theorem parseInt_reads_decimal_modulo (n : N) :
  parseInt (pretty n) = Some (wrap64 (Z.of_N n))
  ∧ ((n < 2 ^ 63)%N → parseInt (pretty n) = Some (Z.of_N n)).
Proof.
  split; [apply IntFacts.parseInt_pretty|].
  intros H. rewrite IntFacts.parseInt_pretty, IntFacts.wrap64_small; [done|].
  change (2 ^ 63)%N with 9223372036854775808%N in H. lia.
Qed.

(** X11: a variable of the environment that holds the decimal notation of
    [n], which [time.ParseDuration] refuses for want of a unit, makes
    [getEnvDuration] return [n] milliseconds, as long as these fit into a
    [time.Duration]. *)
Theorem getEnvDuration_number_is_milliseconds parseDuration env key fallback (n : N) :
  LookupEnv env key = Some (pretty n) →
  parseDuration (pretty n) = None →
  (Z.of_N n * 1000000 < 2 ^ 63)%Z →
  getEnvDuration parseDuration env key fallback = (Z.of_N n * 1000000)%Z.
Proof.
  intros Hl Hd Hn. unfold getEnvDuration. rewrite Hl, Hd.
  rewrite IntFacts.parseInt_pretty.
  rewrite (IntFacts.wrap64_small (Z.of_N n)) by lia.
  rewrite IntFacts.wrap64_small by lia.
  case_decide as He; [|done].
  by apply IntFacts.pretty_N_nonempty in He.
Qed.

Lemma parseInt_reads_decimal_modulo_witness :
  parseInt "9223372036854775809" = Some (-9223372036854775807)%Z
  ∧ ((15000 < 2 ^ 63)%N → parseInt "15000" = Some 15000%Z).
Proof.
  exact (conj (proj1 (parseInt_reads_decimal_modulo 9223372036854775809))
              (proj2 (parseInt_reads_decimal_modulo 15000))).
Defined.

Lemma getEnvDuration_number_is_milliseconds_witness :
  getEnvDuration (λ _, None) {["DISCOVERY_INTERVAL_MS" := "15000"]}
    "DISCOVERY_INTERVAL_MS" 2000000000 = 15000000000%Z.
Proof.
  apply (getEnvDuration_number_is_milliseconds (λ _, None)
           {["DISCOVERY_INTERVAL_MS" := "15000"]} "DISCOVERY_INTERVAL_MS"
           2000000000 15000); [vm_compute; reflexivity|reflexivity|lia].
Defined.

(* ===================================================================== *)
(** ** Lines and blocks of text *)
(* ===================================================================== *)

Module TextFacts.
Import Strings Bufio.

#[local] Arguments Join : simpl never.

Lemma contains_app a b c : contains (a +:+ b) c = contains a c || contains b c.
Proof.
  induction a as [|x a IH]; [done|].
  rewrite StrFacts.app_cons. simpl. rewrite IH. by rewrite orb_assoc.
Qed.

(** *** [bufio.Scanner] *)

Lemma rawLines_noLF s : Forall (λ l, noLF l) (rawLines s).
Proof.
  induction s as [|c s IH]; simpl; [constructor|].
  destruct (Ascii.eqb c LF) eqn:Hc; [by constructor|].
  destruct (rawLines s) as [|x xs].
  - constructor; [|constructor]. simpl. by rewrite Hc.
  - inversion IH; subst. constructor; [|done]. simpl. by rewrite Hc.
Qed.

Lemma rawLines_line l rest :
  noLF l → rawLines (l +:+ String LF rest) = l :: rawLines rest.
Proof.
  induction l as [|c l IH]; intros Hl.
  - by rewrite StrFacts.app_nil_l.
  - rewrite StrFacts.app_cons. simpl in *.
    apply orb_false_iff in Hl as [Hc Hl]. rewrite Hc, IH by done. done.
Qed.

Lemma rawLines_last l : noLF l → l ≠ "" → rawLines l = [l].
Proof.
  induction l as [|c l IH]; intros Hl Hne; [done|]. simpl in *.
  apply orb_false_iff in Hl as [Hc Hl]. rewrite Hc.
  destruct l as [|c' l]; [done|]. by rewrite IH.
Qed.

Lemma dropCR_noLF l : noLF l → noLF (dropCR l).
Proof.
  induction l as [|c l IH]; [done|]. simpl. intros Hl.
  apply orb_false_iff in Hl as [Hc Hl].
  destruct l as [|c' l]; [by destruct (Ascii.eqb c CR); simpl; rewrite ?Hc|].
  change (contains (String c (dropCR (String c' l))) LF = false).
  simpl contains at 1. rewrite Hc. by apply IH.
Qed.

Lemma untilTooLong_sublist ls : (untilTooLong ls).1 `prefix_of` ls.
Proof.
  induction ls as [|l ls IH]; simpl; [done|].
  case_match; [apply prefix_nil|].
  destruct (untilTooLong ls) as [ls' e]. simpl in *. by apply prefix_cons.
Qed.

Lemma scan_lines input :
  (scan input).1 = dropCR <$> (untilTooLong (rawLines input)).1.
Proof. unfold scan. by destruct (untilTooLong _). Qed.

Lemma scan_noLF input : Forall (λ l, noLF l) (scan input).1.
Proof.
  rewrite scan_lines. apply Forall_fmap.
  destruct (untilTooLong_sublist (rawLines input)) as [k Hk].
  pose proof (rawLines_noLF input) as H. rewrite Hk in H.
  apply Forall_app in H as [H _].
  eapply Forall_impl; [exact H|]. intros l. by apply dropCR_noLF.
Qed.

(** *** [strings.Split] and [strings.Join] on lines *)

Lemma Split_noLF l : noLF l → Split l LF = [l].
Proof.
  induction l as [|c l IH]; [done|]. simpl. intros Hl.
  apply orb_false_iff in Hl as [Hc Hl]. by rewrite Hc, IH.
Qed.

Lemma Split_line l rest :
  noLF l → Split (l +:+ String LF rest) LF = l :: Split rest LF.
Proof.
  induction l as [|c l IH]; intros Hl.
  - by rewrite StrFacts.app_nil_l.
  - rewrite StrFacts.app_cons. simpl in *.
    apply orb_false_iff in Hl as [Hc Hl]. by rewrite Hc, IH.
Qed.

Lemma Split_Join ls :
  ls ≠ [] → Forall (λ l, noLF l) ls → Split (Join ls (String LF "")) LF = ls.
Proof.
  induction ls as [|l ls IH]; [done|]. intros _ Hls.
  inversion Hls as [|? ? Hl Hls']; subst.
  destruct ls as [|l' ls]; [by apply Split_noLF|].
  change (Join (l :: l' :: ls) (String LF ""))
    with (l +:+ String LF "" +:+ Join (l' :: ls) (String LF "")).
  rewrite StrFacts.app_cons, StrFacts.app_nil_l.
  rewrite Split_line by done. by rewrite IH.
Qed.

(** *** [splitBlocks] *)

Lemma splitBlocksLoop_lines lines : ∀ current,
  Forall (λ l, noLF l) (current ++ lines) →
  (splitBlocksLoop lines current ≫= λ b, Split b LF)
  = current ++ filter (λ l, TrimSpace l ≠ "") lines.
Proof.
  induction lines as [|line rest IH]; intros current Hall.
  - rewrite app_nil_r in *. destruct current as [|l ls]; [done|].
    simpl. rewrite app_nil_r. by apply Split_Join.
  - simpl. destruct (String.eqb (TrimSpace line) "") eqn:Hb.
    + apply String.eqb_eq in Hb.
      rewrite filter_cons_False by (intros ?; done).
      apply Forall_app in Hall as [Hc Hr]. inversion Hr; subst.
      destruct current as [|l ls].
      * apply IH. done.
      * change (Split (Join (l :: ls) (String LF "")) LF
                ++ (splitBlocksLoop rest [] ≫= λ b, Split b LF)
                = (l :: ls) ++ filter (λ l, TrimSpace l ≠ "") rest).
        rewrite Split_Join by done. f_equal. by apply IH.
    + apply String.eqb_neq in Hb.
      rewrite filter_cons_True by done.
      rewrite IH by (by rewrite <- app_assoc).
      by rewrite <- app_assoc.
Qed.

Lemma splitBlocks_lines input :
  (splitBlocks input ≫= λ b, Split b LF)
  = filter (λ l, TrimSpace l ≠ "") (scan input).1.
Proof.
  unfold splitBlocks. rewrite splitBlocksLoop_lines; [done|].
  apply scan_noLF.
Qed.

(** Every block is made of lines of the input that are not blank, and has
    at least one. *)
Lemma splitBlocksLoop_blocks lines : ∀ current,
  Forall (λ l, noLF l) (current ++ lines) →
  Forall (λ l, TrimSpace l ≠ "") current →
  Forall (λ b, ∃ l ls, Split b LF = l :: ls ∧
                       Forall (λ x, x ∈ current ++ lines ∧ TrimSpace x ≠ "") (l :: ls))
         (splitBlocksLoop lines current).
Proof.
  induction lines as [|line rest IH]; intros current Hall Hcur.
  - rewrite app_nil_r in *. destruct current as [|l ls]; [constructor|].
    constructor; [|constructor]. exists l, ls. split; [by apply Split_Join|].
    apply Forall_forall. intros x Hx. split; [done|].
    by eapply (proj1 (Forall_forall _ _) Hcur).
  - simpl. destruct (String.eqb (TrimSpace line) "") eqn:Hb.
    + pose proof Hall as Hall'.
      apply Forall_app in Hall' as [Hc Hr]. inversion Hr; subst.
      assert (Forall (λ b, ∃ l ls, Split b LF = l :: ls ∧
                Forall (λ x, x ∈ current ++ line :: rest ∧ TrimSpace x ≠ "") (l :: ls))
                (splitBlocksLoop rest [])) as Hrest.
      { eapply Forall_impl; [apply (IH []); [done|constructor]|].
        intros b (l & ls & Hs & Hin). exists l, ls. split; [done|].
        eapply Forall_impl; [exact Hin|]. intros x [Hx ?]. split; [|done].
        apply elem_of_app. right. by apply elem_of_cons; right. }
      destruct current as [|l ls]; [done|].
      constructor; [|done]. exists l, ls. split; [by apply Split_Join|].
      apply Forall_forall. intros x Hx. split.
      * apply elem_of_app. by left.
      * by eapply (proj1 (Forall_forall _ _) Hcur).
    + apply String.eqb_neq in Hb.
      eapply Forall_impl; [apply (IH (current ++ [line]))|].
      * by rewrite <- app_assoc.
      * apply Forall_app. split; [done|]. by constructor.
      * simpl. intros b (l & ls & Hs & Hin). exists l, ls. split; [done|].
        by rewrite <- app_assoc in Hin.
Qed.

(** *** [parseV4L2Output] *)

Lemma scanBlock_result lines : ∀ name n node,
  scanBlock lines name = (n, node) → node ≠ "" →
  (name ≠ "" → n = name) ∧
  n ≠ "" ∧ HasPrefix node "/dev/video" = true ∧
  (∃ l, l ∈ lines ∧ node = TrimSpace l) ∧
  (n = name ∨ ∃ l, l ∈ lines ∧ n = TrimSuffix (TrimSpace l) ":").
Proof.
  induction lines as [|line rest IH]; intros name n node; simpl.
  - by intros [= <- <-].
  - assert (∀ name', scanBlock rest name' = (n, node) → node ≠ "" →
              (name ≠ "" → name' = name) →
              (name' = name ∨ name' = TrimSuffix (TrimSpace line) ":") →
              (name ≠ "" → n = name) ∧
              n ≠ "" ∧ HasPrefix node "/dev/video" = true ∧
              (∃ l, l ∈ line :: rest ∧ node = TrimSpace l) ∧
              (n = name ∨ ∃ l, l ∈ line :: rest ∧ n = TrimSuffix (TrimSpace l) ":"))
      as Hrec.
    { intros name' Hs Hn Hkeep Hname.
      destruct (IH name' n node Hs Hn) as (H0 & H1 & H2 & (l & Hl & H3) & H4).
      split.
      { intros Hne. specialize (Hkeep Hne). subst name'. by apply H0. }
      split; [done|]. split; [done|]. split.
      - exists l. split; [by apply elem_of_cons; right|done].
      - destruct H4 as [->|(l' & Hl' & ->)].
        + destruct Hname as [-> | ->]; [by left|].
          right. exists line. split; [by apply elem_of_cons; left|done].
        + right. exists l'. split; [by apply elem_of_cons; right|done]. }
    destruct (String.eqb (TrimSpace line) "") eqn:Hb.
    { intros Hs Hn. apply (Hrec name Hs Hn); [done|by left]. }
    destruct (String.eqb name "") eqn:Hnm.
    { apply String.eqb_eq in Hnm. intros Hs Hn.
      apply (Hrec _ Hs Hn); [done|by right]. }
    apply String.eqb_neq in Hnm.
    destruct (HasPrefix (TrimSpace line) "/dev/video") eqn:Hp.
    + intros [= <- <-] _. split; [done|]. split; [done|]. split; [done|].
      split; [|by left]. exists line. split; [by apply elem_of_cons; left|done].
    + intros Hs Hn. apply (Hrec name Hs Hn); [done|by left].
Qed.

Lemma parseBlock_device block d :
  d ∈ parseBlock block →
  devName d ≠ "" ∧ HasPrefix (devNode d) "/dev/video" = true ∧
  (∃ l, l ∈ Split block LF ∧ devNode d = TrimSpace l) ∧
  (∃ l, l ∈ Split block LF ∧ devName d = TrimSuffix (TrimSpace l) ":").
Proof.
  unfold parseBlock.
  destruct (scanBlock (Split block LF) "") as [name node] eqn:Hs.
  destruct (String.eqb node "") eqn:Hn; [by intros ?%elem_of_nil|].
  apply String.eqb_neq in Hn.
  intros Hd. apply elem_of_cons in Hd as [->|?%elem_of_nil]; [|done]. simpl.
  destruct (scanBlock_result _ _ _ _ Hs Hn) as (_ & H1 & H2 & H3 & [->|H4]); done.
Qed.

Lemma parseV4L2Output_device output d :
  d ∈ parseV4L2Output output →
  devName d ≠ "" ∧ HasPrefix (devNode d) "/dev/video" = true ∧
  (∃ l, l ∈ (scan output).1 ∧ devNode d = TrimSpace l) ∧
  (∃ l, l ∈ (scan output).1 ∧ devName d = TrimSuffix (TrimSpace l) ":").
Proof.
  unfold parseV4L2Output. intros (b & Hd & Hb)%list_elem_of_bind.
  destruct (parseBlock_device b d Hd) as (H1 & H2 & (l & Hl & H3) & (l' & Hl' & H4)).
  assert (∀ x, x ∈ Split b LF → x ∈ (scan output).1) as Hin.
  { intros x Hx.
    assert (x ∈ (splitBlocks output ≫= λ b, Split b LF)) as Hx'
      by (apply list_elem_of_bind; eauto).
    rewrite splitBlocks_lines in Hx'. by apply list_elem_of_filter in Hx' as [_ ?]. }
  split; [done|]. split; [done|]. split; eauto.
Qed.

End TextFacts.

(* ===================================================================== *)
(** ** Trimming text that starts and ends with a graphic character *)
(* ===================================================================== *)

Module ShapeFacts.
Import Strings Bufio Shape.

Lemma graphic_code c : isGraphic c = true → (33 ≤ Str.code c ≤ 126)%nat.
Proof.
  unfold isGraphic. intros [H1 H2]%andb_true_iff.
  apply Nat.leb_le in H1, H2. lia.
Qed.

Lemma graphic_not_space c : isGraphic c = true → isAsciiSpace c = false.
Proof.
  intros H%graphic_code. unfold isAsciiSpace.
  destruct (Nat.leb_spec 9 (Str.code c)), (Nat.leb_spec (Str.code c) 13),
    (Nat.eqb_spec (Str.code c) 32); simpl; try done; try lia.
Qed.

Lemma isSpace2_low_l a b : (a ≤ 126)%nat → isSpace2 a b = false.
Proof. intros H. unfold isSpace2. destruct (Nat.eqb_spec a 194); try lia. all: done. Qed.

Lemma isSpace2_low_r a b : (b ≤ 126)%nat → isSpace2 a b = false.
Proof.
  intros H. unfold isSpace2.
  destruct (Nat.eqb_spec b 133), (Nat.eqb_spec b 160); try lia.
  all: by rewrite ?andb_false_r.
Qed.

Lemma isSpace3_low_l a b c : (a ≤ 126)%nat → isSpace3 a b c = false.
Proof.
  intros H. unfold isSpace3.
  destruct (Nat.eqb_spec a 225), (Nat.eqb_spec a 226), (Nat.eqb_spec a 227);
    try lia.
  all: done.
Qed.

Lemma isSpace3_low_r a b c : (c ≤ 126)%nat → isSpace3 a b c = false.
Proof.
  intros H. unfold isSpace3.
  destruct (Nat.eqb_spec c 128), (Nat.eqb_spec c 168), (Nat.eqb_spec c 169),
    (Nat.eqb_spec c 175), (Nat.eqb_spec c 159), (Nat.leb_spec 128 c); try lia.
  all: simpl; by rewrite ?andb_false_r.
Qed.

Lemma dropSpaces_graphic back a r :
  isGraphic a = true → dropSpaces back (String a r) = String a r.
Proof.
  intros Ha. pose proof (graphic_code a Ha) as Hc. simpl.
  rewrite (graphic_not_space a Ha).
  destruct r as [|b r1]; [done|].
  destruct back.
  - rewrite isSpace2_low_r by lia. destruct r1 as [|c r2]; [done|].
    by rewrite isSpace3_low_r by lia.
  - rewrite isSpace2_low_l by lia. destruct r1 as [|c r2]; [done|].
    by rewrite isSpace3_low_l by lia.
Qed.

(** *** Reversal *)

Lemma rev_app_eq s : ∀ t, String.rev_app s t = String.rev s +:+ t.
Proof.
  induction s as [|c s IH]; intros t; [done|].
  unfold String.rev. simpl. rewrite (IH (String c t)), (IH (String c "")).
  by rewrite StrFacts.app_assoc.
Qed.

Lemma rev_cons c s : String.rev (String c s) = String.rev s +:+ String c "".
Proof. unfold String.rev at 1. simpl. by rewrite rev_app_eq. Qed.

Lemma rev_snoc s c : String.rev (s +:+ String c "") = String c (String.rev s).
Proof.
  induction s as [|x s IH]; [done|].
  rewrite StrFacts.app_cons, !rev_cons, IH. by rewrite StrFacts.app_cons.
Qed.

Lemma rev_involutive s : String.rev (String.rev s) = s.
Proof.
  induction s as [|c s IH]; [done|]. by rewrite rev_cons, rev_snoc, IH.
Qed.

Lemma lastByte_snoc s z : lastByte s = Some z → ∃ i, s = i +:+ String z "".
Proof.
  induction s as [|c s IH]; [done|]. simpl.
  destruct s as [|c' s].
  - intros [= ->]. by exists "".
  - intros H. destruct (IH H) as [i Hi]. exists (String c i).
    by rewrite StrFacts.app_cons, <- Hi.
Qed.

Lemma lastByte_cons r : ∀ a, is_Some (lastByte (String a r)).
Proof.
  induction r as [|b r IH]; intros a; [by eexists|].
  change (is_Some (lastByte (String b r))). apply IH.
Qed.

Lemma lastByte_app a b : b ≠ "" → lastByte (a +:+ b) = lastByte b.
Proof.
  intros Hb. induction a as [|c a IH]; [done|].
  rewrite StrFacts.app_cons. simpl. rewrite IH.
  destruct (a +:+ b) eqn:He; [|done].
  destruct a; [by rewrite StrFacts.app_nil_l in He|by rewrite StrFacts.app_cons in He].
Qed.

(** [strings.TrimSpace] leaves such a string as it is. *)
Lemma TrimSpace_graphic s : graphicEnds s = true → TrimSpace s = s.
Proof.
  unfold graphicEnds. destruct s as [|a r]; [done|].
  destruct (lastByte (String a r)) as [z|] eqn:Hz; [|done].
  intros [Ha Hzg]%andb_true_iff. unfold TrimSpace.
  rewrite dropSpaces_graphic by done.
  destruct (lastByte_snoc _ _ Hz) as [i Hi]. rewrite Hi at 1.
  rewrite rev_snoc, dropSpaces_graphic by done.
  by rewrite <- rev_snoc, <- Hi, rev_involutive.
Qed.

Lemma TrimSpace_empty : TrimSpace "" = "".
Proof. done. Qed.

(** A tab in front goes away. *)
Lemma TrimSpace_tab s : graphicEnds s = true → TrimSpace (TAB +:+ s) = s.
Proof.
  intros Hs. rewrite <- (TrimSpace_graphic s Hs) at 2.
  unfold TrimSpace. do 3 f_equal.
Qed.

Lemma graphicEnds_nonempty s : graphicEnds s = true → s ≠ "".
Proof. by destruct s. Qed.

Lemma graphicEnds_app3 a b :
  graphicEnds a = true → graphicEnds b = true →
  ∀ m, graphicEnds (a +:+ m +:+ b) = true.
Proof.
  intros Ha Hb m. assert (b ≠ "") as Hne by (by destruct b).
  unfold graphicEnds in *. destruct a as [|x a]; [done|].
  rewrite StrFacts.app_cons. cbv beta iota.
  rewrite <- (StrFacts.app_cons x a (m +:+ b)).
  rewrite (lastByte_app (String x a)) by (by apply StrFacts.app_not_nil_r).
  rewrite lastByte_app by done.
  destruct (lastByte (String x a)); [|done].
  apply andb_true_iff in Ha as [-> _]. destruct b as [|y b]; [done|].
  destruct (lastByte (String y b)); [|done].
  by apply andb_true_iff in Hb as [_ ->].
Qed.

Lemma graphicEnds_app a b :
  graphicEnds a = true → graphicEnds b = true → graphicEnds (a +:+ b) = true.
Proof.
  intros Ha Hb. pose proof (graphicEnds_app3 a b Ha Hb "") as H.
  by rewrite StrFacts.app_nil_l in H.
Qed.

(** *** The Scanner on such lines *)

Lemma dropCR_last s : ∀ z, lastByte s = Some z → isGraphic z = true → dropCR s = s.
Proof.
  induction s as [|a r IH]; [done|]. intros z Hz Hg. destruct r as [|b r].
  - simpl in *. injection Hz as ->.
    destruct (Ascii.eqb z CR) eqn:He; [|done].
    apply Ascii.eqb_eq in He. by subst z.
  - change (String a (dropCR (String b r)) = String a (String b r)).
    f_equal. by apply (IH z).
Qed.

Lemma dropCR_graphic s : graphicEnds s = true → dropCR s = s.
Proof.
  unfold graphicEnds. destruct s as [|a r]; [done|].
  destruct (lastByte (String a r)) as [z|] eqn:Hz; [|done].
  intros [_ Hg]%andb_true_iff. by apply (dropCR_last _ z).
Qed.

Lemma graphicEnds_last s : graphicEnds s = true → ∃ z, lastByte s = Some z ∧ isGraphic z = true.
Proof.
  unfold graphicEnds. destruct s as [|a r]; [done|].
  destruct (lastByte (String a r)) as [z|]; [|done].
  intros [_ Hg]%andb_true_iff. eauto.
Qed.

Lemma scan_line l rest :
  contains l LF = false → scannable l = true →
  scan (l +:+ String LF rest) = (dropCR l :: (scan rest).1, (scan rest).2).
Proof.
  intros Hl Hs. unfold scan. rewrite TextFacts.rawLines_line by done. simpl.
  unfold scannable in Hs. apply N.ltb_lt in Hs.
  destruct (N.leb_spec MaxScanTokenSize (N.of_nat (String.length l))); [lia|].
  by destruct (untilTooLong (rawLines rest)) as [ls e].
Qed.

Lemma oneLine_noLF s : oneLine s = true → contains s LF = false.
Proof. unfold oneLine. intros [H _]%andb_true_iff. by apply negb_true_iff. Qed.

Lemma oneLine_noNUL s : oneLine s = true → contains s (ascii_of_nat 0) = false.
Proof. unfold oneLine. intros [_ H]%andb_true_iff. by apply negb_true_iff. Qed.

End ShapeFacts.

(* ===================================================================== *)
(** ** The file [.env] and the environment *)
(* ===================================================================== *)

Module EnvFacts.
Import Strings Bufio Shape.

Lemma Setenv_keeps env key value k v :
  env !! key = None → env !! k = Some v →
  default env (Setenv env key value) !! k = Some v.
Proof.
  intros Hnone Hk. unfold Setenv. case_decide; [done|].
  case_match; [done|]. simpl.
  rewrite lookup_insert_ne; [done|]. intros ->. congruence.
Qed.

Lemma dotEnvLine_keeps env text k v :
  env !! k = Some v → dotEnvLine env text !! k = Some v.
Proof.
  intros Hk. unfold dotEnvLine.
  destruct (_ || _); [done|].
  destruct (SplitN2 _ _) as [|k0 [|v0 [|? ?]]]; try done.
  case_decide as Hkey; [done|].
  destruct (LookupEnv env _) eqn:Hl; [done|].
  unfold LookupEnv in Hl. rewrite decide_False in Hl by done.
  by apply Setenv_keeps.
Qed.

Lemma foldl_dotEnvLine_keeps lines : ∀ env k v,
  env !! k = Some v → foldl dotEnvLine env lines !! k = Some v.
Proof.
  induction lines as [|l ls IH]; intros env k v Hk; [done|].
  simpl. apply IH. by apply dotEnvLine_keeps.
Qed.

Lemma loadDotEnv_keeps file env k v :
  env !! k = Some v → (loadDotEnv file env).1 !! k = Some v.
Proof.
  intros Hk. unfold loadDotEnv. destruct file as [data|]; [|done].
  destruct (scan data) as [lines e]. simpl. by apply foldl_dotEnvLine_keeps.
Qed.

(** *** Names *)

Lemma nameChar_code c :
  isNameChar c = true →
  (48 ≤ Str.code c ≤ 57 ∨ 65 ≤ Str.code c ≤ 90 ∨ Str.code c = 95
   ∨ 97 ≤ Str.code c ≤ 122)%nat.
Proof.
  unfold isNameChar, Str.isUpper, Str.isLower, Str.isDigit.
  rewrite !orb_true_iff, !andb_true_iff, !Nat.leb_le, Nat.eqb_eq. lia.
Qed.

Lemma nameChar_graphic c : isNameChar c = true → isGraphic c = true.
Proof.
  intros H%nameChar_code. unfold isGraphic.
  apply andb_true_iff. rewrite !Nat.leb_le. lia.
Qed.

Lemma nameChar_neq c x :
  isNameChar c = true → isNameChar x = false → Ascii.eqb c x = false.
Proof. intros Hc Hx. apply Ascii.eqb_neq. intros ->. congruence. Qed.

Lemma allName_contains s x : allName s = true → isNameChar x = false → contains s x = false.
Proof.
  intros Hs Hx. induction s as [|c s IH]; [done|]. simpl in *.
  apply andb_true_iff in Hs as [Hc Hs]. by rewrite (nameChar_neq c x), IH.
Qed.

Lemma allName_last s z : allName s = true → lastByte s = Some z → isNameChar z = true.
Proof.
  induction s as [|c s IH]; [done|]. simpl.
  intros [Hc Hs]%andb_true_iff. destruct s as [|c' s]; [by intros [= <-]|].
  by apply IH.
Qed.

Lemma isName_graphic s : isName s = true → graphicEnds s = true.
Proof.
  unfold isName, graphicEnds. intros [Hne Hall]%andb_true_iff.
  destruct s as [|a r]; [done|].
  destruct (ShapeFacts.lastByte_cons r a) as [z Hz]. rewrite Hz.
  rewrite (nameChar_graphic z) by (by eapply allName_last).
  simpl in Hall. apply andb_true_iff in Hall as [Ha _].
  by rewrite (nameChar_graphic a).
Qed.

Lemma isName_nonempty s : isName s = true → s ≠ "".
Proof. by destruct s. Qed.

Lemma isName_contains s x : isName s = true → isNameChar x = false → contains s x = false.
Proof. intros [_ H]%andb_true_iff. by apply allName_contains. Qed.

(** *** Cutting and trimming *)

Lemma SplitN2_cut key raw (sep : ascii) :
  contains key sep = false → SplitN2 (key +:+ String sep raw) sep = [key; raw].
Proof.
  induction key as [|c key IH]; intros Hk.
  - rewrite StrFacts.app_nil_l. simpl. by rewrite Ascii.eqb_refl.
  - rewrite StrFacts.app_cons. simpl in *.
    apply orb_false_iff in Hk as [Hc Hk]. by rewrite Hc, IH.
Qed.

Lemma TrimLeft_contains s cut x : contains s x = false → contains (TrimLeft s cut) x = false.
Proof.
  induction s as [|c s IH]; [done|]. intros Hs. simpl.
  case_bool_decide; [|done]. apply IH. simpl in Hs.
  by apply orb_false_iff in Hs as [_ ?].
Qed.

Lemma TrimRight_contains s cut x : contains s x = false → contains (TrimRight s cut) x = false.
Proof.
  induction s as [|c s IH]; [done|]. intros Hs. simpl in *.
  apply orb_false_iff in Hs as [Hc Hs]. specialize (IH Hs).
  destruct (TrimRight s cut) as [|c' r'].
  - case_bool_decide; [done|]. simpl. by rewrite Hc.
  - simpl in *. by rewrite Hc, IH.
Qed.

Lemma Trim_contains s cut x : contains s x = false → contains (Trim s cut) x = false.
Proof. intros H. by apply TrimRight_contains, TrimLeft_contains. Qed.

(** *** A line that defines a variable *)

Lemma dotEnvLine_defines env key raw :
  isName key = true → graphicEnds raw = true →
  contains raw (ascii_of_nat 0) = false → env !! key = None →
  dotEnvLine env (key +:+ "=" +:+ raw)
  = <[key := Trim raw [ascii_of_nat 34; ascii_of_nat 39]]> env.
Proof.
  intros Hkey Hraw Hnul Hnone. unfold dotEnvLine.
  pose proof (isName_graphic key Hkey) as Hkg.
  rewrite (ShapeFacts.TrimSpace_graphic (key +:+ "=" +:+ raw))
    by (by apply ShapeFacts.graphicEnds_app3).
  assert (String.eqb (key +:+ "=" +:+ raw) "" = false) as ->.
  { apply String.eqb_neq. by destruct key. }
  assert (HasPrefix (key +:+ "=" +:+ raw) "#" = false) as ->.
  { unfold HasPrefix. destruct key as [|c key]; [done|].
    rewrite StrFacts.app_cons.
    change (String.prefix "#" (String c (key +:+ "=" +:+ raw)))
      with (if ascii_dec "#" c then String.prefix "" (key +:+ "=" +:+ raw) else false).
    destruct (ascii_dec "#" c) as [<-|]; [|done].
    apply andb_true_iff in Hkey as [_ Hall]. by simpl in Hall. }
  simpl orb. cbv iota.
  change ("=" +:+ raw) with (String "=" raw).
  rewrite SplitN2_cut by (by apply isName_contains).
  rewrite !ShapeFacts.TrimSpace_graphic by done.
  rewrite decide_False by (by apply isName_nonempty).
  unfold LookupEnv. rewrite decide_False by (by apply isName_nonempty).
  rewrite Hnone. unfold Setenv.
  rewrite decide_False by (by apply isName_nonempty).
  rewrite !(isName_contains key) by done.
  by rewrite Trim_contains.
Qed.

End EnvFacts.

(** X15: [loadDotEnv] never changes a variable that the environment of
    the process already has, whatever the file holds. *)
Theorem loadDotEnv_keeps_the_environment file env key value :
  env !! key = Some value → (loadDotEnv file env).1 !! key = Some value.
Proof. apply EnvFacts.loadDotEnv_keeps. Qed.

(** X16: a variable that the environment has is read by [getEnv] and
    [getEnvDuration] after [loadDotEnv] as before it.  So a variable that
    is exported with an empty value gives the fallback, and the value of
    the file for it is never used. *)
Theorem environment_hides_dotenv file env key parseDuration fallback fallbackDuration :
  is_Some (env !! key) →
  getEnv (loadDotEnv file env).1 key fallback = getEnv env key fallback
  ∧ getEnvDuration parseDuration (loadDotEnv file env).1 key fallbackDuration
    = getEnvDuration parseDuration env key fallbackDuration
  ∧ (env !! key = Some "" → getEnv (loadDotEnv file env).1 key fallback = fallback).
Proof.
  intros [v Hv].
  pose proof (EnvFacts.loadDotEnv_keeps file env key v Hv) as Hk.
  assert (LookupEnv (loadDotEnv file env).1 key = LookupEnv env key) as Hl.
  { unfold LookupEnv. case_decide; [done|]. by rewrite Hk, Hv. }
  unfold getEnv, getEnvDuration. rewrite Hl. split; [done|]. split; [done|].
  intros He. unfold LookupEnv. case_decide; [done|]. by rewrite He.
Qed.

(** X17: a line [NAME=text] of the file, for a name of letters, digits
    and underscores that the environment does not have yet and a text
    that starts and ends with a graphic character, defines the variable
    as the text without the quotes around it; the rest of the file is
    read in the environment that has it. *)
Theorem dotenv_line_defines_variable env key raw rest :
  Shape.isName key = true → Shape.graphicEnds raw = true → Shape.oneLine raw = true →
  Shape.scannable (key +:+ "=" +:+ raw) = true → env !! key = None →
  loadDotEnv (Some (key +:+ "=" +:+ raw +:+ Shape.NL +:+ rest)) env
  = loadDotEnv (Some rest)
      (<[key := Strings.Trim raw [ascii_of_nat 34; ascii_of_nat 39]]> env).
Proof.
  intros Hkey Hraw Hone Hscan Hnone. unfold loadDotEnv.
  pose proof (EnvFacts.isName_graphic key Hkey) as Hkg.
  replace (key +:+ "=" +:+ raw +:+ Shape.NL +:+ rest)
    with ((key +:+ "=" +:+ raw) +:+ String Bufio.LF rest)
    by (by rewrite !StrFacts.app_assoc).
  rewrite ShapeFacts.scan_line; [|..|done].
  - rewrite ShapeFacts.dropCR_graphic by (by apply ShapeFacts.graphicEnds_app3).
    destruct (Bufio.scan rest) as [lines e]. simpl.
    rewrite EnvFacts.dotEnvLine_defines; try done.
    by apply ShapeFacts.oneLine_noNUL.
  - rewrite !TextFacts.contains_app. rewrite (EnvFacts.isName_contains key) by done.
    by rewrite (ShapeFacts.oneLine_noLF raw).
Qed.

Lemma loadDotEnv_keeps_the_environment_witness :
  (loadDotEnv (Some "AUTH_TOKEN=fromfile") {["AUTH_TOKEN" := "exported"]}).1
    !! "AUTH_TOKEN" = Some "exported".
Proof.
  apply (loadDotEnv_keeps_the_environment (Some "AUTH_TOKEN=fromfile")
           {["AUTH_TOKEN" := "exported"]} "AUTH_TOKEN" "exported").
  vm_compute; reflexivity.
Defined.

Lemma environment_hides_dotenv_witness :
  getEnv (loadDotEnv (Some "CAMHUB_URL=http://hub:3001") {["CAMHUB_URL" := ""]}).1
    "CAMHUB_URL" "http://localhost:3001" = "http://localhost:3001".
Proof.
  apply (environment_hides_dotenv (Some "CAMHUB_URL=http://hub:3001")
           {["CAMHUB_URL" := ""]} "CAMHUB_URL" (λ _, None) "http://localhost:3001" 0%Z).
  - exists "". vm_compute; reflexivity.
  - vm_compute; reflexivity.
Defined.

Lemma dotenv_line_defines_variable_witness :
  loadDotEnv (Some ("FFMPEG_PATH" +:+ "=" +:+ "'/opt/ff mpeg'" +:+ Shape.NL
                    +:+ "FFMPEG_PATH=ffmpeg")) ∅
  = loadDotEnv (Some "FFMPEG_PATH=ffmpeg")
      (<["FFMPEG_PATH" := Strings.Trim "'/opt/ff mpeg'" [ascii_of_nat 34; ascii_of_nat 39]]> ∅).
Proof.
  apply (dotenv_line_defines_variable ∅ "FFMPEG_PATH" "'/opt/ff mpeg'" "FFMPEG_PATH=ffmpeg");
    vm_compute; reflexivity.
Defined.

(* ===================================================================== *)
(** ** Reading a listing of [v4l2-ctl] *)
(* ===================================================================== *)

Module ListingFacts.
Import Strings Bufio Shape.

#[local] Arguments Join : simpl never.

Lemma forallb_Forall {A} (f : A → bool) l :
  forallb f l = true → Forall (λ x, f x = true) l.
Proof.
  induction l as [|x l IH]; [constructor|]. simpl.
  intros [Hx Hl]%andb_true_iff. constructor; auto.
Qed.

Lemma listable_inv d :
  listable d = true →
  graphicEnds d.1 = true ∧ oneLine d.1 = true ∧ scannable (d.1 +:+ ":") = true ∧
  Forall (λ node, nodeOk node = true) d.2 ∧
  ∃ node nodes, d.2 = node :: nodes ∧ HasPrefix node "/dev/video" = true.
Proof.
  unfold listable. rewrite !andb_true_iff. intros [[[[H1 H2] H3] H4] H5].
  do 3 (split; [done|]). split; [by apply forallb_Forall|].
  destruct d.2 as [|node nodes]; [done|]. eauto.
Qed.

Lemma nodeOk_inv node :
  nodeOk node = true →
  graphicEnds node = true ∧ contains node LF = false ∧ scannable (TAB +:+ node) = true.
Proof.
  unfold nodeOk. rewrite !andb_true_iff. intros [[H1 H2] H3].
  split; [done|]. split; [by apply ShapeFacts.oneLine_noLF|done].
Qed.

Lemma name_line name :
  graphicEnds name = true →
  graphicEnds (name +:+ ":") = true.
Proof. intros H. by apply ShapeFacts.graphicEnds_app. Qed.

Lemma node_line node :
  graphicEnds node = true → dropCR (TAB +:+ node) = TAB +:+ node.
Proof.
  intros (z & Hz & Hg)%ShapeFacts.graphicEnds_last.
  apply (ShapeFacts.dropCR_last _ z); [|done].
  rewrite ShapeFacts.lastByte_app; [done|]. by destruct node.
Qed.

(** *** What the Scanner reads *)

Lemma scan_nodes nodes tail :
  Forall (λ node, nodeOk node = true) nodes →
  scan (foldr (λ node rest, TAB +:+ node +:+ NL +:+ rest) NL nodes +:+ tail)
  = (((λ node, TAB +:+ node) <$> nodes) ++ "" :: (scan tail).1, (scan tail).2).
Proof.
  induction 1 as [|node nodes Hn _ IH].
  - simpl foldr. change (NL +:+ tail) with ("" +:+ String LF tail).
    by rewrite ShapeFacts.scan_line.
  - simpl foldr. destruct (nodeOk_inv node Hn) as (Hg & Hlf & Hsc).
    replace ((TAB +:+ node +:+ NL +:+ foldr (λ node rest, TAB +:+ node +:+ NL +:+ rest) NL nodes)
             +:+ tail)
      with ((TAB +:+ node) +:+ String LF
              (foldr (λ node rest, TAB +:+ node +:+ NL +:+ rest) NL nodes +:+ tail))
      by (by rewrite !StrFacts.app_assoc).
    rewrite ShapeFacts.scan_line; [|by rewrite TextFacts.contains_app, Hlf|done].
    by rewrite IH, node_line.
Qed.

Lemma scan_listing ds :
  Forall (λ d, listable d = true) ds →
  scan (listing ds) = (ds ≫= (λ d, deviceLines d ++ [""]), false).
Proof.
  induction 1 as [|d ds Hd _ IH]; [done|].
  destruct (listable_inv d Hd) as (Hg & Hone & Hsc & Hnodes & _).
  change (listing (d :: ds)) with (listedDevice d +:+ listing ds).
  unfold listedDevice.
  replace ((d.1 +:+ ":" +:+ NL +:+ foldr (λ node rest, TAB +:+ node +:+ NL +:+ rest) NL d.2)
           +:+ listing ds)
    with ((d.1 +:+ ":") +:+ String LF
            (foldr (λ node rest, TAB +:+ node +:+ NL +:+ rest) NL d.2 +:+ listing ds))
    by (by rewrite !StrFacts.app_assoc).
  rewrite ShapeFacts.scan_line;
    [|by rewrite TextFacts.contains_app, (ShapeFacts.oneLine_noLF _ Hone)|done].
  rewrite scan_nodes, IH by done.
  rewrite ShapeFacts.dropCR_graphic by (by apply name_line).
  rewrite bind_cons. unfold deviceLines at 2. simpl.
  by rewrite <- app_assoc.
Qed.

(** *** The blocks *)

Lemma splitBlocksLoop_block ls : ∀ rest current,
  Forall (λ l, TrimSpace l ≠ "") ls → current ++ ls ≠ [] →
  splitBlocksLoop (ls ++ "" :: rest) current
  = Join (current ++ ls) (String LF "") :: splitBlocksLoop rest [].
Proof.
  induction ls as [|l ls IH]; intros rest current Hls Hne.
  - rewrite app_nil_r in *. simpl. by destruct current.
  - inversion Hls as [|? ? Hl Hls']; subst.
    apply String.eqb_neq in Hl. simpl. rewrite Hl.
    rewrite IH; [by rewrite <- app_assoc|done|].
    by destruct current.
Qed.

Lemma deviceLines_nonblank d :
  listable d = true → Forall (λ l, TrimSpace l ≠ "") (deviceLines d).
Proof.
  intros (Hg & _ & _ & Hnodes & _)%listable_inv. constructor.
  - rewrite ShapeFacts.TrimSpace_graphic by (by apply name_line).
    by apply StrFacts.app_not_nil_r.
  - apply Forall_fmap. eapply Forall_impl; [exact Hnodes|].
    intros node (Hn & _ & _)%nodeOk_inv. simpl.
    rewrite ShapeFacts.TrimSpace_tab by done.
    by apply ShapeFacts.graphicEnds_nonempty.
Qed.

Lemma deviceLines_noLF d :
  listable d = true → Forall (λ l, contains l LF = false) (deviceLines d).
Proof.
  intros (_ & Hone & _ & Hnodes & _)%listable_inv. constructor.
  - by rewrite TextFacts.contains_app, (ShapeFacts.oneLine_noLF _ Hone).
  - apply Forall_fmap. eapply Forall_impl; [exact Hnodes|].
    intros node (_ & Hlf & _)%nodeOk_inv. simpl.
    by rewrite TextFacts.contains_app, Hlf.
Qed.

Lemma splitBlocks_listing ds :
  Forall (λ d, listable d = true) ds →
  splitBlocks (listing ds) = (λ d, Join (deviceLines d) (String LF "")) <$> ds.
Proof.
  intros Hds. unfold splitBlocks. rewrite scan_listing by done. cbn [fst].
  induction Hds as [|d ds Hd _ IH]; [done|].
  rewrite bind_cons, <- app_assoc, <- cons_middle.
  rewrite (splitBlocksLoop_block (deviceLines d) _ []);
    [|by apply deviceLines_nonblank|done].
  by rewrite IH.
Qed.

(** *** The devices *)

Lemma TrimSuffix_colon s : TrimSuffix (s +:+ ":") ":" = s.
Proof.
  induction s as [|c s IH]; [done|].
  rewrite StrFacts.app_cons.
  change (TrimSuffix (String c (s +:+ ":")) ":")
    with (if String.eqb (String c (s +:+ ":")) ":" then ""
          else String c (TrimSuffix (s +:+ ":") ":")).
  rewrite IH.
  destruct (String.eqb_spec (String c (s +:+ ":")) ":") as [He|]; [|done].
  injection He as _ He. by destruct s.
Qed.

Lemma parseBlock_listed d :
  listable d = true →
  parseBlock (Join (deviceLines d) (String LF "")) = [mkDevice d.1 (default "" (head d.2))].
Proof.
  intros Hd. unfold parseBlock.
  rewrite TextFacts.Split_Join by (done || by apply deviceLines_noLF).
  destruct (listable_inv d Hd) as (Hg & _ & _ & Hnodes & node & nodes & Hd2 & Hp).
  unfold deviceLines. rewrite Hd2. inversion Hnodes as [|? ? Hn _]; [congruence|].
  assert (graphicEnds node = true) as Hgn.
  { rewrite Hd2 in *. simplify_eq. by apply nodeOk_inv in Hn as (? & _). }
  simpl fmap. simpl head. simpl default.
  unfold scanBlock.
  rewrite ShapeFacts.TrimSpace_graphic by (by apply name_line).
  assert (String.eqb (d.1 +:+ ":") "" = false) as ->
    by (by apply String.eqb_neq, StrFacts.app_not_nil_r).
  simpl String.eqb at 1. cbv iota. rewrite TrimSuffix_colon.
  rewrite ShapeFacts.TrimSpace_tab by done.
  assert (String.eqb node "" = false) as Hnode
    by (by apply String.eqb_neq, ShapeFacts.graphicEnds_nonempty).
  rewrite Hnode.
  assert (String.eqb d.1 "" = false) as ->
    by (by apply String.eqb_neq, ShapeFacts.graphicEnds_nonempty).
  by rewrite Hp, Hnode.
Qed.

Lemma parseV4L2Output_listing ds :
  Forall (λ d, listable d = true) ds →
  parseV4L2Output (listing ds) = (λ d, mkDevice d.1 (default "" (head d.2))) <$> ds.
Proof.
  intros Hds. unfold parseV4L2Output. rewrite splitBlocks_listing by done.
  induction Hds as [|d ds Hd _ IH]; [done|].
  rewrite fmap_cons, bind_cons, IH, parseBlock_listed by done. done.
Qed.

End ListingFacts.

(** X12: [splitBlocks] loses no line and keeps the order: the lines of
    its blocks, one block after the other, are the lines of the input
    that are not blank; and every block has at least one line. *)
Theorem splitBlocks_keeps_the_lines input :
  (splitBlocks input ≫= λ b, Strings.Split b Bufio.LF)
  = filter (λ l, Strings.TrimSpace l ≠ "") (Bufio.scan input).1
  ∧ Forall (λ b, ∃ l ls, Strings.Split b Bufio.LF = l :: ls) (splitBlocks input).
Proof.
  split; [apply TextFacts.splitBlocks_lines|].
  eapply Forall_impl.
  - apply (TextFacts.splitBlocksLoop_blocks _ []); [apply TextFacts.scan_noLF|constructor].
  - intros b (l & ls & Hs & _). eauto.
Qed.

(** X13: every device that [parseV4L2Output] returns has a name that is
    not empty and a node that starts with [/dev/video]; the node is a
    line of the output without the white space around it, and the name
    is such a line without its final colon. *)
Theorem parsed_devices_are_video_nodes output d :
  d ∈ parseV4L2Output output →
  devName d ≠ "" ∧ Strings.HasPrefix (devNode d) "/dev/video" = true ∧
  (∃ l, l ∈ (Bufio.scan output).1 ∧ devNode d = Strings.TrimSpace l) ∧
  (∃ l, l ∈ (Bufio.scan output).1 ∧
        devName d = Strings.TrimSuffix (Strings.TrimSpace l) ":").
Proof. apply TextFacts.parseV4L2Output_device. Qed.

(** X14: every device that [discoverDevices] returns has a name, so that
    [refreshCameras] never has to make one up for it; and its node starts
    with [/dev/video] when the matches of the glob do. *)
Theorem discovered_devices_have_names goos v4l2 matches d idx :
  Forall (λ m, Strings.HasPrefix m "/dev/video" = true) matches →
  d ∈ discoverDevices goos v4l2 matches →
  devName d ≠ "" ∧ cameraName idx d = devName d ∧
  Strings.HasPrefix (devNode d) "/dev/video" = true.
Proof.
  intros Hm Hd.
  assert (devName d ≠ "" ∧ Strings.HasPrefix (devNode d) "/dev/video" = true) as [Hn Hp].
  { unfold discoverDevices in Hd.
    destruct (negb (String.eqb goos "linux")); [by apply elem_of_nil in Hd|].
    assert (d ∈ imap (λ idx node, mkDevice ("Camera " +:+ pretty (idx + 1)%nat) node)
                     (sortStrings matches) →
            devName d ≠ "" ∧ Strings.HasPrefix (devNode d) "/dev/video" = true) as Hfb.
    { intros (i & node & -> & Hi)%elem_of_lookup_imap. split; [done|]. simpl.
      apply list_elem_of_lookup_2 in Hi. unfold sortStrings in Hi.
      rewrite merge_sort_Permutation in Hi.
      by apply (proj1 (Forall_forall _ _) Hm). }
    destruct v4l2 as [out|]; [|by apply Hfb].
    destruct (parseV4L2Output out) as [|d0 ds] eqn:Hparse; [by apply Hfb|].
    rewrite <- Hparse in Hd.
    by destruct (TextFacts.parseV4L2Output_device out d Hd) as (? & ? & _). }
  split; [done|]. split; [|done].
  unfold cameraName. by rewrite decide_False.
Qed.

(** X18: a listing in the format of [v4l2-ctl --list-devices] is read
    back: [parseV4L2Output] returns one device for every listed device,
    in the order of the listing, with the name of the device and the
    first of its nodes; and [discoverDevices] returns these on Linux
    when the listing has a device. *)
Theorem listing_is_read_back ds matches :
  Forall (λ d, Shape.listable d = true) ds →
  parseV4L2Output (Shape.listing ds)
  = (λ d, mkDevice d.1 (default "" (head d.2))) <$> ds
  ∧ (ds ≠ [] →
     discoverDevices "linux" (Some (Shape.listing ds)) matches
     = (λ d, mkDevice d.1 (default "" (head d.2))) <$> ds).
Proof.
  intros Hds. split; [by apply ListingFacts.parseV4L2Output_listing|].
  intros Hne. unfold discoverDevices.
  rewrite ListingFacts.parseV4L2Output_listing by done.
  by destruct ds.
Qed.

Lemma parsed_devices_are_video_nodes_witness :
  devName (mkDevice "USB Cam" "/dev/video2") ≠ "" ∧
  Strings.HasPrefix (devNode (mkDevice "USB Cam" "/dev/video2")) "/dev/video" = true ∧
  (∃ l, l ∈ (Bufio.scan (Shape.listing [("USB Cam", ["/dev/video2"; "/dev/media0"])])).1 ∧
        devNode (mkDevice "USB Cam" "/dev/video2") = Strings.TrimSpace l) ∧
  (∃ l, l ∈ (Bufio.scan (Shape.listing [("USB Cam", ["/dev/video2"; "/dev/media0"])])).1 ∧
        devName (mkDevice "USB Cam" "/dev/video2")
        = Strings.TrimSuffix (Strings.TrimSpace l) ":").
Proof.
  apply (parsed_devices_are_video_nodes
           (Shape.listing [("USB Cam", ["/dev/video2"; "/dev/media0"])])
           (mkDevice "USB Cam" "/dev/video2")).
  vm_compute. apply elem_of_cons. by left.
Defined.

Lemma discovered_devices_have_names_witness :
  devName (mkDevice "Camera 2" "/dev/video2") ≠ "" ∧
  cameraName 1 (mkDevice "Camera 2" "/dev/video2") = devName (mkDevice "Camera 2" "/dev/video2") ∧
  Strings.HasPrefix (devNode (mkDevice "Camera 2" "/dev/video2")) "/dev/video" = true.
Proof.
  apply (discovered_devices_have_names "linux" None ["/dev/video2"; "/dev/video0"]
           (mkDevice "Camera 2" "/dev/video2") 1).
  - repeat constructor.
  - vm_compute. apply elem_of_cons. right. apply elem_of_cons. by left.
Defined.

Lemma listing_is_read_back_witness :
  parseV4L2Output
    (Shape.listing [("HD Webcam (usb-0000:00:14.0-1)", ["/dev/video0"; "/dev/video1"]);
                    ("USB Cam", ["/dev/video2"])])
  = [mkDevice "HD Webcam (usb-0000:00:14.0-1)" "/dev/video0"; mkDevice "USB Cam" "/dev/video2"].
Proof.
  refine (proj1 (listing_is_read_back
           [("HD Webcam (usb-0000:00:14.0-1)", ["/dev/video0"; "/dev/video1"]);
            ("USB Cam", ["/dev/video2"])] [] _)).
  do 2 (constructor; [vm_compute; reflexivity|]). constructor.
Defined.

(* ===================================================================== *)
(** ** A cycle in the steady state *)
(* ===================================================================== *)

Lemma setPublishing_id b c : Publishing c = b → setPublishing b c = c.
Proof. destruct c. simpl. by intros ->. Qed.

Lemma settledCamera_ext hs idx d m1 w1 m w :
  hostname w1 = hostname w → cfg w1 = cfg w →
  (∀ u, default true (m1 !! u) = default true (m !! u)) →
  settledCamera hs idx d m1 w1 = settledCamera hs idx d m w.
Proof.
  intros Hh Hc Hm. unfold settledCamera, newCamera, setPublishing. simpl.
  by rewrite Hh, Hc, Hm.
Qed.

Lemma settledTable_ext hs ds m1 w1 m w :
  hostname w1 = hostname w → cfg w1 = cfg w →
  (∀ u, default true (m1 !! u) = default true (m !! u)) →
  ∀ idx next, settledTable hs idx ds m1 w1 next = settledTable hs idx ds m w next.
Proof.
  intros Hh Hc Hm. induction ds as [|d ds IH]; intros idx next; [done|].
  simpl. by rewrite IH, Hh, (settledCamera_ext hs idx d m1 w1 m w).
Qed.

Lemma settledTable_dom hs ds m w : ∀ idx next,
  dom (settledTable hs idx ds m w next)
  = dom next ∪ list_to_set (uidsOf (hostname w) ds).
Proof.
  induction ds as [|d ds IH]; intros idx next; simpl.
  - set_solver.
  - rewrite IH, dom_insert_L. set_solver.
Qed.

Lemma stopVanished_none next us w :
  (∀ u, u ∈ us → is_Some (next !! u)) → stopVanished next us w = w.
Proof.
  revert w. induction us as [|u us IH]; intros w Hus; [done|].
  rewrite stopVanished_cons.
  destruct (Hus u) as [cam ->]; [by apply elem_of_cons; left|].
  apply IH. intros u' Hu'. apply Hus. by apply elem_of_cons; right.
Qed.

Section Settled.

Context (E : Env).

(** When every start succeeds the first loop builds the settled table. *)
Lemma refreshDevice_settled hs idx d next w m next' w' :
  allStart E → state w = Some m → flagSound next w →
  refreshDevice E hs idx d next w = Done (next', w') →
  next' = <[deviceUIDOf (hostname w) d := settledCamera hs idx d m w]> next.
Proof.
  intros Hall Hst [Hq1 _].
  rewrite (refreshDevice_spec E hs idx d next w m Hst). unfold settledCamera.
  set (uid := deviceUIDOf (hostname w) d) in *.
  set (en := default true (m !! uid)) in *.
  set (ws := withState (Some (<[uid:=en]> m)) w) in *.
  set (cam0 := newCamera hs idx d en w) in *.
  assert (Publishing cam0 = bool_decide (is_Some (publishers w !! uid))) as Hp0 by done.
  destruct en eqn:Hen.
  - unfold ensurePublisherLocked. change (DeviceUID cam0) with uid. simpl.
    destruct (publishers w !! uid) as [c|] eqn:Hpub; simpl.
    + intros [= <- _]. rewrite setPublishing_id; [done|].
      rewrite Hp0. apply bool_decide_eq_true. eauto.
    + rewrite (Hall (nextCmd w)). simpl. by intros [= <- _].
  - intros [= <- _]. rewrite setPublishing_id; [done|].
    rewrite Hp0. apply bool_decide_eq_false. intros [c Hc].
    specialize (Hq1 uid c Hc). rewrite Hst in Hq1. simpl in Hq1.
    unfold en in Hen. by rewrite Hq1 in Hen.
Qed.

Lemma refreshLoop_settled hs ds : ∀ idx next w m next' w',
  allStart E → state w = Some m → flagSound next w →
  refreshLoop E hs idx ds next w = Done (next', w') →
  next' = settledTable hs idx ds m w next.
Proof.
  induction ds as [|d ds IH]; intros idx next w m next' w' Hall Hst Hq; simpl.
  - by intros [= <- _].
  - destruct (refreshDevice E hs idx d next w) as [[n1 w1]|] eqn:Hd; simpl; [|done].
    intros Hl.
    pose proof (refreshDevice_settled _ _ _ _ _ _ _ _ Hall Hst Hq Hd) as ->.
    destruct (refreshDevice_result E hs idx d next w m Hst)
      as (cam & w1' & Hdev & _ & _ & _ & _ & _ & Hst1 & Hh1 & Hc1 & _).
    rewrite Hd in Hdev. injection Hdev as _ <-.
    rewrite (IH _ _ _ _ _ _ Hall Hst1 (refreshDevice_flagSound E _ _ _ _ _ _ _ Hd Hq) Hl).
    apply settledTable_ext; [done|done|].
    intros u. destruct (decide (deviceUIDOf (hostname w) d = u)) as [<-|Hne].
    + by rewrite lookup_insert_eq.
    + by rewrite lookup_insert_ne.
Qed.

(** In a settled world the first loop starts and stops nothing. *)
Lemma refreshDevice_quiet hs idx d next w m :
  state w = Some m → settled [d] m w →
  ∃ next' w',
    refreshDevice E hs idx d next w = Done (next', w') ∧
    publishers w' = publishers w ∧ procs w' = procs w ∧ nextCmd w' = nextCmd w ∧
    state w' = state w ∧ cameras w' = cameras w ∧
    hostname w' = hostname w ∧ cfg w' = cfg w.
Proof.
  intros Hst Hset.
  destruct (Hset d) as (b & Hb & Hreg); [by apply elem_of_cons; left|].
  rewrite (refreshDevice_spec E hs idx d next w m Hst).
  set (uid := deviceUIDOf (hostname w) d) in *.
  rewrite Hb. simpl. rewrite (insert_id m uid b Hb), (withState_id w m Hst).
  destruct b.
  - destruct (proj1 Hreg eq_refl) as [c Hc].
    unfold ensurePublisherLocked. change (DeviceUID (newCamera hs idx d true w)) with uid.
    simpl. rewrite Hc. simpl. eauto 10.
  - assert (publishers w !! uid = None) as Hnone.
    { apply eq_None_not_Some. intros Hs. by apply Hreg in Hs. }
    rewrite (stop_absent uid w Hnone). eauto 10.
Qed.

Lemma refreshLoop_quiet hs ds : ∀ idx next w m,
  state w = Some m → settled ds m w →
  ∃ next' w',
    refreshLoop E hs idx ds next w = Done (next', w') ∧
    publishers w' = publishers w ∧ procs w' = procs w ∧ nextCmd w' = nextCmd w ∧
    state w' = state w ∧ cameras w' = cameras w ∧
    hostname w' = hostname w ∧ cfg w' = cfg w.
Proof.
  induction ds as [|d ds IH]; intros idx next w m Hst Hset; simpl.
  - eauto 10.
  - destruct (refreshDevice_quiet hs idx d next w m Hst)
      as (n1 & w1 & Hd & Hp1 & Hpr1 & Hn1 & Hs1 & Hc1 & Hh1 & Hcf1).
    { intros d' Hd'. apply Hset. apply elem_of_cons in Hd' as [->|?%elem_of_nil]; [|done].
      by apply elem_of_cons; left. }
    rewrite Hd. simpl.
    destruct (IH (S idx) n1 w1 m) as (n2 & w2 & Hl & Hp2 & Hpr2 & Hn2 & Hs2 & Hc2 & Hh2 & Hcf2).
    { congruence. }
    { intros d' Hd'. destruct (Hset d') as (b & Hb & Hreg); [by apply elem_of_cons; right|].
      exists b. by rewrite Hh1, Hp1. }
    exists n2, w2. split; [done|]. repeat split; congruence.
Qed.

Lemma settled_after_cycle devices w m w1 :
  allStart E → Reachable E w → state w = Some m →
  refreshCameras E devices w = Done w1 →
  settled (sortDevices devices) (seedAll (hostname w) (sortDevices devices) m) w1.
Proof.
  intros Hall HR Hst Hr.
  destruct (refreshCameras_result E devices w m Hst)
    as (next & _ & _ & w1' & _ & _ & Hr' & Hcam & Hst1 & Hh1 & _ & _ & _ & _ & _ & _ & _ & _
        & Hen & _).
  rewrite Hr in Hr'. injection Hr' as <-.
  destruct (refreshCameras_agree E devices w w1 (Reachable_Inv E w HR)
              (Reachable_Agree E w HR) Hr) as [[Hf Hreg] Hlive].
  intros d Hd. rewrite Hh1.
  exists (default true (m !! deviceUIDOf (hostname w) d)).
  split; [by apply seedAll_seen|].
  destruct (Hen d) as (cam & Hc & Hce); [by apply sortDevices_elem|].
  rewrite <- Hcam in Hc. split.
  - intros Hb. eapply (Hlive Hall); [exact Hc|congruence].
  - intros [c Hpub]. destruct (Hreg _ _ Hpub) as (p & cam' & _ & _ & Hc' & He' & _).
    congruence.
Qed.

(** X19: reconciliation is idempotent in the steady state: when every
    start succeeds, a second cycle over the scan of the first one leaves
    the table, the live set, the subprocesses and the state mapping as
    they are, and tries no start. *)
Theorem second_cycle_changes_nothing devices w m :
  allStart E → Reachable E w → state w = Some m →
  ∃ w1 w2,
    refreshCameras E devices w = Done w1 ∧
    refreshCameras E devices w1 = Done w2 ∧
    cameras w2 = cameras w1 ∧ publishers w2 = publishers w1 ∧
    procs w2 = procs w1 ∧ state w2 = state w1 ∧ nextCmd w2 = nextCmd w1.
Proof.
  intros Hall HR Hst.
  destruct (refreshCameras_result E devices w m Hst)
    as (next & wl & _ & w1 & Hl & _ & Hr & Hcam & Hst1 & Hh1 & Hcf1 & _).
  exists w1.
  assert (Reachable E w1) as HR1 by (by eapply (reach_step E (Refresh devices))).
  pose proof (settled_after_cycle devices w m w1 Hall HR Hst Hr) as Hset.
  set (ds := sortDevices devices) in *.
  set (m1 := seedAll (hostname w) ds m) in *.
  destruct (refreshLoop_quiet (slugify (hostname w1)) ds 0 ∅ w1 m1 Hst1 Hset)
    as (next2 & wl2 & Hl2 & Hp2 & Hpr2 & Hn2 & Hs2 & Hc2 & Hh2 & Hcf2).
  assert (next2 = cameras w1) as Hnext.
  { rewrite (refreshLoop_settled _ _ _ _ _ _ _ _ Hall Hst1
               (Agree_flagSound w1 (Reachable_Agree E w1 HR1)) Hl2).
    rewrite Hcam.
    rewrite (refreshLoop_settled _ _ _ _ _ _ _ _ Hall Hst
               (Agree_flagSound w (Reachable_Agree E w HR)) Hl).
    rewrite Hh1. apply settledTable_ext; [done|done|].
    intros u. destruct (decide (u ∈ uidsOf (hostname w) ds)) as [Hin|Hnin].
    - apply list_elem_of_fmap in Hin as (d & -> & Hd).
      unfold m1. by rewrite seedAll_seen.
    - unfold m1. by rewrite seedAll_unseen. }
  set (w3 := withCameras (λ _, next2) wl2).
  exists (saveState E (StateFile (cfg w3)) (state w3) w3).2.
  split; [done|].
  assert (stopVanished next2 (map_to_list (cameras w1)).*1 wl2 = wl2) as Hsv.
  { apply stopVanished_none. intros u (uc & -> & Huc)%list_elem_of_fmap.
    destruct uc as [u cam]. apply elem_of_map_to_list in Huc. rewrite Hnext. eauto. }
  split.
  { unfold refreshCameras. fold ds. rewrite Hl2. simpl. by rewrite Hsv. }
  destruct (saveState_frame E (StateFile (cfg w3)) (state w3) w3)
    as (_ & _ & Hcam3 & Hp3 & Hs3 & Hpr3 & Hn3 & _).
  rewrite Hcam3, Hp3, Hs3, Hpr3, Hn3. simpl. by rewrite Hnext.
Qed.

End Settled.

Lemma second_cycle_changes_nothing_witness :
  ∃ w1 w2,
    refreshCameras Ex.okEnv [Ex.video2; Ex.usbCam] Ex.disabled = Done w1 ∧
    refreshCameras Ex.okEnv [Ex.video2; Ex.usbCam] w1 = Done w2 ∧
    cameras w2 = cameras w1 ∧ publishers w2 = publishers w1 ∧
    procs w2 = procs w1 ∧ state w2 = state w1 ∧ nextCmd w2 = nextCmd w1.
Proof.
  apply (second_cycle_changes_nothing Ex.okEnv [Ex.video2; Ex.usbCam] Ex.disabled
           {[Ex.uid0 := false]}).
  - intros c. reflexivity.
  - apply (reach_step Ex.okEnv (Toggle (Ex.post Ex.uid0 false)) (Ex.started Ex.okEnv));
      [|vm_compute; reflexivity].
    apply (reach_step Ex.okEnv (Refresh [Ex.video0]) (Ex.fresh Ex.okEnv));
      [apply reach_init|vm_compute; reflexivity].
  - vm_compute; reflexivity.
Defined.

(* ===================================================================== *)
(** ** What the live set holds *)
(* ===================================================================== *)

Lemma supervised_same w w' :
  publishers w' = publishers w → procs w' = procs w → supervised w → supervised w'.
Proof. intros Hp Hpr Hs uid c. rewrite Hp, Hpr. apply Hs. Qed.

Lemma supervised_stop uid w : supervised w → supervised (stopPublisherLocked uid w).
Proof.
  intros Hs u c Hl. destruct (stop_frame uid w) as (_&_&_&_&_&_&Hp).
  rewrite Hp in Hl.
  destruct (decide (u = uid)) as [->|Hne]; [by rewrite lookup_delete_eq in Hl|].
  rewrite lookup_delete_ne in Hl by done.
  destruct (Hs u c Hl) as (p & Hpr & Hu & Hsig & Hw).
  exists p. rewrite stop_procs. rewrite decide_False; [done|].
  intros Hreg. destruct (Hs uid c Hreg) as (p' & Hpr' & Hu' & _). congruence.
Qed.

Lemma supervised_stopVanished next us w :
  supervised w → supervised (stopVanished next us w).
Proof.
  revert w. induction us as [|u us IH]; intros w Hs; [done|].
  rewrite stopVanished_cons. apply IH.
  destruct (next !! u); [done|]. by apply supervised_stop.
Qed.

Lemma supervised_procExit c err w : supervised w → supervised (procExit c err w).
Proof.
  intros Hs. unfold procExit. destruct (procs w !! c) as [p|] eqn:Hp; [|done].
  destruct (alive p); [|done]. intros u c' Hl. simpl in *.
  destruct (Hs u c' Hl) as (p' & Hp' & Hu & Hsig & Hw).
  destruct (decide (c = c')) as [<-|Hne].
  - rewrite lookup_insert_eq. rewrite Hp in Hp'. injection Hp' as <-. eauto.
  - rewrite lookup_insert_ne by done. eauto.
Qed.

Lemma supervised_watcherExit c w : supervised w → supervised (watcherExit c w).
Proof.
  intros Hs. unfold watcherExit. destruct (procs w !! c) as [p|] eqn:Hp; [|done].
  destruct (alive p); [done|]. destruct (watcher p); try done.
  intros u c' Hl.
  assert (delete (procUID p) (publishers w) !! u = Some c') as Hd
    by (by destruct (exitErr p)).
  destruct (decide (procUID p = u)) as [<-|Hne]; [by rewrite lookup_delete_eq in Hd|].
  rewrite lookup_delete_ne in Hd by done.
  destruct (Hs u c' Hd) as (p' & Hp' & Hu & Hsig & Hw).
  assert (c ≠ c') as Hc by (intros <-; congruence).
  exists p'. destruct (exitErr p); simpl; by rewrite lookup_insert_ne.
Qed.

Section Supervised.

Context (E : Env).

Lemma supervised_ensure camera w :
  procsBelow w → supervised w → supervised (ensurePublisherLocked E camera w).2.
Proof.
  intros Hb Hs. unfold ensurePublisherLocked. simpl.
  destruct (publishers w !! DeviceUID camera) as [c|] eqn:Hpub; [done|].
  destruct (startResult E (nextCmd w)); simpl; try done.
  intros u c' Hl. simpl in *.
  destruct (decide (DeviceUID camera = u)) as [<-|Hne].
  - rewrite lookup_insert_eq in Hl. injection Hl as <-.
    rewrite lookup_insert_eq. eauto.
  - rewrite lookup_insert_ne in Hl by done.
    destruct (Hs u c' Hl) as (p & Hp & Hrest). exists p.
    rewrite lookup_insert_ne; [done|].
    assert (c' < nextCmd w)%nat by (apply Hb; eauto). lia.
Qed.

Lemma supervised_ensureInTable uid cam w :
  procsBelow w → supervised w → supervised (ensureInTable E uid cam w).
Proof.
  intros Hb Hs. destruct (ensureInTable_frame E uid cam w) as (_&_&_&_&_&_&Hp&Hpr&_).
  eapply supervised_same; [exact Hp|exact Hpr|]. by apply supervised_ensure.
Qed.

Lemma supervised_save path st w : supervised w → supervised (saveState E path st w).2.
Proof.
  destruct (saveState_frame E path st w) as (_&_&_&Hp&_&Hpr&_).
  by apply supervised_same.
Qed.

Lemma supervised_watcherRestart c w :
  procsBelow w → supervised w → supervised (watcherRestart E c w).
Proof.
  intros Hb Hs. unfold watcherRestart.
  destruct (procs w !! c) as [p|] eqn:Hp; [|done].
  destruct (watcher p) eqn:Hw; try done.
  set (w1 := withProcs <[c:=setWatcher Finished p]> w).
  assert (supervised w1) as Hs1.
  { intros u c' Hl. destruct (Hs u c' Hl) as (p' & Hp' & Hu & Hsig & Hw').
    assert (c ≠ c') as Hc by (intros <-; congruence).
    exists p'. simpl. by rewrite lookup_insert_ne. }
  assert (procsBelow w1) as Hb1.
  { intros c' Hc'. simpl in *. apply Hb.
    destruct (decide (c = c')) as [<-|Hne]; [by eauto|].
    by rewrite lookup_insert_ne in Hc'. }
  simpl. destruct (cameras w !! procUID p) as [cam|]; [|done].
  destruct (Enabled cam); [|done]. by apply supervised_ensureInTable.
Qed.

Lemma supervised_handleToggle r w resp w' :
  procsBelow w → supervised w → handleToggle E r w = Done (resp, w') → supervised w'.
Proof.
  intros Hb Hs.
  destruct (handleToggle_cases E r w)
    as [[_ ->]|[(_&_&->)|(uid&b&_&_&[[_ ->]|(cam&Hcam&[[_ ->]|(m&Hm&->)])])]];
    try done; try by intros [= _ <-].
  intros [= _ <-]. apply supervised_save. destruct b.
  - by apply supervised_ensureInTable.
  - by apply supervised_stop.
Qed.

Lemma supervised_refreshDevice hs idx d next w next' w' :
  refreshDevice E hs idx d next w = Done (next', w') →
  procsBelow w → supervised w → procsBelow w' ∧ supervised w'.
Proof.
  intros Hdev Hb Hs.
  destruct (state w) as [m|] eqn:Hst;
    [|by unfold refreshDevice in Hdev; rewrite Hst in Hdev].
  destruct (refreshDevice_result E hs idx d next w m Hst)
    as (cam & w1 & Hdev' & _ & _ & _ & _ & _ & _ & _ & _ & _ & _ & _ & _ & _ & Hb1).
  rewrite Hdev in Hdev'. injection Hdev' as _ <-. split; [by apply Hb1|].
  rewrite (refreshDevice_spec E hs idx d next w m Hst) in Hdev.
  destruct (default true (m !! deviceUIDOf (hostname w) d)).
  - injection Hdev as _ <-. by apply supervised_ensure.
  - injection Hdev as _ <-. by apply supervised_stop.
Qed.

Lemma supervised_refreshLoop hs ds : ∀ idx next w next' w',
  refreshLoop E hs idx ds next w = Done (next', w') →
  procsBelow w → supervised w → procsBelow w' ∧ supervised w'.
Proof.
  induction ds as [|d ds IH]; intros idx next w next' w'; simpl.
  - by intros [= _ <-].
  - destruct (refreshDevice E hs idx d next w) as [[n1 w1]|] eqn:Hd; simpl; [|done].
    intros Hl Hb Hs.
    destruct (supervised_refreshDevice _ _ _ _ _ _ _ Hd Hb Hs) as [Hb1 Hs1].
    by eapply IH.
Qed.

Lemma supervised_refreshCameras devices w w' :
  procsBelow w → supervised w → refreshCameras E devices w = Done w' → supervised w'.
Proof.
  intros Hb Hs. unfold refreshCameras.
  destruct (refreshLoop E _ 0 _ ∅ w) as [[next w1]|] eqn:Hl; simpl; [|done].
  intros [= <-]. apply supervised_save.
  destruct (supervised_refreshLoop _ _ _ _ _ _ _ Hl Hb Hs) as [_ Hs1].
  eapply supervised_same; [| |by apply (supervised_stopVanished next), Hs1]; done.
Qed.

Lemma supervised_step e w w' :
  procsBelow w → supervised w → step E e w = Done w' → supervised w'.
Proof.
  intros Hb Hs. destruct e as [devices|r|c err|c|c]; simpl.
  - by apply supervised_refreshCameras.
  - destruct (handleToggle E r w) as [[resp w0]|] eqn:Ht; simpl; [|done].
    intros [= <-]. by eapply supervised_handleToggle.
  - intros [= <-]. by apply supervised_procExit.
  - intros [= <-]. by apply supervised_watcherExit.
  - intros [= <-]. by apply supervised_watcherRestart.
Qed.

Lemma Reachable_supervised w : Reachable E w → supervised w.
Proof.
  induction 1 as [host c d|e w w' HR IH Hstep].
  - intros u c0 Hu. simpl in Hu. by rewrite lookup_empty in Hu.
  - eapply supervised_step; [|exact IH|exact Hstep].
    by destruct (Reachable_Inv E w HR).
Qed.

End Supervised.

(** X20: in every world the agent can reach, a subprocess in the live set
    was started for the deviceUID it is registered under, was never sent
    the interrupt, and its goroutine has not handled its exit yet. *)
Theorem live_set_holds_supervised_subprocesses E w uid c :
  Reachable E w → publishers w !! uid = Some c →
  ∃ p, procs w !! c = Some p ∧ procUID p = uid ∧
       signalled p = false ∧ watcher p = Waiting.
Proof. intros HR. by apply (Reachable_supervised E w HR). Qed.

Lemma live_set_holds_supervised_subprocesses_witness :
  ∃ p, procs (Ex.started Ex.okEnv) !! 0 = Some p ∧ procUID p = Ex.uid0 ∧
       signalled p = false ∧ watcher p = Waiting.
Proof.
  apply (live_set_holds_supervised_subprocesses Ex.okEnv (Ex.started Ex.okEnv) Ex.uid0 0).
  - apply (reach_step Ex.okEnv (Refresh [Ex.video0]) (Ex.fresh Ex.okEnv));
      [apply reach_init|vm_compute; reflexivity].
  - vm_compute; reflexivity.
Defined.

(* ===================================================================== *)
(** ** What leaves a Publisher alone *)
(* ===================================================================== *)

Lemma runs_same uid c p w w' :
  publishers w' = publishers w → procs w' = procs w → runs uid c p w → runs uid c p w'.
Proof. intros Hp Hpr [??]. split; congruence. Qed.

Lemma runs_stop uid c p uid' w :
  supervised w → uid' ≠ uid → runs uid c p w → runs uid c p (stopPublisherLocked uid' w).
Proof.
  intros Hs Hne [Hpub Hpr]. destruct (stop_frame uid' w) as (_&_&_&_&_&_&Hp). split.
  - rewrite Hp. by rewrite lookup_delete_ne.
  - rewrite stop_procs. rewrite decide_False; [done|].
    intros Hreg. destruct (Hs uid' c Hreg) as (p' & Hp' & Hu' & _).
    destruct (Hs uid c Hpub) as (p'' & Hp'' & Hu'' & _). congruence.
Qed.

Lemma runs_stopVanished uid c p next us w :
  supervised w → is_Some (next !! uid) → runs uid c p w →
  runs uid c p (stopVanished next us w).
Proof.
  intros Hs [cam Hn]. revert w Hs. induction us as [|u us IH]; intros w Hs Hr; [done|].
  rewrite stopVanished_cons. destruct (next !! u) eqn:Hu; [by apply IH|].
  apply IH; [by apply supervised_stop|].
  apply runs_stop; [done| |done]. intros ->. congruence.
Qed.

Section Runs.

Context (E : Env).

Lemma runs_ensure uid c p camera w :
  procsBelow w → runs uid c p w → runs uid c p (ensurePublisherLocked E camera w).2.
Proof.
  intros Hb [Hpub Hpr].
  destruct (decide (DeviceUID camera = uid)) as [Heq|Hne].
  - rewrite (ensure_registered E camera w c) by (by rewrite Heq). by split.
  - split.
    + by rewrite ensure_publishers_other.
    + rewrite ensure_procs; [done|]. apply Hb. eauto.
Qed.

Lemma runs_ensureInTable uid c p uid' cam w :
  procsBelow w → runs uid c p w → runs uid c p (ensureInTable E uid' cam w).
Proof.
  intros Hb Hr. destruct (ensureInTable_frame E uid' cam w) as (_&_&_&_&_&_&Hp&Hpr&_).
  eapply runs_same; [exact Hp|exact Hpr|]. by apply runs_ensure.
Qed.

Lemma runs_save uid c p path st w :
  runs uid c p w → runs uid c p (saveState E path st w).2.
Proof.
  destruct (saveState_frame E path st w) as (_&_&_&Hp&_&Hpr&_).
  by apply runs_same.
Qed.

Lemma runs_refreshDevice uid c p hs idx d next w next' w' :
  refreshDevice E hs idx d next w = Done (next', w') →
  procsBelow w → supervised w → mapIndex (state w) uid = Some true → runs uid c p w →
  mapIndex (state w') uid = Some true ∧ runs uid c p w'.
Proof.
  intros Hdev Hb Hs Hen Hr.
  destruct (state w) as [m|] eqn:Hst; [|done]. simpl in Hen.
  rewrite (refreshDevice_spec E hs idx d next w m Hst) in Hdev.
  set (uid' := deviceUIDOf (hostname w) d) in *.
  set (en := default true (m !! uid')) in *.
  set (ws := withState (Some (<[uid':=en]> m)) w) in *.
  assert (mapIndex (state ws) uid = Some true) as Hen'.
  { simpl. destruct (decide (uid' = uid)) as [->|Hne].
    - rewrite lookup_insert_eq. unfold en. by rewrite Hen.
    - by rewrite lookup_insert_ne. }
  destruct en eqn:Hd.
  - injection Hdev as _ <-. split.
    + by destruct (ensure_frame E (newCamera hs idx d true w) ws) as (_&_&_&->&_).
    + by apply runs_ensure.
  - injection Hdev as _ <-. split.
    + by destruct (stop_frame uid' ws) as (_&_&->&_).
    + apply runs_stop; [done| |done]. intros ->. unfold en in Hd. by rewrite Hen in Hd.
Qed.

Lemma runs_refreshLoop uid c p hs ds : ∀ idx next w next' w',
  refreshLoop E hs idx ds next w = Done (next', w') →
  procsBelow w → supervised w → mapIndex (state w) uid = Some true → runs uid c p w →
  supervised w' ∧ runs uid c p w'.
Proof.
  induction ds as [|d ds IH]; intros idx next w next' w'; simpl.
  - by intros [= _ <-].
  - destruct (refreshDevice E hs idx d next w) as [[n1 w1]|] eqn:Hd; simpl; [|done].
    intros Hl Hb Hs Hen Hr.
    destruct (supervised_refreshDevice E _ _ _ _ _ _ _ Hd Hb Hs) as [Hb1 Hs1].
    destruct (runs_refreshDevice _ _ _ _ _ _ _ _ _ _ Hd Hb Hs Hen Hr) as [Hen1 Hr1].
    by eapply IH.
Qed.

Lemma runs_refreshCameras uid c p devices w w' :
  Reachable E w → uid ∈ uidsOf (hostname w) devices →
  refreshCameras E devices w = Done w' → runs uid c p w → runs uid c p w'.
Proof.
  intros HR Hin Href Hr.
  pose proof (Reachable_Inv E w HR) as (Hb & _).
  pose proof (Reachable_supervised E w HR) as Hs.
  destruct (Reachable_Agree E w HR) as [Hf Hreg].
  assert (mapIndex (state w) uid = Some true) as Hen.
  { destruct Hr as [Hpub _]. destruct (Hreg uid c Hpub) as (?&cam&_&_&Hc&He&_).
    rewrite <- He. by apply Hf. }
  destruct (state w) as [m|] eqn:Hst; [|done].
  destruct (refreshCameras_result E devices w m Hst)
    as (next & w1 & w2 & w0 & Hl & Hw2 & Href' & _ & _ & _ & _ & Hp0 & Hpr0 & _ & _ & _ & _
        & _ & Hen0 & _).
  rewrite Href in Href'. injection Href' as <-.
  assert (mapIndex (state w) uid = Some true) as Hen' by (by rewrite Hst).
  destruct (runs_refreshLoop uid c p _ _ _ _ _ _ _ Hl Hb Hs Hen' Hr) as [Hs1 Hr1].
  eapply runs_same; [exact Hp0|exact Hpr0|]. rewrite Hw2.
  apply runs_stopVanished; [done| |done].
  apply list_elem_of_fmap in Hin as (d & -> & Hd).
  destruct (Hen0 d Hd) as (cam & -> & _). eauto.
Qed.

Lemma runs_handleToggle uid c p r w resp w' :
  Reachable E w → handleToggle E r w = Done (resp, w') →
  (∀ b, reqPayload r = Some (uid, b) → b = true) →
  runs uid c p w → runs uid c p w'.
Proof.
  intros HR Ht Hreq Hr.
  pose proof (Reachable_Inv E w HR) as (Hb & _).
  pose proof (Reachable_supervised E w HR) as Hs.
  destruct (handleToggle_cases E r w)
    as [[_ He]|[(_&_&He)|(uid'&b&_&Hpl&[[_ He]|(cam&Hcam&[[_ He]|(m&Hm&He)])])]];
    rewrite He in Ht; try done; try by injection Ht as _ <-.
  injection Ht as _ <-. apply runs_save. destruct b.
  - by apply runs_ensureInTable.
  - apply runs_stop; [done| |done]. intros ->. by specialize (Hreq false Hpl).
Qed.

End Runs.

(** X21: a reconciliation cycle that finds the device again leaves its
    Publisher alone: the live set keeps the same subprocess for the
    deviceUID, and the subprocess is neither interrupted nor started
    anew, whatever else the scan has found or lost. *)
Theorem cycle_keeps_running_publishers E devices w w' uid c p :
  Reachable E w → uid ∈ uidsOf (hostname w) devices →
  refreshCameras E devices w = Done w' →
  publishers w !! uid = Some c → procs w !! c = Some p →
  publishers w' !! uid = Some c ∧ procs w' !! c = Some p.
Proof.
  intros HR Hin Href Hpub Hpr.
  by apply (runs_refreshCameras E uid c p devices w w' HR Hin Href).
Qed.

(** X22: a request to the toggle endpoint leaves the Publisher of a
    deviceUID alone unless it is an accepted disable of that very
    deviceUID: requests for other cameras, and enables, keep the same
    subprocess in the live set and do not interrupt it. *)
Theorem toggle_keeps_other_publishers E r w resp w' uid c p :
  Reachable E w → handleToggle E r w = Done (resp, w') →
  reqPayload r ≠ Some (uid, false) →
  publishers w !! uid = Some c → procs w !! c = Some p →
  publishers w' !! uid = Some c ∧ procs w' !! c = Some p.
Proof.
  intros HR Ht Hreq Hpub Hpr.
  apply (runs_handleToggle E uid c p r w resp w' HR Ht); [|done].
  intros b Hb. destruct b; [done|]. by rewrite Hb in Hreq.
Qed.

Lemma cycle_keeps_running_publishers_witness :
  publishers (Ex.after Ex.okEnv [Refresh [Ex.video2; Ex.usbCam]] (Ex.started Ex.okEnv))
    !! Ex.uid0 = Some 0 ∧
  procs (Ex.after Ex.okEnv [Refresh [Ex.video2; Ex.usbCam]] (Ex.started Ex.okEnv))
    !! 0 = Some (mkProc Ex.uid0 (ffmpegArgs Ex.camera0) true false false Waiting).
Proof.
  apply (cycle_keeps_running_publishers Ex.okEnv [Ex.video2; Ex.usbCam]
           (Ex.started Ex.okEnv) _ Ex.uid0 0
           (mkProc Ex.uid0 (ffmpegArgs Ex.camera0) true false false Waiting)).
  - apply (reach_step Ex.okEnv (Refresh [Ex.video0]) (Ex.fresh Ex.okEnv));
      [apply reach_init|vm_compute; reflexivity].
  - vm_compute. apply elem_of_cons. right. apply elem_of_cons. by left.
  - vm_compute; reflexivity.
  - vm_compute; reflexivity.
  - vm_compute; reflexivity.
Defined.

Lemma toggle_keeps_other_publishers_witness :
  publishers (Ex.after Ex.okEnv [Toggle (Ex.post Ex.uid0 true)] (Ex.started Ex.okEnv))
    !! Ex.uid0 = Some 0 ∧
  procs (Ex.after Ex.okEnv [Toggle (Ex.post Ex.uid0 true)] (Ex.started Ex.okEnv))
    !! 0 = Some (mkProc Ex.uid0 (ffmpegArgs Ex.camera0) true false false Waiting).
Proof.
  apply (toggle_keeps_other_publishers Ex.okEnv (Ex.post Ex.uid0 true)
           (Ex.started Ex.okEnv) RespOk _ Ex.uid0 0
           (mkProc Ex.uid0 (ffmpegArgs Ex.camera0) true false false Waiting)).
  - apply (reach_step Ex.okEnv (Refresh [Ex.video0]) (Ex.fresh Ex.okEnv));
      [apply reach_init|vm_compute; reflexivity].
  - vm_compute; reflexivity.
  - intros [=].
  - vm_compute; reflexivity.
  - vm_compute; reflexivity.
Defined.
